(** * site-autofix: the crawl-and-verify engine and the fix-scoring engine

    A shallow embedding of [src/link-fixer.ts] and [src/link-scanner.ts],
    and the properties of [computeFixes], [fixesToRedirects],
    [normalizeUrl], [checkUrl], [asyncPool] and the crawl loop of
    [scanSite]; then of [levenshtein], [pathSimilarity], [escapeRegex],
    [applyFixesToContent], [scanSite] as a whole and [checkUrls].

    Conventions of the embedding.
    - JavaScript strings are [string]s (sequences of 8-bit characters; the
      code only compares, splits, joins, slices and lower-cases them).
    - The numbers used as scores and thresholds are exact rationals [Q]
      (the code adds, subtracts, multiplies, divides and compares them);
      lengths, counts and edit distances are [nat]; HTTP status codes and
      the page budget are [Z].
    - [string | null] is [option string]; the test [if (x)] on such a value
      is [JS.truthy].
    - A [Map] iterates in insertion order and [set] on a present key keeps
      the position of the key: it is an association list ([JSMap]). A
      [Set] is a duplicate-free list in insertion order ([JSSet]).
    - [try]/[catch] is explicit: a function that can throw returns a sum,
      and the handler is a [match].
    - The network, the browser and the order in which promises settle are
      parameters of the functions that depend on them.
    - The classes [URL] and [RegExp] of the platform are the interface
      [Platform]; the instance [simple_platform] runs the code on the
      concrete inputs of the examples. *)

From Stdlib Require Import Bool Arith ZArith QArith Lia List String Ascii.
From Stdlib Require Import Permutation Sorted Lqa.
Import ListNotations.

Local Open Scope string_scope.
Local Open Scope list_scope.

(* ===================================================================== *)
(** ** JavaScript strings and arrays                                      *)
(* ===================================================================== *)

Module JS.

(** [if (x)] for [x : string | null | undefined]. *)
Definition truthy (x : option string) : bool :=
  match x with
  | Some s => negb (String.eqb s "")
  | None => false
  end.

(** [s.split(sep)] for a one-character separator: the accumulator holds
    the piece being read. *)
Fixpoint split_from (sep : ascii) (acc s : string) : list string :=
  match s with
  | EmptyString => [acc]
  | String c s' =>
      if Ascii.eqb c sep then acc :: split_from sep "" s'
      else split_from sep (acc ++ String c "")%string s'
  end.

Definition split (sep : ascii) (s : string) : list string :=
  split_from sep "" s.

(** [parts.join(sep)]. *)
Fixpoint join (sep : string) (parts : list string) : string :=
  match parts with
  | [] => ""
  | [p] => p
  | p :: rest => (p ++ sep ++ join sep rest)%string
  end.

Definition lower_ascii (c : ascii) : ascii :=
  let n := nat_of_ascii c in
  if (65 <=? n)%nat && (n <=? 90)%nat then ascii_of_nat (n + 32) else c.

(** [s.toLowerCase()]. *)
Fixpoint toLowerCase (s : string) : string :=
  match s with
  | EmptyString => EmptyString
  | String c s' => String (lower_ascii c) (toLowerCase s')
  end.

(** [arr.includes(x)] on an array of strings. *)
Definition includes (arr : list string) (x : string) : bool :=
  existsb (String.eqb x) arr.

(** [s.endsWith("/")]. *)
Fixpoint endsWithSlash (s : string) : bool :=
  match s with
  | EmptyString => false
  | String c EmptyString => Ascii.eqb c "/"
  | String _ s' => endsWithSlash s'
  end.

(** [s.slice(0, -1)]. *)
Fixpoint dropLast (s : string) : string :=
  match s with
  | EmptyString => EmptyString
  | String _ EmptyString => EmptyString
  | String c s' => String c (dropLast s')
  end.

(** Whether the character [c] occurs in [s]. *)
Fixpoint hasChar (c : ascii) (s : string) : bool :=
  match s with
  | EmptyString => false
  | String d s' => Ascii.eqb d c || hasChar c s'
  end.

(** Whether [p] is a prefix of [s], and whether [p] occurs in [s]. *)
Fixpoint startsWith (p s : string) : bool :=
  match p, s with
  | EmptyString, _ => true
  | String a p', String b s' => Ascii.eqb a b && startsWith p' s'
  | String _ _, EmptyString => false
  end.

Fixpoint contains (p s : string) : bool :=
  startsWith p s ||
  match s with
  | EmptyString => false
  | String _ s' => contains p s'
  end.

(** A number made from a length or a count. *)
Definition num (n : nat) : Q := inject_Z (Z.of_nat n).

Definition Qlt_bool (x y : Q) : bool := negb (Qle_bool y x).

(** [arr.sort(cmp)]: the sort is stable, so for a consistent comparator
    its result is the one of this insertion sort, in which [x] goes behind
    exactly the elements [y] with [cmp x y > 0]. *)
Section Sort.
Context {A : Type} (cmp : A -> A -> Q).

Fixpoint insert (x : A) (l : list A) : list A :=
  match l with
  | [] => [x]
  | y :: l' =>
      if Qlt_bool 0 (cmp x y) then y :: insert x l' else x :: l
  end.

Definition sort (l : list A) : list A := fold_right insert [] l.
End Sort.

End JS.

(* ===================================================================== *)
(** ** [Map] and [Set] in insertion order                                 *)
(* ===================================================================== *)

Module JSMap.
Section Defs.
Context {V : Type}.

Definition t := list (string * V).

Definition empty : t := [].

Fixpoint get (m : t) (k : string) : option V :=
  match m with
  | [] => None
  | (k', v) :: m' => if String.eqb k' k then Some v else get m' k
  end.

Definition has (m : t) (k : string) : bool :=
  match get m k with Some _ => true | None => false end.

(** [m.set(k, v)]: a present key keeps its position. *)
Fixpoint set (m : t) (k : string) (v : V) : t :=
  match m with
  | [] => [(k, v)]
  | (k', v') :: m' =>
      if String.eqb k' k then (k, v) :: m' else (k', v') :: set m' k v
  end.

Definition keys (m : t) : list string := map fst m.
Definition entries (m : t) : list (string * V) := m.
Definition size (m : t) : nat := List.length m.
End Defs.
Arguments t : clear implicits.
End JSMap.

Module JSSet.
Definition t := list string.
Definition empty : t := [].
Definition has (s : t) (x : string) : bool := existsb (String.eqb x) s.
Definition add (s : t) (x : string) : t := if has s x then s else s ++ [x].
Definition size (s : t) : nat := List.length s.
End JSSet.

(* ===================================================================== *)
(** ** The platform: [URL] and [RegExp]                                   *)
(* ===================================================================== *)

(** What the code uses of the platform. [URL_new s] is [new URL(s)], with
    [None] when the constructor throws; [URL_resolve loc base] is
    [new URL(loc, base).toString()]; [URL_clearHash] is the assignment
    [parsed.hash = ""]. *)
Class Platform := {
  URL : Type;
  URL_new : string -> option URL;
  URL_resolve : string -> string -> option string;
  URL_pathname : URL -> string;
  URL_origin : URL -> string;
  URL_clearHash : URL -> URL;
  URL_toString : URL -> string;
  RegExp : Type;
  RegExp_new : string -> option RegExp;
  RegExp_test : RegExp -> string -> bool
}.

(** The facts about URL serialisation that some statements rely on; they
    are those of hierarchical URLs such as the http and https URLs that a
    crawl meets. *)
Class PlatformLaws (P : Platform) : Prop := {
  (** Clearing the fragment does not touch the path. *)
  pathname_clearHash : forall u, URL_pathname (URL_clearHash u) = URL_pathname u;
  (** A serialisation without fragment parses back to itself. *)
  parse_serialised : forall s u,
    URL_new s = Some u ->
    exists u', URL_new (URL_toString (URL_clearHash u)) = Some u' /\
               URL_toString (URL_clearHash u') = URL_toString (URL_clearHash u) /\
               URL_pathname u' = URL_pathname u;
  (** So does a serialisation that lost the final slash of a non-root path,
      when it parses at all. *)
  parse_sliced : forall s u r v,
    URL_new s = Some u ->
    URL_toString (URL_clearHash u) = (r ++ "/")%string ->
    URL_pathname u <> "/" ->
    URL_new r = Some v ->
    URL_toString (URL_clearHash v) = r;
  (** The path component holds neither a query nor a fragment. *)
  pathname_plain : forall s u,
    URL_new s = Some u ->
    JS.hasChar "?" (URL_pathname u) = false /\
    JS.hasChar "#" (URL_pathname u) = false
}.

(* ===================================================================== *)
(** ** types.ts                                                           *)
(* ===================================================================== *)

Record LinkCheckResult := {
  sourcePage : string;
  href : string;
  resolvedUrl : string;
  statusCode : option Z;
  isRedirect : bool;
  finalUrl : option string;
  redirectChain : list string;
  error : option string
}.

Inductive FixMethod := redirect_target | path_similarity | fuzzy_match.

Record LinkFix := {
  originalHref : string;
  suggestedHref : string;
  confidence : Q;
  method : FixMethod;
  sourcePages : list string
}.

(** The field [statusCode] of a redirect entry is [redirectStatus] here,
    the name being taken by [LinkCheckResult]. *)
Record RedirectEntry := {
  from : string;
  to : string;
  redirectStatus : Z
}.

(* ===================================================================== *)
(** ** link-fixer.ts                                                      *)
(* ===================================================================== *)

Module LinkFixer.

(** One row of the table: [diag] walks along the previous row, [left] is
    the cell just written. *)
Fixpoint fill_row (bc : ascii) (a : string) (prev : list nat) (left : nat)
  : list nat :=
  match a, prev with
  | String ac a', diag :: ((up :: _) as prev') =>
      let cell :=
        if Ascii.eqb bc ac then diag
        else Nat.min (Nat.min (diag + 1) (left + 1)) (up + 1) in
      cell :: fill_row bc a' prev' cell
  | _, _ => []
  end.

(** The rows [matrix[i]] for [i = 1 .. b.length], the last one returned. *)
Fixpoint fill_rows (a b : string) (i : nat) (prev : list nat) : list nat :=
  match b with
  | EmptyString => prev
  | String bc b' => fill_rows a b' (S i) (i :: fill_row bc a prev i)
  end.

Definition levenshtein (a b : string) : nat :=
  let row0 := seq 0 (S (String.length a)) in
  last (fill_rows a b 1 row0) 0%nat.

Section WithPlatform.
Context `{P : Platform}.

Definition segments_of (path : string) : list string :=
  map JS.toLowerCase
    (filter (fun s => (0 <? String.length s)%nat) (JS.split "/" path)).

Definition pathSegments (url : string) : list string :=
  match URL_new url with
  | Some parsed => segments_of (URL_pathname parsed)
  | None => segments_of url
  end.

Definition pathSimilarity (urlA urlB : string) : Q :=
  let segA := pathSegments urlA in
  let segB := pathSegments urlB in
  if (List.length segA =? 0)%nat && (List.length segB =? 0)%nat then 1
  else if (List.length segA =? 0)%nat || (List.length segB =? 0)%nat then 0
  else
    let maxLen := Nat.max (List.length segA) (List.length segB) in
    let matches := List.length (filter (JS.includes segB) segA) in
    let pathA := JS.join "/" segA in
    let pathB := JS.join "/" segB in
    let maxPathLen := Nat.max (String.length pathA) (String.length pathB) in
    let editDistance := levenshtein pathA pathB in
    let editSimilarity :=
      if (0 <? maxPathLen)%nat
      then 1 - JS.num editDistance / JS.num maxPathLen
      else 1 in
    let segmentSimilarity := JS.num matches / JS.num maxLen in
    segmentSimilarity * (6 # 10) + editSimilarity * (4 # 10).

Definition getPathname (url : string) : string :=
  match URL_new url with
  | Some parsed => URL_pathname parsed
  | None => url
  end.

Record FixOptions := {
  minConfidence : option Q;
  maxSuggestions : option Q
}.

Definition noOptions : FixOptions :=
  {| minConfidence := None; maxSuggestions := None |}.

(** The first loop: broken hrefs and the source pages pushed for them. *)
Definition brokenByUrl (brokenLinks : list LinkCheckResult)
  : JSMap.t (list string) :=
  fold_left
    (fun m link =>
       let existing :=
         match JSMap.get m (href link) with Some e => e | None => [] end in
       JSMap.set m (href link) (existing ++ [sourcePage link]))
    brokenLinks JSMap.empty.

(** The second loop: the redirect target of each redirected href. *)
Definition redirectTargets (redirectLinks : list LinkCheckResult)
  : JSMap.t string :=
  fold_left
    (fun m link =>
       match finalUrl link with
       | Some target =>
           if JS.truthy (Some target) then JSMap.set m (href link) target
           else m
       | None => m
       end)
    redirectLinks JSMap.empty.

(** Strategy 2, the scan of the known-good URLs. *)
Definition bestMatch (brokenUrl : string) (knownGoodUrls : list string)
  : option (string * Q) :=
  fold_left
    (fun best goodUrl =>
       let score := pathSimilarity brokenUrl goodUrl in
       let bestScore := match best with Some (_, s) => s | None => 0 end in
       if JS.Qlt_bool bestScore score then Some (goodUrl, score) else best)
    knownGoodUrls None.

Definition fuzzyFix (minConf : Q) (knownGoodUrls : list string)
  (brokenUrl : string) (pages : list string) : option LinkFix :=
  match bestMatch brokenUrl knownGoodUrls with
  | Some (url, score) =>
      if Qle_bool minConf score then
        let brokenSegs := pathSegments brokenUrl in
        let matchSegs := pathSegments url in
        let segOverlap :=
          List.length (filter (JS.includes matchSegs) brokenSegs) in
        Some {| originalHref := brokenUrl;
                suggestedHref := url;
                confidence := score;
                method := if (0 <? segOverlap)%nat
                          then path_similarity else fuzzy_match;
                sourcePages := pages |}
      else None
  | None => None
  end.

(** The body of the main loop for one entry of [brokenByUrl]. *)
Definition fixFor (minConf : Q) (knownGoodUrls : list string)
  (targets : JSMap.t string) (entry : string * list string)
  : option LinkFix :=
  let '(brokenUrl, pages) := entry in
  let redirectTarget := JSMap.get targets brokenUrl in
  let strategy2 := fuzzyFix minConf knownGoodUrls brokenUrl pages in
  match redirectTarget with
  | Some target =>
      if JS.truthy redirectTarget then
        if Qle_bool minConf (95 # 100) then
          Some {| originalHref := brokenUrl;
                  suggestedHref := target;
                  confidence := 95 # 100;
                  method := redirect_target;
                  sourcePages := pages |}
        else strategy2
      else strategy2
  | None => strategy2
  end.

(** The main loop: fixes are pushed in the iteration order of the map. *)
Definition collectFixes (minConf : Q) (knownGoodUrls : list string)
  (targets : JSMap.t string) (entries : list (string * list string))
  : list LinkFix :=
  fold_left
    (fun fixes entry =>
       match fixFor minConf knownGoodUrls targets entry with
       | Some f => fixes ++ [f]
       | None => fixes
       end)
    entries [].

Definition byConfidenceDesc (a b : LinkFix) : Q :=
  confidence b - confidence a.

(** [options.minConfidence ?? 0.4]. *)
Definition thresholdOf (options : FixOptions) : Q :=
  match minConfidence options with Some c => c | None => 4 # 10 end.

Definition computeFixes (brokenLinks : list LinkCheckResult)
  (knownGoodUrls : list string) (redirectLinks : list LinkCheckResult)
  (options : FixOptions) : list LinkFix :=
  let minConf := thresholdOf options in
  let fixes :=
    collectFixes minConf knownGoodUrls (redirectTargets redirectLinks)
      (JSMap.entries (brokenByUrl brokenLinks)) in
  JS.sort byConfidenceDesc fixes.

Definition fixesToRedirects (fixes : list LinkFix) (minConf : Q)
  : list RedirectEntry :=
  map (fun f => {| from := getPathname (originalHref f);
                   to := getPathname (suggestedHref f);
                   redirectStatus := 301 |})
      (filter (fun f => Qle_bool minConf (confidence f)) fixes).

End WithPlatform.
(** *** escapeRegex *)

Definition backslash : ascii := ascii_of_nat 92.

(** The characters of the class [[.*+?^${}()|[\]\\]]. *)
Definition regexSyntax : list ascii :=
  list_ascii_of_string ".*+?^${}()|[]" ++ [backslash].

Definition isRegexSyntax (c : ascii) : bool :=
  existsb (Ascii.eqb c) regexSyntax.

(** [str.replace(/[.*+?^${}()|[\]\\]/g, "\\$&")]: a backslash before
    every character of the class. *)
Fixpoint escapeRegex (str : string) : string :=
  match str with
  | EmptyString => EmptyString
  | String c rest =>
      if isRegexSyntax c
      then String backslash (String c (escapeRegex rest))
      else String c (escapeRegex rest)
  end.

(** The string that a pattern made of plain characters and of escaped
    syntax characters matches; [None] for any other pattern. *)
Fixpoint literal_of (pattern : string) : option string :=
  match pattern with
  | EmptyString => Some EmptyString
  | String c rest =>
      if Ascii.eqb c backslash then
        match rest with
        | String d rest' =>
            if isRegexSyntax d
            then option_map (String d) (literal_of rest')
            else None
        | EmptyString => None
        end
      else if isRegexSyntax c then None
      else option_map (String c) (literal_of rest)
  end.

(** *** applyFixesToContent *)

(** [s.slice(p.length)] when [s] starts with [p]. *)
Fixpoint dropPrefix (p s : string) : option string :=
  match p, s with
  | EmptyString, _ => Some s
  | String a p', String b s' =>
      if Ascii.eqb a b then dropPrefix p' s' else None
  | String _ _, EmptyString => None
  end.

(** The text before and the text after the first occurrence of [p] in
    [s]: what [s.indexOf(p)] locates. *)
Fixpoint findFirst (p s : string) : option (string * string) :=
  match dropPrefix p s with
  | Some rest => Some (EmptyString, rest)
  | None =>
      match s with
      | EmptyString => None
      | String c s' =>
          match findFirst p s' with
          | Some (before, rest) => Some (String c before, rest)
          | None => None
          end
      end
  end.

(** [GetSubstitution] for a search string, which has no capture groups:
    [$$], [$&], [$`] and [$'] are replaced, any other [$] stands for
    itself. *)
Fixpoint getSubstitution (matched before rest template : string) : string :=
  match template with
  | EmptyString => EmptyString
  | String c template' =>
      if Ascii.eqb c "$" then
        match template' with
        | String d template'' =>
            if Ascii.eqb d "$" then
              String "$" (getSubstitution matched before rest template'')
            else if Ascii.eqb d "&" then
              (matched ++ getSubstitution matched before rest template'')%string
            else if Ascii.eqb d "`" then
              (before ++ getSubstitution matched before rest template'')%string
            else if Ascii.eqb d "'" then
              (rest ++ getSubstitution matched before rest template'')%string
            else String "$" (getSubstitution matched before rest template')
        | EmptyString => String "$" EmptyString
        end
      else String c (getSubstitution matched before rest template')
  end.

(** [s.replace(search, replacement)] for two strings. *)
Definition replaceFirst (s search replacement : string) : string :=
  match findFirst search s with
  | Some (before, rest) =>
      (before ++ getSubstitution search before rest replacement ++ rest)%string
  | None => s
  end.

(** [s.replace(re, fn)] for a global [re] that matches the non-empty
    literal [lit]: the matches are taken from left to right and do not
    overlap; [skip] counts the characters of a match still to pass. *)
Fixpoint replaceAll_from (lit : string) (fn : string -> string) (skip : nat)
  (s : string) : string :=
  match s with
  | EmptyString => EmptyString
  | String c s' =>
      match skip with
      | S skip' => replaceAll_from lit fn skip' s'
      | O =>
          if JS.startsWith lit s
          then (fn lit ++ replaceAll_from lit fn (String.length lit - 1) s')%string
          else String c (replaceAll_from lit fn 0 s')
      end
  end.

(** [s.replace(new RegExp(pattern, "g"), fn)] for a pattern made of plain
    characters and escaped syntax characters. *)
Definition replaceRegex (pattern : string) (fn : string -> string) (s : string)
  : string :=
  match literal_of pattern with
  | Some lit => replaceAll_from lit fn 0 s
  | None => s
  end.

Definition doubleQuote : string := String (ascii_of_nat 34) EmptyString.
Definition singleQuote : string := String (ascii_of_nat 39) EmptyString.

Section Apply.
Context `{P : Platform}.

(** The callback of the replacement. *)
Definition rewriteMatch (f : LinkFix) (originalPath suggestedPath m : string)
  : string :=
  replaceFirst m
    (if JS.contains (originalHref f) m then originalHref f else originalPath)
    (if JS.contains (originalHref f) m then suggestedHref f else suggestedPath).

Definition hrefPatterns (f : LinkFix) (originalPath : string) : list string :=
  [ ("href=" ++ doubleQuote ++ escapeRegex originalPath ++ doubleQuote)%string;
    ("href=" ++ singleQuote ++ escapeRegex originalPath ++ singleQuote)%string;
    ("href=" ++ doubleQuote ++ escapeRegex (originalHref f) ++ doubleQuote)%string;
    ("href=" ++ singleQuote ++ escapeRegex (originalHref f) ++ singleQuote)%string ].

(** One turn of [for (const pattern of patterns)]. *)
Definition applyPattern (f : LinkFix) (originalPath suggestedPath : string)
  (acc : string * nat) (pattern : string) : string * nat :=
  let '(modified, appliedCount) := acc in
  let before := modified in
  let modified :=
    replaceRegex pattern (rewriteMatch f originalPath suggestedPath) modified in
  if String.eqb modified before then (modified, appliedCount)
  else (modified, S appliedCount).

(** One turn of [for (const fix of fixes)]. *)
Definition applyFix (minConfidence : Q) (acc : string * nat) (f : LinkFix)
  : string * nat :=
  if JS.Qlt_bool (confidence f) minConfidence then acc
  else
    let originalPath := getPathname (originalHref f) in
    let suggestedPath := getPathname (suggestedHref f) in
    fold_left (applyPattern f originalPath suggestedPath)
      (hrefPatterns f originalPath) acc.

Definition applyFixesToContent (content : string) (fixes : list LinkFix)
  (minConfidence : option Q) : string * nat :=
  let minConfidence :=
    match minConfidence with Some c => c | None => 7 # 10 end in
  fold_left (applyFix minConfidence) fixes (content, 0%nat).

End Apply.

End LinkFixer.

(* ===================================================================== *)
(** ** link-scanner.ts                                                    *)
(* ===================================================================== *)

Module LinkScanner.

(** How [await fetch(currentUrl, ...)] ends: a response, of which the
    code reads the status and the [location] header, or a failure (a
    network error, or the abort fired by the timeout), whose message the
    code reports. *)
Inductive FetchOutcome :=
| Response (status : Z) (location : option string)
| Failure (message : string).

(** The network, asked for the [attempt]-th request of a check. *)
Definition Network := nat -> string -> Z -> FetchOutcome.

(** What [checkUrl] returns: the fields [statusCode], [finalUrl],
    [redirectChain] and [error]. *)
Record CheckResult := {
  check_statusCode : option Z;
  check_finalUrl : option string;
  check_redirectChain : list string;
  check_error : option string
}.

(** How the body of the outer [try] ends: a [return], or a [throw] that
    the outer [catch] sees together with the chain pushed so far. *)
Inductive Completion :=
| Return (r : CheckResult)
| Throw (message : string) (redirectChain : list string).

(** What a page shows after [page.goto]: its URL and the [href]
    attribute of each anchor. *)
Record Page := {
  page_url : string;
  page_anchors : list string
}.

(** [page.goto(url, {timeout})] in a fresh page; [None] when it throws. *)
Definition Browser := string -> Z -> option Page.

Record CrawlState := {
  visited : JSSet.t;
  toVisit : list string;
  allLinks : JSMap.t JSSet.t
}.

(** What one turn of the crawl loop did with the URL it shifted. *)
Inductive CrawlEvent :=
| AlreadyVisited (url : string)
| Excluded (url : string)
| Crawled (url : string)
| CrawlFailed (url : string).

Section WithPlatform.
Context `{P : Platform}.

Definition normalizeUrl (url : string) : string :=
  match URL_new url with
  | Some parsed =>
      let parsed := URL_clearHash parsed in
      let normalized := URL_toString parsed in
      if JS.endsWithSlash normalized
         && negb (String.eqb (URL_pathname parsed) "/")
      then JS.dropLast normalized
      else normalized
  | None => url
  end.

Definition isInternalUrl (url baseOrigin : string) : bool :=
  match URL_new url with
  | Some parsed => String.eqb (URL_origin parsed) baseOrigin
  | None => false
  end.

(** The [for] loop of [checkUrl]: [remaining] turns are left, the next
    one is turn [i]. *)
Fixpoint checkUrl_loop (fetch : Network) (timeout : Z)
  (followRedirects : bool) (remaining i : nat) (currentUrl : string)
  (redirectChain : list string) : Completion :=
  match remaining with
  | O =>
      Return {| check_statusCode := None;
                check_finalUrl := Some currentUrl;
                check_redirectChain := redirectChain;
                check_error := Some "Too many redirects" |}
  | S remaining' =>
      match fetch i currentUrl timeout with
      | Failure message => Throw message redirectChain
      | Response status location =>
          let stop :=
            Return {| check_statusCode := Some status;
                      check_finalUrl :=
                        if (0 <? List.length redirectChain)%nat
                        then Some currentUrl else None;
                      check_redirectChain := redirectChain;
                      check_error := None |} in
          if (300 <=? status)%Z && (status <? 400)%Z && followRedirects
          then
            match location with
            | Some loc =>
                if JS.truthy location then
                  let redirectChain := redirectChain ++ [currentUrl] in
                  match URL_resolve loc currentUrl with
                  | Some next =>
                      checkUrl_loop fetch timeout followRedirects
                        remaining' (S i) next redirectChain
                  | None => Throw "Invalid URL" redirectChain
                  end
                else stop
            | None => stop
            end
          else stop
      end
  end.

Definition checkUrl (fetch : Network) (url : string) (timeout : Z)
  (followRedirects : bool) : CheckResult :=
  let maxRedirects := if followRedirects then 10%nat else 0%nat in
  match checkUrl_loop fetch timeout followRedirects
          (S maxRedirects) 0 url [] with
  | Return r => r
  | Throw message redirectChain =>
      {| check_statusCode := None;
         check_finalUrl := None;
         check_redirectChain := redirectChain;
         check_error := Some message |}
  end.

Definition extractLinks (page : Page) (baseOrigin : string) : list string :=
  let hrefs :=
    flat_map
      (fun href =>
         if JS.truthy (Some href) then
           match URL_resolve href (page_url page) with
           | Some resolved => [resolved]
           | None => []
           end
         else [])
      (page_anchors page) in
  map normalizeUrl (filter (fun h => isInternalUrl h baseOrigin) hrefs).

(** The inner [for (const link of links)] of the crawl loop. *)
Definition recordLink (url : string) (visited : JSSet.t)
  (acc : JSMap.t JSSet.t * list string) (link : string)
  : JSMap.t JSSet.t * list string :=
  let '(allLinks, toVisit) := acc in
  let allLinks :=
    if JSMap.has allLinks link then allLinks
    else JSMap.set allLinks link JSSet.empty in
  let sources :=
    match JSMap.get allLinks link with Some s => s | None => JSSet.empty end in
  let allLinks := JSMap.set allLinks link (JSSet.add sources url) in
  let toVisit :=
    if negb (JSSet.has visited link) && negb (JS.includes toVisit link)
    then toVisit ++ [link] else toVisit in
  (allLinks, toVisit).

Section Crawl.
Variable browser : Browser.
Variable baseOrigin : string.
Variable excludeRegexes : list RegExp.
Variable timeout : Z.
Variable maxPages : Z.

(** One turn of [while (toVisit.length > 0 && visited.size < maxPages)],
    [None] when the loop condition fails. *)
Definition crawl_step (st : CrawlState) : option (CrawlEvent * CrawlState) :=
  if (0 <? List.length (toVisit st))%nat
     && (Z.of_nat (JSSet.size (visited st)) <? maxPages)%Z then
    match toVisit st with
    | [] => None
    | url :: rest =>
        if JSSet.has (visited st) url then
          Some (AlreadyVisited url,
                {| visited := visited st; toVisit := rest;
                   allLinks := allLinks st |})
        else if existsb (fun r => RegExp_test r url) excludeRegexes then
          Some (Excluded url,
                {| visited := visited st; toVisit := rest;
                   allLinks := allLinks st |})
        else
          let visited' := JSSet.add (visited st) url in
          match browser url timeout with
          | Some page =>
              let links := extractLinks page baseOrigin in
              let '(allLinks', toVisit') :=
                fold_left (recordLink url visited') links
                  (allLinks st, rest) in
              Some (Crawled url,
                    {| visited := visited'; toVisit := toVisit';
                       allLinks := allLinks' |})
          | None =>
              Some (CrawlFailed url,
                    {| visited := visited'; toVisit := rest;
                       allLinks := allLinks st |})
          end
    end
  else None.

(** The first [n] turns of the loop: each event with the state it
    leaves. *)
Fixpoint crawl_trace (n : nat) (st : CrawlState)
  : list (CrawlEvent * CrawlState) :=
  match n with
  | O => []
  | S n' =>
      match crawl_step st with
      | Some (ev, st') => (ev, st') :: crawl_trace n' st'
      | None => []
      end
  end.
End Crawl.

(** The unit of work of phase 2: the result recorded for one entry of
    [allLinks] (a set of source pages is never empty there). *)
Definition linkResult (fetch : Network) (timeout : Z) (followRedirects : bool)
  (entry : string * JSSet.t) : LinkCheckResult :=
  let '(href, sourcePages) := entry in
  let check := checkUrl fetch href timeout followRedirects in
  {| sourcePage := match sourcePages with p :: _ => p | [] => "" end;
     href := href;
     resolvedUrl := href;
     statusCode := check_statusCode check;
     isRedirect := (0 <? List.length (check_redirectChain check))%nat;
     finalUrl := check_finalUrl check;
     redirectChain := check_redirectChain check;
     error := check_error check |}.

(** The state in which [scanSite] enters the loop. *)
Definition crawl_init (rootUrl : string) : CrawlState :=
  {| visited := JSSet.empty;
     toVisit := [normalizeUrl rootUrl];
     allLinks := JSMap.empty |}.

End WithPlatform.

(** *** asyncPool

    The promise [fn(item)] of a unit of work settles one way or the
    other; [executing] holds the wrapped promises that are pending or
    were rejected (a fulfilled one deletes itself). At each [await] the
    environment decides which pending promises settle, and in which
    order, before the pool resumes. *)
Inductive Settled (R : Type) :=
| Fulfilled (r : R)
| Rejected (e : string).
Arguments Fulfilled {R} r.
Arguments Rejected {R} e.

Inductive Slot (R : Type) :=
| Pending (outcome : Settled R)
| Failed (e : string).
Arguments Pending {R} outcome.
Arguments Failed {R} e.

(** For one [await]: the pending promise that settles first, and those
    that settle after it before the pool resumes (each a position among
    the promises pending at that moment, counted modulo their number). *)
Definition Schedule := list (nat * list nat).

Section AsyncPool.
Context {T R : Type}.

Record PoolState := {
  results : list R;
  executing : list (Slot R)
}.

Definition is_pending (s : Slot R) : bool :=
  match s with Pending _ => true | Failed _ => false end.

Definition pending_count (ex : list (Slot R)) : nat :=
  List.length (filter is_pending ex).

(** The error of the first promise of the set that is already rejected. *)
Fixpoint first_failed (ex : list (Slot R)) : option string :=
  match ex with
  | [] => None
  | Failed e :: _ => Some e
  | Pending _ :: ex' => first_failed ex'
  end.

(** The [k]-th pending promise settles: a result is pushed and the
    promise leaves the set, or the promise stays, rejected. *)
Fixpoint settle_at (k : nat) (st_results : list R) (ex : list (Slot R))
  : list R * list (Slot R) * option string :=
  match ex with
  | [] => (st_results, [], None)
  | Failed e :: ex' =>
      let '(rs, ex'', err) := settle_at k st_results ex' in
      (rs, Failed e :: ex'', err)
  | Pending o :: ex' =>
      match k with
      | O =>
          match o with
          | Fulfilled r => (st_results ++ [r], ex', None)
          | Rejected e => (st_results, Failed e :: ex', Some e)
          end
      | S k' =>
          let '(rs, ex'', err) := settle_at k' st_results ex' in
          (rs, Pending o :: ex'', err)
      end
  end.

Definition settle (k : nat) (st : PoolState) : PoolState * option string :=
  let n := pending_count (executing st) in
  let '(rs, ex, err) := settle_at (k mod n) (results st) (executing st) in
  ({| results := rs; executing := ex |}, err).

(** Promises that settle while nobody looks at them yet. *)
Definition background (picks : list nat) (st : PoolState) : PoolState :=
  fold_left (fun st k => fst (settle k st)) picks st.

Definition next_await (sched : Schedule) : (nat * list nat) * Schedule :=
  match sched with
  | [] => ((0%nat, []), [])
  | a :: sched' => (a, sched')
  end.

(** [await Promise.all(executing)]: [n] bounds the promises still
    pending; they settle in the order [picks] gives, then front first. *)
Fixpoint await_all (n : nat) (picks : list nat) (st : PoolState)
  : Settled (list R) :=
  match first_failed (executing st) with
  | Some e => Rejected e
  | None =>
      match n with
      | O => Fulfilled (results st)
      | S n' =>
          if (pending_count (executing st) =? 0)%nat
          then Fulfilled (results st)
          else
            let '(k, picks') :=
              match picks with
              | [] => (0%nat, [])
              | k :: picks' => (k, picks')
              end in
            await_all n' picks' (fst (settle k st))
      end
  end.

Variable concurrency : Z.
Variable fn : T -> Settled R.

(** The [for (const item of items)] loop and what follows it. *)
Fixpoint pool_loop (items : list T) (sched : Schedule) (st : PoolState)
  : Settled (list R) :=
  match items with
  | [] =>
      let '((k, more), _) := next_await sched in
      await_all (List.length (executing st)) (k :: more) st
  | item :: items' =>
      let st :=
        {| results := results st;
           executing := executing st ++ [Pending (fn item)] |} in
      if (concurrency <=? Z.of_nat (List.length (executing st)))%Z then
        (* await Promise.race(executing) *)
        match first_failed (executing st) with
        | Some e => Rejected e
        | None =>
            let '((k, more), sched') := next_await sched in
            match settle k st with
            | (_, Some e) => Rejected e
            | (st', None) => pool_loop items' sched' (background more st')
            end
        end
      else pool_loop items' sched st
  end.

Definition asyncPool (sched : Schedule) (items : list T)
  : Settled (list R) :=
  pool_loop items sched {| results := []; executing := [] |}.

(** The loop of [asyncPool] together with the size of [executing] that
    each test [executing.size >= concurrency] reads: the number of units
    in flight when a unit has just been started. *)
Fixpoint pool_observed (items : list T) (sched : Schedule) (st : PoolState)
  : list nat * Settled (list R) :=
  match items with
  | [] =>
      let '((k, more), _) := next_await sched in
      ([], await_all (List.length (executing st)) (k :: more) st)
  | item :: items' =>
      let st :=
        {| results := results st;
           executing := executing st ++ [Pending (fn item)] |} in
      let size := List.length (executing st) in
      let '(sizes, outcome) :=
        if (concurrency <=? Z.of_nat size)%Z then
          match first_failed (executing st) with
          | Some e => ([], Rejected e)
          | None =>
              let '((k, more), sched') := next_await sched in
              match settle k st with
              | (_, Some e) => ([], Rejected e)
              | (st', None) => pool_observed items' sched' (background more st')
              end
          end
        else pool_observed items' sched st in
      (size :: sizes, outcome)
  end.
End AsyncPool.

End LinkScanner.

(** *** scanSite and checkUrls *)
Module ScanSite.
Import LinkScanner.

(** [ScanOptions]: every field is optional. *)
Record ScanOptions := {
  maxPages : option Z;
  timeout : option Z;
  followRedirects : option bool;
  concurrency : option Z;
  excludePatterns : option (list string)
}.

Record RequiredScanOptions := {
  req_maxPages : Z;
  req_timeout : Z;
  req_followRedirects : bool;
  req_concurrency : Z;
  req_excludePatterns : list string
}.

Definition DEFAULT_OPTIONS : RequiredScanOptions :=
  {| req_maxPages := 100;
     req_timeout := 15000;
     req_followRedirects := true;
     req_concurrency := 5;
     req_excludePatterns := [] |}.

Definition orDefault {A : Type} (given : option A) (default : A) : A :=
  match given with Some v => v | None => default end.

(** [{ ...DEFAULT_OPTIONS, ...options }], for options whose fields are
    absent or hold a value. *)
Definition withDefaults (options : ScanOptions) : RequiredScanOptions :=
  {| req_maxPages := orDefault (maxPages options) (req_maxPages DEFAULT_OPTIONS);
     req_timeout := orDefault (timeout options) (req_timeout DEFAULT_OPTIONS);
     req_followRedirects :=
       orDefault (followRedirects options) (req_followRedirects DEFAULT_OPTIONS);
     req_concurrency :=
       orDefault (concurrency options) (req_concurrency DEFAULT_OPTIONS);
     req_excludePatterns :=
       orDefault (excludePatterns options) (req_excludePatterns DEFAULT_OPTIONS) |}.

Definition noOptions : ScanOptions :=
  {| maxPages := None; timeout := None; followRedirects := None;
     concurrency := None; excludePatterns := None |}.

(** [ScanResult], without its [timestamp] (the clock is not modelled). *)
Record ScanResult := {
  baseUrl : string;
  totalLinks : nat;
  pagesCrawled : nat;
  brokenLinks : list LinkCheckResult;
  redirectLinks : list LinkCheckResult;
  serverErrors : list LinkCheckResult;
  connectionErrors : list LinkCheckResult
}.

(** How a call of [scanSite] ends: with a result, or with what
    [new URL(rootUrl)], [new RegExp(p)] or [asyncPool] throws. (A browser
    that fails to launch is not modelled.) *)
Inductive ScanOutcome :=
| Scanned (r : ScanResult)
| InvalidRootUrl
| InvalidPattern (p : string)
| CheckRejected (e : string).

Definition isBroken (r : LinkCheckResult) : bool :=
  match statusCode r with Some s => (s =? 404)%Z | None => false end.

Definition isServerError (r : LinkCheckResult) : bool :=
  match statusCode r with Some s => (500 <=? s)%Z | None => false end.

Definition isConnectionError (r : LinkCheckResult) : bool :=
  match statusCode r, error r with
  | None, Some _ => true
  | _, _ => false
  end.

(** The four filters and the counts of the returned object. *)
Definition summary (rootUrl : string) (visited : JSSet.t)
  (results : list LinkCheckResult) : ScanResult :=
  {| baseUrl := rootUrl;
     totalLinks := List.length results;
     pagesCrawled := JSSet.size visited;
     brokenLinks := filter isBroken results;
     redirectLinks := filter isRedirect results;
     serverErrors := filter isServerError results;
     connectionErrors := filter isConnectionError results |}.

Section WithPlatform.
Context `{P : Platform}.

(** [excludePatterns.map((p) => new RegExp(p))]: the first pattern that
    does not compile throws. *)
Fixpoint compilePatterns (patterns : list string) : list RegExp + string :=
  match patterns with
  | [] => inl []
  | p :: patterns' =>
      match RegExp_new p with
      | None => inr p
      | Some r =>
          match compilePatterns patterns' with
          | inl rs => inl (r :: rs)
          | inr bad => inr bad
          end
      end
  end.

(** The [while] loop of phase 1, run for at most [fuel] turns: the state
    in which it ends. *)
Fixpoint crawl (browser : Browser) (baseOrigin : string)
  (excludeRegexes : list RegExp) (timeout maxPages : Z) (fuel : nat)
  (st : CrawlState) : option CrawlState :=
  match fuel with
  | O => None
  | S fuel' =>
      match crawl_step browser baseOrigin excludeRegexes timeout maxPages st with
      | Some (_, st') =>
          crawl browser baseOrigin excludeRegexes timeout maxPages fuel' st'
      | None => Some st
      end
  end.

(** Phase 2: the unit of work pushes its result when its check is done,
    so the results come in the order in which the units settle. *)
Definition checkLinks (fetch : Network) (sched : Schedule)
  (opts : RequiredScanOptions) (links : JSMap.t JSSet.t)
  : Settled (list LinkCheckResult) :=
  asyncPool (req_concurrency opts)
    (fun entry =>
       Fulfilled (linkResult fetch (req_timeout opts)
                    (req_followRedirects opts) entry))
    sched (JSMap.entries links).

Definition scanSite (browser : Browser) (fetch : Network) (sched : Schedule)
  (fuel : nat) (rootUrl : string) (options : ScanOptions)
  : option ScanOutcome :=
  let opts := withDefaults options in
  match URL_new rootUrl with
  | None => Some InvalidRootUrl
  | Some parsed =>
      let baseOrigin := URL_origin parsed in
      match compilePatterns (req_excludePatterns opts) with
      | inr p => Some (InvalidPattern p)
      | inl excludeRegexes =>
          match crawl browser baseOrigin excludeRegexes (req_timeout opts)
                  (req_maxPages opts) fuel (crawl_init rootUrl) with
          | None => None
          | Some final =>
              match checkLinks fetch sched opts (allLinks final) with
              | Rejected e => Some (CheckRejected e)
              | Fulfilled results =>
                  Some (Scanned (summary rootUrl (visited final) results))
              end
          end
      end
  end.

(** The unit of work of [checkUrls]. *)
Definition urlResult (fetch : Network) (timeout : Z) (followRedirects : bool)
  (url : string) : LinkCheckResult :=
  let check := checkUrl fetch url timeout followRedirects in
  {| sourcePage := "";
     href := url;
     resolvedUrl := url;
     statusCode := check_statusCode check;
     isRedirect := (0 <? List.length (check_redirectChain check))%nat;
     finalUrl := check_finalUrl check;
     redirectChain := check_redirectChain check;
     error := check_error check |}.

Definition checkUrls (fetch : Network) (sched : Schedule)
  (urls : list string) (options : ScanOptions)
  : Settled (list LinkCheckResult) :=
  let timeout := orDefault (timeout options) (req_timeout DEFAULT_OPTIONS) in
  let concurrency :=
    orDefault (concurrency options) (req_concurrency DEFAULT_OPTIONS) in
  let followRedirects :=
    orDefault (followRedirects options) (req_followRedirects DEFAULT_OPTIONS) in
  asyncPool concurrency
    (fun url => Fulfilled (urlResult fetch timeout followRedirects url))
    sched urls.

End WithPlatform.
End ScanSite.

(* ===================================================================== *)
(** ** A small platform instance                                          *)
(* ===================================================================== *)

(** URLs of the shape [scheme://host/path?query#fragment]. The platform
    parser also lower-cases scheme and host, removes dot segments and
    default ports, and percent-encodes; on inputs that need none of that
    (the ones used below) it agrees with this one. Patterns are literal
    strings, matched as substrings. *)
Module Simple.

Record url := {
  scheme : string;
  host : string;
  path : string;
  query : option string;
  fragment : option string
}.

(** The longest prefix without a [stop] character, and the rest. *)
Fixpoint break (stop : ascii -> bool) (s : string) : string * string :=
  match s with
  | EmptyString => (EmptyString, EmptyString)
  | String c s' =>
      if stop c then (EmptyString, s)
      else let '(a, b) := break stop s' in (String c a, b)
  end.

Definition is_alpha (c : ascii) : bool :=
  let n := nat_of_ascii c in
  ((65 <=? n) && (n <=? 90) || (97 <=? n) && (n <=? 122))%nat.

Definition is_scheme_char (c : ascii) : bool :=
  let n := nat_of_ascii c in
  (is_alpha c || (48 <=? n) && (n <=? 57)
   || (n =? 43) || (n =? 45) || (n =? 46))%nat.

Fixpoint all_chars (p : ascii -> bool) (s : string) : bool :=
  match s with
  | EmptyString => true
  | String c s' => p c && all_chars p s'
  end.

Definition valid_scheme (s : string) : bool :=
  match s with
  | EmptyString => false
  | String c _ => is_alpha c && all_chars is_scheme_char s
  end.

Definition is_colon (c : ascii) : bool := Ascii.eqb c ":".
Definition ends_host (c : ascii) : bool :=
  Ascii.eqb c "/" || Ascii.eqb c "?" || Ascii.eqb c "#".
Definition ends_path (c : ascii) : bool :=
  Ascii.eqb c "?" || Ascii.eqb c "#".
Definition is_hash (c : ascii) : bool := Ascii.eqb c "#".

(** The query and the fragment of what follows the path. *)
Definition tail_parts (r : string) : option string * option string :=
  match r with
  | String "?" r' =>
      let '(q, r'') := break is_hash r' in
      (Some q, match r'' with String _ f => Some f | EmptyString => None end)
  | String _ f => (None, Some f)
  | EmptyString => (None, None)
  end.

Definition parse (s : string) : option url :=
  let '(sch, r0) := break is_colon s in
  match r0 with
  | String ":" (String "/" (String "/" r1)) =>
      if valid_scheme sch then
        let '(h, r2) := break ends_host r1 in
        if String.eqb h "" then None
        else
          let '(p, r3) := break ends_path r2 in
          let '(q, f) := tail_parts r3 in
          Some {| scheme := sch; host := h;
                  path := if String.eqb p "" then "/" else p;
                  query := q; fragment := f |}
      else None
  | _ => None
  end.

Definition opt_part (mark : string) (x : option string) : string :=
  match x with
  | Some v => (mark ++ v)%string
  | None => ""
  end.

Definition origin (u : url) : string := (scheme u ++ "://" ++ host u)%string.

Definition toString (u : url) : string :=
  (origin u ++ path u ++ opt_part "?" (query u) ++ opt_part "#" (fragment u))%string.

Definition clearHash (u : url) : url :=
  {| scheme := scheme u; host := host u; path := path u;
     query := query u; fragment := None |}.

(** The directory of a path: up to and including its last slash. *)
Fixpoint dirname (p : string) : string :=
  match p with
  | EmptyString => EmptyString
  | String c p' =>
      if JS.hasChar "/" p' then String c (dirname p')
      else if Ascii.eqb c "/" then "/" else ""
  end.

(** [new URL(loc, base).toString()]: an absolute [loc] stands for itself,
    any other is read against [base]. *)
Definition resolve (loc base : string) : option string :=
  match parse loc with
  | Some u => Some (toString u)
  | None =>
      match parse base with
      | None => None
      | Some b =>
          let joined :=
            match loc with
            | String "/" (String "/" _) => (scheme b ++ ":" ++ loc)%string
            | String "/" _ => (origin b ++ loc)%string
            | String "?" _ => (origin b ++ path b ++ loc)%string
            | String "#" _ => (toString (clearHash b) ++ loc)%string
            | EmptyString => toString (clearHash b)
            | _ => (origin b ++ dirname (path b) ++ loc)%string
            end in
          option_map toString (parse joined)
      end
  end.

(** A string without [stop] characters; a string that is empty or begins
    with one. *)
Definition clean (stop : ascii -> bool) (s : string) : bool :=
  all_chars (fun c => negb (stop c)) s.

Definition stops (stop : ascii -> bool) (s : string) : Prop :=
  match s with
  | EmptyString => True
  | String c _ => stop c = true
  end.

(** What [parse] guarantees of its result. *)
Record wf (u : url) : Prop := {
  wf_scheme : valid_scheme (scheme u) = true;
  wf_host : host u <> ""%string /\ clean ends_host (host u) = true;
  wf_path : clean ends_path (path u) = true /\
            exists p, path u = String "/" p;
  wf_query : forall q, query u = Some q -> JS.hasChar "#" q = false
}.

End Simple.

#[export] Instance simple_platform : Platform := {|
  URL := Simple.url;
  URL_new := Simple.parse;
  URL_resolve := Simple.resolve;
  URL_pathname := Simple.path;
  URL_origin := Simple.origin;
  URL_clearHash := Simple.clearHash;
  URL_toString := Simple.toString;
  RegExp := string;
  RegExp_new := fun p => Some p;
  RegExp_test := fun p s => JS.contains p s
|}.

(* ===================================================================== *)
(** ** The vocabulary of the statements                                   *)
(* ===================================================================== *)

Section Vocabulary.
Context `{P : Platform}.


(** The projection of an href that [fixesToRedirects] stores: the path
    component of an href that parses, free of query and fragment, and
    the href itself when it does not parse. *)
Definition path_projection (url p : string) : Prop :=
  match URL_new url with
  | Some u => p = URL_pathname u /\
              JS.hasChar "?" p = false /\ JS.hasChar "#" p = false
  | None => p = url
  end.

(** The fixes at or above the threshold, in their order, each as a
    permanent redirect between the projections of its two hrefs. *)
Inductive redirects_of (minConf : Q) : list LinkFix -> list RedirectEntry -> Prop :=
| redirects_nil : redirects_of minConf [] []
| redirects_keep f fixes e entries :
    minConf <= confidence f ->
    path_projection (originalHref f) (from e) ->
    path_projection (suggestedHref f) (to e) ->
    redirectStatus e = 301%Z ->
    redirects_of minConf fixes entries ->
    redirects_of minConf (f :: fixes) (e :: entries)
| redirects_drop f fixes entries :
    confidence f < minConf ->
    redirects_of minConf fixes entries ->
    redirects_of minConf (f :: fixes) entries.

(** The URL that follows [url] when the response to the request number
    [i] of a check is a redirect that [checkUrl] follows. *)
Definition followed (fetch : LinkScanner.Network) (timeout : Z) (i : nat)
  (url : string) : option string :=
  match fetch i url timeout with
  | LinkScanner.Response status (Some loc) =>
      if (300 <=? status)%Z && (status <? 400)%Z && JS.truthy (Some loc)
      then URL_resolve loc url
      else None
  | _ => None
  end.

(** The URL reached after [n] redirect hops in a row, and the URLs
    requested on the way. *)
Fixpoint hops (fetch : LinkScanner.Network) (timeout : Z) (n i : nat)
  (url : string) : option string :=
  match n with
  | O => Some url
  | S n' =>
      match followed fetch timeout i url with
      | Some next => hops fetch timeout n' (S i) next
      | None => None
      end
  end.

Fixpoint hop_urls (fetch : LinkScanner.Network) (timeout : Z) (n i : nat)
  (url : string) : list string :=
  match n with
  | O => []
  | S n' =>
      url :: match followed fetch timeout i url with
             | Some next => hop_urls fetch timeout n' (S i) next
             | None => []
             end
  end.

(** The URL that a turn of the crawl loop shifted from the queue. *)
Definition event_url (ev : LinkScanner.CrawlEvent) : string :=
  match ev with
  | LinkScanner.AlreadyVisited url | LinkScanner.Excluded url
  | LinkScanner.Crawled url | LinkScanner.CrawlFailed url => url
  end.

(** [excludeRegexes.some((r) => r.test(url))]. *)
Definition excluded (excludeRegexes : list RegExp) (url : string) : bool :=
  existsb (fun r => RegExp_test r url) excludeRegexes.

(** No visited URL matches an exclusion pattern. *)
Definition visits_allowed (excludeRegexes : list RegExp)
  (st : LinkScanner.CrawlState) : Prop :=
  forall v, In v (LinkScanner.visited st) -> excluded excludeRegexes v = false.

(** What a turn did with the URL it shifted agrees with the patterns. *)
Definition event_allowed (excludeRegexes : list RegExp)
  (ev : LinkScanner.CrawlEvent) : Prop :=
  match ev with
  | LinkScanner.Excluded url => excluded excludeRegexes url = true
  | LinkScanner.AlreadyVisited url | LinkScanner.Crawled url
  | LinkScanner.CrawlFailed url => excluded excludeRegexes url = false
  end.

End Vocabulary.

(** How a promise of the set [executing] settles. *)
Definition slot_outcome {R : Type} (s : LinkScanner.Slot R) : LinkScanner.Settled R :=
  match s with
  | LinkScanner.Pending o => o
  | LinkScanner.Failed e => LinkScanner.Rejected e
  end.

(** The source pages pushed for [h]: one per broken result with that href,
    in the order of the results. *)
Definition pages_of (brokenLinks : list LinkCheckResult) (h : string)
  : list string :=
  map sourcePage (filter (fun l => String.eqb (href l) h) brokenLinks).

(** The distinct elements of a list, each at its first occurrence. *)
Definition first_seen (hs : list string) : list string :=
  fold_left JSSet.add hs JSSet.empty.

(** The fixes pushed by the main loop. *)
Definition pushed (r : option LinkFix) : list LinkFix :=
  match r with Some f => [f] | None => [] end.

(** The results pushed and the promises of the set, as the settlements of
    the units started so far. *)
Definition settlements {R : Type} (st : @LinkScanner.PoolState R)
  : list (LinkScanner.Settled R) :=
  map LinkScanner.Fulfilled (LinkScanner.results st)
  ++ map slot_outcome (LinkScanner.executing st).

(** Sorting by a key, highest first: the comparator
    [(a, b) => key(b) - key(a)], the order it yields, and the elements of
    one key. *)
Definition desc {A : Type} (key : A -> Q) (a b : A) : Q := key b - key a.

(** [sub] keeps some elements of [l], in the order of [l]. *)
Inductive Subsequence {A : Type} : list A -> list A -> Prop :=
| Subsequence_nil : Subsequence [] []
| Subsequence_skip x sub l : Subsequence sub l -> Subsequence sub (x :: l)
| Subsequence_take x sub l : Subsequence sub l -> Subsequence (x :: sub) (x :: l).

(** The table that [levenshtein] fills, row by row: row [k] is
    [matrix[k]], and [cell a b i j] is [matrix[i][j]]. *)
Definition row0 (a : string) : list nat := seq 0 (S (String.length a)).

Definition next_row (a : string) (bc : ascii) (i : nat) (prev : list nat)
  : list nat :=
  i :: LinkFixer.fill_row bc a prev i.

Fixpoint row_at (a b : string) (k : nat) : list nat :=
  match k with
  | O => row0 a
  | S k' =>
      match String.get k' b with
      | Some bc => next_row a bc (S k') (row_at a b k')
      | None => row_at a b k'
      end
  end.

Definition cell (a b : string) (i j : nat) : nat := nth j (row_at a b i) 0%nat.

(** The score that the scan of the known-good URLs compares with:
    [bestMatch?.score ?? 0]. *)
Definition scoreOf (best : option (string * Q)) : Q :=
  match best with Some (_, s) => s | None => 0 end.

(** A fix that [applyFixesToContent] does not skip, and the threshold it
    compares with. *)
Definition eligible (minConfidence : Q) (f : LinkFix) : bool :=
  negb (JS.Qlt_bool (confidence f) minConfidence).

Definition thresholdOfApply (minConfidence : option Q) : Q :=
  match minConfidence with Some c => c | None => 7 # 10 end.

(** What the crawl loop keeps true of its state, for the first URL [root]
    of the queue and the page budget. *)
Record crawl_ok (root : string) (maxPages : Z) (st : LinkScanner.CrawlState)
  : Prop := {
  ok_visited : NoDup (LinkScanner.visited st);
  ok_queue : NoDup (LinkScanner.toVisit st);
  ok_fresh : forall x, In x (LinkScanner.toVisit st) -> ~ In x (LinkScanner.visited st);
  ok_keys : NoDup (JSMap.keys (LinkScanner.allLinks st));
  ok_sources : forall link sources,
    In (link, sources) (LinkScanner.allLinks st) ->
    sources <> [] /\ NoDup sources /\
    forall s, In s sources -> In s (LinkScanner.visited st);
  ok_budget : (Z.of_nat (JSSet.size (LinkScanner.visited st)) <= Z.max 0 maxPages)%Z;
  ok_root : match LinkScanner.visited st with
            | [] => forall x, In x (LinkScanner.toVisit st) -> x = root
            | first :: _ => first = root
            end;
  ok_found : forall x,
    In x (LinkScanner.toVisit st) \/ In x (LinkScanner.visited st) ->
    x = root \/ In x (JSMap.keys (LinkScanner.allLinks st))
}.

(** The part of [crawl_ok] that the inner loop over the links of a page
    works on. *)
Definition links_ok (root : string) (vis : JSSet.t)
  (acc : JSMap.t JSSet.t * list string) : Prop :=
  let '(al, tv) := acc in
  NoDup tv /\ (forall x, In x tv -> ~ In x vis) /\
  NoDup (JSMap.keys al) /\
  (forall link sources, In (link, sources) al ->
     sources <> [] /\ NoDup sources /\ forall s, In s sources -> In s vis) /\
  (forall x, In x tv \/ In x vis -> x = root \/ In x (JSMap.keys al)).

(** A turn that did not find the URL it shifted in the visited set. *)
Definition not_revisit (ev : LinkScanner.CrawlEvent) : Prop :=
  match ev with LinkScanner.AlreadyVisited _ => False | _ => True end.

(** Every source page recorded for a link is a page that loaded and whose
    anchors hold the link. *)
Definition sources_loaded `{P : Platform} (browser : LinkScanner.Browser)
  (baseOrigin : string) (timeout : Z) (links : JSMap.t JSSet.t) : Prop :=
  forall link sources s,
    In (link, sources) links -> In s sources ->
    exists page, browser s timeout = Some page /\
                 In link (LinkScanner.extractLinks page baseOrigin).

(** The fixtures of [__tests__/link-fixer.test.ts]. *)
Module Fixtures.

Definition brokenLink (page url : string) : LinkCheckResult :=
  {| sourcePage := page;
     href := url;
     resolvedUrl := url;
     statusCode := Some 404%Z;
     isRedirect := false;
     finalUrl := None;
     redirectChain := [];
     error := None |}.

Definition redirectLink (url final : string) : LinkCheckResult :=
  {| sourcePage := "https://example.com/page";
     href := url;
     resolvedUrl := url;
     statusCode := Some 301%Z;
     isRedirect := true;
     finalUrl := Some final;
     redirectChain := [url];
     error := None |}.

Definition withMinConfidence (c : Q) : LinkFixer.FixOptions :=
  {| LinkFixer.minConfidence := Some c; LinkFixer.maxSuggestions := None |}.

(** The network of the examples: the first [n] requests are redirected to
    [/next], the following one is answered with 200. *)
Definition redirects_then_ok (n : nat) : LinkScanner.Network :=
  fun i _ _ =>
    if (i <? n)%nat then LinkScanner.Response 301 (Some "/next")
    else LinkScanner.Response 200 None.

(** A unit of work that fails for the item [b]. *)
Definition failing_on_b (item : string) : LinkScanner.Settled nat :=
  if String.eqb item "b" then LinkScanner.Rejected "boom"
  else LinkScanner.Fulfilled (String.length item).

(** A site of two pages that both link to [/private]. *)
Definition two_page_site : LinkScanner.Browser :=
  fun url _ =>
    if String.eqb url "https://example.com/" then
      Some {| LinkScanner.page_url := url;
              LinkScanner.page_anchors := ["/private"; "/a"] |}
    else if String.eqb url "https://example.com/a" then
      Some {| LinkScanner.page_url := url;
              LinkScanner.page_anchors := ["/private"] |}
    else None.

(** A network on which only [/private] is missing. *)
Definition private_missing : LinkScanner.Network :=
  fun _ url _ =>
    if String.eqb url "https://example.com/private"
    then LinkScanner.Response 404 None
    else LinkScanner.Response 200 None.

(** A site whose only page links to [/old]. *)
Definition one_link_site : LinkScanner.Browser :=
  fun url _ =>
    if String.eqb url "https://example.com/" then
      Some {| LinkScanner.page_url := url;
              LinkScanner.page_anchors := ["/old"] |}
    else None.

(** A network on which [/old] redirects to [/gone], which is missing. *)
Definition moved_to_missing : LinkScanner.Network :=
  fun _ url _ =>
    if String.eqb url "https://example.com/old"
    then LinkScanner.Response 301 (Some "/gone")
    else if String.eqb url "https://example.com/gone"
    then LinkScanner.Response 404 None
    else LinkScanner.Response 200 None.

(** The fix of the tests of [applyFixesToContent], and an anchor with a
    double-quoted [href]. *)
Definition pageFix (original suggested : string) (c : Q) : LinkFix :=
  {| originalHref := original;
     suggestedHref := suggested;
     confidence := c;
     method := fuzzy_match;
     sourcePages := [] |}.

Definition anchor (target : string) : string :=
  ("<a href=" ++ LinkFixer.doubleQuote ++ target ++ LinkFixer.doubleQuote
   ++ ">Link</a>")%string.

End Fixtures.

(* ===================================================================== *)
(** ** Facts about strings                                                *)
(* ===================================================================== *)

Module StringFacts.

Lemma append_assoc (a b c : string) :
  ((a ++ b) ++ c = a ++ (b ++ c))%string.
Proof. induction a as [|x a IH]; simpl; [reflexivity | now rewrite IH]. Qed.

Lemma append_nil_r (a : string) : (a ++ "")%string = a.
Proof. induction a as [|x a IH]; simpl; [reflexivity | now rewrite IH]. Qed.

Lemma hasChar_app c (a b : string) :
  JS.hasChar c (a ++ b) = JS.hasChar c a || JS.hasChar c b.
Proof.
  induction a as [|x a IH]; simpl; [reflexivity|].
  now rewrite IH, orb_assoc.
Qed.

Lemma dropLast_snoc (r : string) (c : ascii) :
  JS.dropLast (r ++ String c "") = r.
Proof.
  induction r as [|x r IH]; [reflexivity|].
  simpl. destruct (r ++ String c "")%string eqn:E.
  - destruct r; discriminate.
  - now rewrite IH.
Qed.


(** The last character of a string that is not empty. *)
Lemma snoc_app_inv (a b r : string) (c : ascii) :
  b <> ""%string ->
  (a ++ b = r ++ String c "")%string ->
  r = (a ++ JS.dropLast b)%string /\ b = (JS.dropLast b ++ String c "")%string.
Proof.
  intros Hb H.
  assert (E : exists b', b = (b' ++ String c "")%string /\ r = (a ++ b')%string).
  { assert (Hd : JS.dropLast (a ++ b) = r) by (rewrite H; apply dropLast_snoc).
    revert r H Hd. induction a as [|x a IH]; simpl; intros r H Hd.
    - exists r. split; [exact H | reflexivity].
    - destruct r as [|y r]; simpl in H.
      + injection H as _ H. destruct a; [|discriminate].
        simpl in H. subst b. contradiction.
      + injection H as -> H.
        destruct (IH r H) as (b' & E1 & E2).
        { rewrite H. apply dropLast_snoc. }
        exists b'. split; [exact E1 | now rewrite E2]. }
  destruct E as (b' & -> & ->).
  now rewrite dropLast_snoc.
Qed.

End StringFacts.

(* ===================================================================== *)
(** ** The small instance satisfies the laws of the platform              *)
(* ===================================================================== *)

Module SimpleFacts.
Import Simple StringFacts.

Lemma break_spec stop s a b :
  break stop s = (a, b) ->
  s = (a ++ b)%string /\ clean stop a = true /\ stops stop b.
Proof.
  revert a b. induction s as [|c s IH]; simpl; intros a b H.
  - injection H as <- <-. repeat split.
  - destruct (stop c) eqn:Ec.
    + injection H as <- <-. repeat split. exact Ec.
    + destruct (break stop s) as [a' b'] eqn:E.
      injection H as <- <-.
      destruct (IH a' b' eq_refl) as (-> & Hc & Hs).
      repeat split; [|exact Hs].
      unfold clean in *. simpl. now rewrite Ec, Hc.
Qed.

Lemma break_app stop a b :
  clean stop a = true -> stops stop b -> break stop (a ++ b) = (a, b).
Proof.
  induction a as [|c a IH]; simpl; intros Hc Hs.
  - destruct b as [|d b]; simpl in *; [reflexivity | now rewrite Hs].
  - unfold clean in Hc. simpl in Hc. apply andb_true_iff in Hc as [Hc1 Hc2].
    apply negb_true_iff in Hc1. rewrite Hc1.
    now rewrite (IH Hc2 Hs).
Qed.

Lemma clean_hasChar stop c s :
  stop c = true -> clean stop s = true -> JS.hasChar c s = false.
Proof.
  intros Hc. unfold clean.
  induction s as [|d s IH]; simpl; [reflexivity|].
  intros H. apply andb_true_iff in H as [H1 H2].
  rewrite (IH H2), orb_false_r.
  destruct (Ascii.eqb_spec d c) as [->|]; [|reflexivity].
  rewrite Hc in H1. discriminate.
Qed.

Lemma scheme_char_not_colon c : is_scheme_char c = true -> is_colon c = false.
Proof.
  intros H. unfold is_colon.
  destruct (Ascii.eqb_spec c ":") as [->|]; [discriminate H | reflexivity].
Qed.

Lemma valid_scheme_clean s : valid_scheme s = true -> clean is_colon s = true.
Proof.
  intros H. destruct s as [|c s]; [discriminate|].
  unfold valid_scheme in H. apply andb_true_iff in H as [_ H].
  revert H. generalize (String c s). clear. intros s.
  unfold clean. induction s as [|c s IH]; simpl; [reflexivity|].
  intros H. apply andb_true_iff in H as [H1 H2].
  now rewrite (scheme_char_not_colon _ H1), (IH H2).
Qed.

(** The parse of a string given by its parts, and the parts of a string
    that parses. *)
Lemma parse_parts sch h t :
  valid_scheme sch = true ->
  h <> ""%string -> clean ends_host h = true ->
  stops ends_host t ->
  parse (sch ++ "://" ++ h ++ t) =
    let '(p, r3) := break ends_path t in
    let '(q, f) := tail_parts r3 in
    Some {| scheme := sch; host := h;
            path := if String.eqb p "" then "/" else p;
            query := q; fragment := f |}.
Proof.
  intros Hs Hh Hc Ht. unfold parse.
  rewrite (break_app is_colon sch ("://" ++ h ++ t));
    [|now apply valid_scheme_clean | reflexivity].
  simpl. rewrite Hs.
  rewrite (break_app ends_host h t Hc Ht).
  apply String.eqb_neq in Hh. now rewrite Hh.
Qed.

Lemma parse_inv s u :
  parse s = Some u ->
  exists t, s = (scheme u ++ "://" ++ host u ++ t)%string /\
            valid_scheme (scheme u) = true /\
            host u <> ""%string /\ clean ends_host (host u) = true /\
            stops ends_host t.
Proof.
  unfold parse. destruct (break is_colon s) as [sch r0] eqn:E0.
  destruct (break_spec _ _ _ _ E0) as (-> & _ & _).
  destruct r0 as [|c0 r0]; [discriminate|].
  destruct (Ascii.eqb_spec c0 ":") as [->|Hn].
  2:{ intros H. exfalso.
      destruct c0 as [[] [] [] [] [] [] [] []]; try discriminate H;
        try (now apply Hn); destruct r0; discriminate H. }
  destruct r0 as [|c1 r0]; [discriminate|].
  destruct (Ascii.eqb_spec c1 "/") as [->|Hn].
  2:{ intros H. exfalso.
      destruct c1 as [[] [] [] [] [] [] [] []]; try discriminate H;
        now apply Hn. }
  destruct r0 as [|c2 r1]; [discriminate|].
  destruct (Ascii.eqb_spec c2 "/") as [->|Hn].
  2:{ intros H. exfalso.
      destruct c2 as [[] [] [] [] [] [] [] []]; try discriminate H;
        now apply Hn. }
  destruct (valid_scheme sch) eqn:Hv; [|discriminate].
  destruct (break ends_host r1) as [h r2] eqn:E1.
  destruct (break_spec _ _ _ _ E1) as (-> & Hc & Hst).
  destruct (String.eqb_spec h "") as [|Hh]; [discriminate|].
  destruct (break ends_path r2) as [p r3].
  destruct (tail_parts r3) as [q f].
  intros H. injection H as <-. simpl.
  exists r2. repeat split; assumption.
Qed.

Lemma ends_path_inv c : ends_path c = true -> c = "?"%char \/ c = "#"%char.
Proof.
  unfold ends_path. intros H. apply orb_true_iff in H as [H|H];
    apply Ascii.eqb_eq in H; auto.
Qed.

Lemma tail_parts_spec r3 :
  stops ends_path r3 ->
  let '(q, f) := tail_parts r3 in
  r3 = (opt_part "?" q ++ opt_part "#" f)%string /\
  (forall q', q = Some q' -> JS.hasChar "#" q' = false).
Proof.
  destruct r3 as [|c r']; simpl.
  - intros _. split; [reflexivity | discriminate].
  - intros H. destruct (ends_path_inv _ H) as [-> | ->].
    + destruct (break is_hash r') as [q r''] eqn:E.
      destruct (break_spec _ _ _ _ E) as (-> & Hc & Hs).
      split.
      * destruct r'' as [|d f]; simpl; [now rewrite append_nil_r|].
        simpl in Hs. apply Ascii.eqb_eq in Hs. now subst d.
      * intros q' [= <-]. now apply (clean_hasChar is_hash).
    + split; [reflexivity | discriminate].
Qed.

Lemma parse_wf s u : parse s = Some u -> wf u.
Proof.
  intros H. destruct (parse_inv _ _ H) as (t & -> & Hv & Hh & Hc & Ht).
  rewrite (parse_parts _ _ _ Hv Hh Hc Ht) in H.
  destruct (break ends_path t) as [p r3] eqn:E.
  destruct (break_spec _ _ _ _ E) as (-> & Hp & Hs).
  pose proof (tail_parts_spec r3 Hs) as Hq.
  destruct (tail_parts r3) as [q f]. destruct Hq as [_ Hq].
  injection H as <-. split; simpl; auto.
  destruct p as [|c p]; simpl.
  - split; [reflexivity | now exists ""%string].
  - split; [exact Hp|].
    simpl in Ht. unfold ends_host in Ht.
    destruct (Ascii.eqb_spec c "/") as [->|_]; [now exists p|].
    exfalso. unfold clean in Hp. simpl in Hp. unfold ends_path in Hp at 1.
    simpl in Ht. rewrite Ht in Hp. discriminate.
Qed.

(** A string with a path and without fragment is its own serialisation. *)
Lemma parse_plain sch h t :
  valid_scheme sch = true ->
  h <> ""%string -> clean ends_host h = true ->
  JS.hasChar "#" (String "/" t) = false ->
  exists v, parse (sch ++ "://" ++ h ++ String "/" t) = Some v /\
            toString (clearHash v) = (sch ++ "://" ++ h ++ String "/" t)%string /\
            path v = fst (break ends_path (String "/" t)).
Proof.
  intros Hv Hh Hc Hn.
  rewrite (parse_parts sch h (String "/" t) Hv Hh Hc eq_refl).
  destruct (break ends_path (String "/" t)) as [p r3] eqn:E.
  destruct (break_spec _ _ _ _ E) as (Et & Hp & Hs).
  assert (Hp0 : p <> ""%string).
  { intros ->. simpl in Et. subst r3. discriminate Hs. }
  pose proof (tail_parts_spec r3 Hs) as Hq.
  destruct (tail_parts r3) as [q f]. destruct Hq as [Er _].
  assert (f = None) as ->.
  { destruct f as [f|]; [|reflexivity]. exfalso.
    rewrite Et, Er, !hasChar_app in Hn. simpl in Hn.
    rewrite !orb_true_r in Hn. discriminate. }
  apply String.eqb_neq in Hp0. rewrite Hp0.
  eexists. split; [reflexivity|]. split; [|reflexivity].
  unfold toString, clearHash, origin. simpl.
  rewrite Et, Er. simpl. now rewrite !append_assoc.
Qed.

(** The serialisation of a parsed URL without its fragment. *)
Lemma toString_clearHash u :
  toString (clearHash u) =
    (scheme u ++ "://" ++ host u ++ (path u ++ opt_part "?" (query u)))%string.
Proof.
  unfold toString, clearHash, origin. simpl.
  now rewrite append_nil_r, !append_assoc.
Qed.

Lemma tail_no_hash u :
  wf u -> JS.hasChar "#" (path u ++ opt_part "?" (query u)) = false.
Proof.
  intros [_ _ [Hp _] Hq]. rewrite hasChar_app.
  rewrite (clean_hasChar ends_path "#" _ eq_refl Hp). simpl.
  destruct (query u) as [q|]; [|reflexivity].
  simpl. now apply Hq.
Qed.

Lemma law_parse_serialised s u :
  parse s = Some u ->
  exists u', parse (toString (clearHash u)) = Some u' /\
             toString (clearHash u') = toString (clearHash u) /\
             path u' = path u.
Proof.
  intros H. pose proof (parse_wf _ _ H) as W.
  pose proof (tail_no_hash u W) as Hn.
  destruct W as [Hv [Hh Hc] [Hp [p Ep]] Hq].
  rewrite toString_clearHash. rewrite Ep in Hn |- *. simpl in Hn |- *.
  destruct (parse_plain _ _ _ Hv Hh Hc Hn) as (v & E1 & E2 & E3).
  exists v. repeat split; [exact E1 | exact E2 |].
  rewrite E3. change (String "/" (p ++ opt_part "?" (query u)))
    with (String "/" p ++ opt_part "?" (query u))%string.
  rewrite <- Ep. rewrite (break_app ends_path (path u) _ Hp); [reflexivity|].
  destruct (query u); simpl; auto.
Qed.

Lemma law_parse_sliced s u r v :
  parse s = Some u ->
  toString (clearHash u) = (r ++ "/")%string ->
  path u <> "/"%string ->
  parse r = Some v ->
  toString (clearHash v) = r.
Proof.
  intros H Hr Hroot Hv'. pose proof (parse_wf _ _ H) as W.
  pose proof (tail_no_hash u W) as Hn.
  destruct W as [Hv [Hh Hc] [Hp [p Ep]] Hq].
  rewrite toString_clearHash in Hr.
  set (T := (path u ++ opt_part "?" (query u))%string) in *.
  assert (Hr' : ((scheme u ++ "://" ++ host u) ++ T)%string = (r ++ "/")%string)
    by (rewrite <- Hr; now rewrite !append_assoc).
  clear Hr. rename Hr' into Hr.
  assert (HT : exists c t, T = String "/" (String c t)).
  { unfold T. rewrite Ep. destruct p as [|c p].
    - now elim Hroot.
    - simpl. eauto. }
  destruct HT as (c & t & ET).
  apply snoc_app_inv in Hr; [|rewrite ET; discriminate].
  destruct Hr as [-> ET'].
  assert (ED : JS.dropLast T = String "/" (JS.dropLast (String c t))).
  { rewrite ET. reflexivity. }
  assert (Hn' : JS.hasChar "#" (String "/" (JS.dropLast (String c t))) = false).
  { rewrite <- ED. rewrite ET' in Hn. rewrite hasChar_app in Hn.
    now apply orb_false_iff in Hn as [Hn _]. }
  destruct (parse_plain _ _ _ Hv Hh Hc Hn') as (v' & E1 & E2 & _).
  rewrite ED, !append_assoc in Hv'. rewrite ED, !append_assoc.
  rewrite E1 in Hv'. injection Hv' as <-. exact E2.
Qed.

Lemma law_pathname_plain s u :
  parse s = Some u ->
  JS.hasChar "?" (path u) = false /\ JS.hasChar "#" (path u) = false.
Proof.
  intros H. destruct (parse_wf _ _ H) as [_ _ [Hp _] _].
  split; now apply (clean_hasChar ends_path).
Qed.

End SimpleFacts.

#[export] Instance simple_laws : PlatformLaws simple_platform.
Proof.
  split.
  - reflexivity.
  - exact SimpleFacts.law_parse_serialised.
  - exact SimpleFacts.law_parse_sliced.
  - exact SimpleFacts.law_pathname_plain.
Qed.

(* ===================================================================== *)
(** ** normalizeUrl                                                       *)
(* ===================================================================== *)

Section Normalize.
Context `{P : Platform} {L : PlatformLaws P}.
Import LinkScanner StringFacts.





End Normalize.


Example normalizeUrl_examples :
  map LinkScanner.normalizeUrl
    ["https://example.com/"; "https://example.com"; "https://example.com/a/";
     "https://example.com/a/#top"; "https://example.com/a?x=1#top";
     "not a url/"]
  = ["https://example.com/"; "https://example.com/"; "https://example.com/a";
     "https://example.com/a"; "https://example.com/a?x=1"; "not a url/"].
Proof. reflexivity. Qed.


(* ===================================================================== *)
(** ** fixesToRedirects                                                   *)
(* ===================================================================== *)

Section Redirects.
Context `{P : Platform} {L : PlatformLaws P}.
Import LinkFixer.

Lemma getPathname_projection url : path_projection url (getPathname url).
Proof.
  unfold path_projection, getPathname.
  destruct (URL_new url) as [u|] eqn:E; [|reflexivity].
  split; [reflexivity | exact (pathname_plain _ _ E)].
Qed.

(** C8, as the code has it: the entries are the fixes with confidence at
    least [minConf], in their order, with status 301; [from] and [to] are
    the path components of hrefs that parse, and hrefs that do not parse
    are copied as they are. *)
Theorem fixesToRedirects_spec (fixes : list LinkFix) (minConf : Q) :
  redirects_of minConf fixes (fixesToRedirects fixes minConf).
Proof.
  unfold fixesToRedirects.
  induction fixes as [|f fixes IH]; simpl; [constructor|].
  destruct (Qle_bool minConf (confidence f)) eqn:E; simpl.
  - apply Qle_bool_iff in E.
    constructor; auto using getPathname_projection.
  - apply redirects_drop; [|exact IH].
    apply Qnot_le_lt. intros H. apply Qle_bool_iff in H. congruence.
Qed.

End Redirects.

(** C8 fails as stated: an href that does not parse as an absolute URL,
    here a scheme-relative one, reaches [from] with its host and query. *)
Lemma fixesToRedirects_keeps_unparsed_href :
  let fixes :=
    [ {| originalHref := "//example.com/old?x=1";
         suggestedHref := "https://example.com/new?y=2";
         confidence := 9 # 10;
         method := path_similarity;
         sourcePages := ["https://example.com/"] |} ] in
  LinkFixer.fixesToRedirects fixes (6 # 10) =
    [ {| from := "//example.com/old?x=1"; to := "/new"; redirectStatus := 301 |} ] /\
  ~ Forall (fun e => JS.hasChar "?" (from e) = false)
      (LinkFixer.fixesToRedirects fixes (6 # 10)).
Proof.
  split; [reflexivity|].
  intros H. inversion H as [|e l Hq _]. vm_compute in Hq. discriminate.
Qed.

(* ===================================================================== *)
(** ** Facts about [Map], [Set] and [sort]                                *)
(* ===================================================================== *)

Module JSMapFacts.
Import JSMap.
Section Facts.
Context {V : Type}.
Implicit Types (m : JSMap.t V) (k : string) (v : V).

Lemma get_set_same m k v : get (set m k v) k = Some v.
Proof.
  induction m as [|[k' v'] m IH]; simpl.
  - now rewrite String.eqb_refl.
  - destruct (String.eqb_spec k' k); simpl.
    + now rewrite String.eqb_refl.
    + destruct (String.eqb_spec k' k); [contradiction | exact IH].
Qed.

Lemma get_set_other m k k' v : k <> k' -> get (set m k v) k' = get m k'.
Proof.
  intros Hk. induction m as [|[k0 v0] m IH]; simpl.
  - destruct (String.eqb_spec k k'); [contradiction | reflexivity].
  - destruct (String.eqb_spec k0 k) as [->|]; simpl.
    + destruct (String.eqb_spec k k'); [contradiction | reflexivity].
    + now rewrite IH.
Qed.

Lemma has_keys m k : has m k = JSSet.has (keys m) k.
Proof.
  unfold has, JSSet.has. induction m as [|[k' v'] m IH]; simpl; [reflexivity|].
  rewrite (String.eqb_sym k k').
  destruct (String.eqb k' k); [reflexivity | exact IH].
Qed.

Lemma keys_set m k v :
  keys (set m k v) = JSSet.add (keys m) k.
Proof.
  unfold JSSet.add. rewrite <- has_keys. unfold has.
  induction m as [|[k' v'] m IH]; simpl; [reflexivity|].
  destruct (String.eqb_spec k' k) as [->|]; simpl; [reflexivity|].
  rewrite IH. now destruct (get m k).
Qed.

Lemma get_In m k v : get m k = Some v -> In (k, v) m.
Proof.
  induction m as [|[k' v'] m IH]; simpl; [discriminate|].
  destruct (String.eqb_spec k' k) as [->|].
  - intros [= ->]. now left.
  - intros H. right. now apply IH.
Qed.

Lemma In_get m k v : NoDup (keys m) -> In (k, v) m -> get m k = Some v.
Proof.
  induction m as [|[k' v'] m IH]; simpl; [contradiction|].
  intros Hnd [H|H].
  - injection H as -> ->. now rewrite String.eqb_refl.
  - inversion Hnd as [|? ? Hn Hnd']; subst.
    destruct (String.eqb_spec k' k) as [->|].
    + exfalso. apply Hn. change k with (fst (k, v)). now apply in_map.
    + now apply IH.
Qed.
End Facts.
End JSMapFacts.

Module JSSetFacts.
Import JSSet.

Lemma has_In s x : has s x = true <-> In x s.
Proof.
  unfold has. rewrite existsb_exists. split.
  - intros (y & Hy & E). apply String.eqb_eq in E. now subst.
  - intros H. exists x. split; [exact H | apply String.eqb_refl].
Qed.

Lemma add_NoDup s x : NoDup s -> NoDup (add s x).
Proof.
  intros H. unfold add. destruct (has s x) eqn:E; [exact H|].
  apply NoDup_app; [exact H | repeat constructor; intros [] |]. 
  intros y Hy [<-|[]]. apply has_In in Hy. congruence.
Qed.

Lemma add_In s x y : In y (add s x) <-> In y s \/ y = x.
Proof.
  unfold add. destruct (has s x) eqn:E.
  - apply has_In in E. split; [auto | intros [H| ->]; auto].
  - rewrite in_app_iff. simpl. intuition.
Qed.
End JSSetFacts.

Module SubsequenceFacts.
Section Facts.
Context {A : Type}.
Implicit Types (l sub : list A).



Lemma Subsequence_In s l x : Subsequence s l -> In x s -> In x l.
Proof. induction 1; simpl; intuition. Qed.

Lemma Subsequence_NoDup s l : Subsequence s l -> NoDup l -> NoDup s.
Proof.
  induction 1; intros Hnd; [constructor| |].
  - inversion Hnd; auto.
  - inversion Hnd; subst. constructor; auto.
    intros Hin. eauto using Subsequence_In.
Qed.
End Facts.

End SubsequenceFacts.

(** Sorting by a key in descending order, as [(a, b) => key(b) - key(a)]. *)
Module SortFacts.
Section ByKey.
Context {A : Type} (key : A -> Q).


Lemma insert_perm x l : Permutation (JS.insert (desc key) x l) (x :: l).
Proof.
  induction l as [|y l IH]; simpl; [reflexivity|].
  destruct (JS.Qlt_bool 0 (desc key x y)); [|reflexivity].
  rewrite IH. apply perm_swap.
Qed.

Lemma sort_perm l : Permutation (JS.sort (desc key) l) l.
Proof.
  induction l as [|x l IH]; simpl; [reflexivity|].
  unfold JS.sort in *. simpl. rewrite insert_perm. now constructor.
Qed.




End ByKey.

Lemma filter_perm {A : Type} (p : A -> bool) l l' :
  Permutation l l' -> Permutation (filter p l) (filter p l').
Proof.
  induction 1; simpl.
  - constructor.
  - destruct (p x); [now constructor | assumption].
  - destruct (p x), (p y); try reflexivity. apply perm_swap.
  - etransitivity; eassumption.
Qed.
End SortFacts.

(* ===================================================================== *)
(** ** computeFixes                                                       *)
(* ===================================================================== *)

Section ComputeFixes.
Context `{P : Platform}.
Import LinkFixer JSMapFacts JSSetFacts SubsequenceFacts SortFacts.

#[local] Arguments fixFor : simpl never.

Lemma first_seen_snoc hs h : first_seen (hs ++ [h]) = JSSet.add (first_seen hs) h.
Proof. unfold first_seen. now rewrite fold_left_app. Qed.

Lemma first_seen_NoDup hs : NoDup (first_seen hs).
Proof.
  induction hs as [|h hs IH] using rev_ind; [constructor|].
  rewrite first_seen_snoc. now apply add_NoDup.
Qed.

Lemma first_seen_In hs h : In h (first_seen hs) <-> In h hs.
Proof.
  induction hs as [|x hs IH] using rev_ind; [reflexivity|].
  rewrite first_seen_snoc, add_In, in_app_iff, IH. simpl. intuition.
Qed.

Lemma pages_of_snoc L x h :
  pages_of (L ++ [x]) h =
  pages_of L h ++ (if String.eqb (href x) h then [sourcePage x] else []).
Proof.
  unfold pages_of. rewrite filter_app, map_app. simpl.
  now destruct (String.eqb (href x) h).
Qed.

Lemma pages_of_absent L h : ~ In h (map href L) -> pages_of L h = [].
Proof.
  unfold pages_of. induction L as [|x L IH]; simpl; [reflexivity|].
  intros H. destruct (String.eqb_spec (href x) h) as [E|_].
  - exfalso. apply H. now left.
  - apply IH. intros Hin. apply H. now right.
Qed.

Lemma brokenByUrl_snoc L x :
  brokenByUrl (L ++ [x]) =
  JSMap.set (brokenByUrl L) (href x)
    (match JSMap.get (brokenByUrl L) (href x) with Some e => e | None => [] end
     ++ [sourcePage x]).
Proof. unfold brokenByUrl. now rewrite fold_left_app. Qed.

(** The map built by the first loop: the hrefs in the order of their first
    appearance, each with the pages pushed for it. *)
Lemma brokenByUrl_keys L : JSMap.keys (brokenByUrl L) = first_seen (map href L).
Proof.
  induction L as [|x L IH] using rev_ind; [reflexivity|].
  rewrite brokenByUrl_snoc, keys_set, map_app. cbn [map].
  now rewrite first_seen_snoc, IH.
Qed.

Lemma brokenByUrl_get L h :
  JSMap.get (brokenByUrl L) h =
  if JSSet.has (map href L) h then Some (pages_of L h) else None.
Proof.
  induction L as [|x L IH] using rev_ind; [reflexivity|].
  rewrite brokenByUrl_snoc, pages_of_snoc, map_app.
  unfold JSSet.has in *. rewrite existsb_app. simpl. rewrite orb_false_r.
  rewrite (String.eqb_sym h (href x)).
  destruct (String.eqb_spec (href x) h) as [->|Hne].
  - rewrite get_set_same, IH, orb_true_r.
    destruct (existsb (String.eqb h) (map href L)) eqn:E; [reflexivity|].
    rewrite pages_of_absent; [reflexivity|].
    intros Hin. apply (has_In (map href L) h) in Hin.
    unfold JSSet.has in Hin. congruence.
  - rewrite get_set_other by exact Hne.
    now rewrite IH, orb_false_r, app_nil_r.
Qed.

Lemma brokenByUrl_entry L h pages :
  In (h, pages) (JSMap.entries (brokenByUrl L)) -> pages = pages_of L h.
Proof.
  unfold JSMap.entries. intros H. apply In_get in H.
  - rewrite brokenByUrl_get in H.
    destruct (JSSet.has (map href L) h); congruence.
  - rewrite brokenByUrl_keys. apply first_seen_NoDup.
Qed.

Lemma collectFixes_flat_map minConf good targets entries :
  collectFixes minConf good targets entries =
  flat_map (fun e => pushed (fixFor minConf good targets e)) entries.
Proof.
  unfold collectFixes.
  enough (G : forall acc,
    fold_left
      (fun fixes entry =>
         match fixFor minConf good targets entry with
         | Some f => fixes ++ [f]
         | None => fixes
         end) entries acc
    = acc ++ flat_map (fun e => pushed (fixFor minConf good targets e)) entries)
    by apply (G []).
  induction entries as [|e entries IH]; intros acc; simpl.
  - now rewrite app_nil_r.
  - rewrite IH. destruct (fixFor minConf good targets e); simpl.
    + now rewrite <- app_assoc.
    + reflexivity.
Qed.

Lemma fuzzyFix_fields minConf good h pages f :
  fuzzyFix minConf good h pages = Some f ->
  originalHref f = h /\ sourcePages f = pages.
Proof.
  unfold fuzzyFix. destruct (bestMatch h good) as [[url score]|]; [|discriminate].
  destruct (Qle_bool minConf score); [|discriminate].
  intros [= <-]. split; reflexivity.
Qed.

Lemma fixFor_fields minConf good targets h pages f :
  fixFor minConf good targets (h, pages) = Some f ->
  originalHref f = h /\ sourcePages f = pages.
Proof.
  unfold fixFor.
  destruct (JSMap.get targets h) as [t|]; [|apply fuzzyFix_fields].
  destruct (JS.truthy (Some t)); [|apply fuzzyFix_fields].
  destruct (Qle_bool minConf (95 # 100)); [|apply fuzzyFix_fields].
  intros [= <-]. split; reflexivity.
Qed.

Lemma collectFixes_hrefs minConf good targets entries :
  Subsequence (map originalHref (collectFixes minConf good targets entries))
              (JSMap.keys entries).
Proof.
  rewrite collectFixes_flat_map.
  induction entries as [|[h pages] entries IH]; simpl; [constructor|].
  destruct (fixFor minConf good targets (h, pages)) as [f|] eqn:E; simpl.
  - destruct (fixFor_fields _ _ _ _ _ _ E) as [-> _].
    now apply Subsequence_take.
  - now apply Subsequence_skip.
Qed.

Lemma collectFixes_pages minConf good targets entries f :
  In f (collectFixes minConf good targets entries) ->
  In (originalHref f, sourcePages f) entries.
Proof.
  rewrite collectFixes_flat_map, in_flat_map.
  intros ([h pages] & Hin & Hf).
  destruct (fixFor minConf good targets (h, pages)) as [g|] eqn:E; [|contradiction].
  destruct Hf as [<-|[]].
  now destruct (fixFor_fields _ _ _ _ _ _ E) as [-> ->].
Qed.

Lemma computeFixes_perm broken good redirects options :
  Permutation
    (computeFixes broken good redirects options)
    (collectFixes (thresholdOf options) good (redirectTargets redirects)
       (JSMap.entries (brokenByUrl broken))).
Proof. unfold computeFixes. apply (sort_perm confidence). Qed.

(** At most one fix for an href. *)
Lemma computeFixes_NoDup broken good redirects options :
  NoDup (map originalHref (computeFixes broken good redirects options)).
Proof.
  eapply Permutation_NoDup.
  - symmetry. apply Permutation_map, computeFixes_perm.
  - eapply Subsequence_NoDup; [apply collectFixes_hrefs|].
    unfold JSMap.entries. rewrite brokenByUrl_keys. apply first_seen_NoDup.
Qed.

Lemma computeFixes_pages broken good redirects options f :
  In f (computeFixes broken good redirects options) ->
  sourcePages f = pages_of broken (originalHref f).
Proof.
  intros H. apply brokenByUrl_entry.
  apply (collectFixes_pages (thresholdOf options) good (redirectTargets redirects)).
  eapply Permutation_in; [apply computeFixes_perm | exact H].
Qed.

(** C1, as the code has it: the fixes have pairwise distinct hrefs, and
    the source pages of a fix are those pushed for its href, one per
    broken result with that href, in the order of the results (a page that
    comes twice is kept twice). *)
Theorem computeFixes_groups_by_href broken good redirects options :
  let fixes := computeFixes broken good redirects options in
  NoDup (map originalHref fixes) /\
  Forall (fun f => sourcePages f = pages_of broken (originalHref f)) fixes.
Proof.
  split; [apply computeFixes_NoDup|].
  apply Forall_forall. intros f. apply computeFixes_pages.
Qed.

(** The redirect map holds the last usable target of each href. *)
Lemma redirectTargets_snoc R x :
  redirectTargets (R ++ [x]) =
  match finalUrl x with
  | Some target =>
      if JS.truthy (Some target)
      then JSMap.set (redirectTargets R) (href x) target
      else redirectTargets R
  | None => redirectTargets R
  end.
Proof. unfold redirectTargets. now rewrite fold_left_app. Qed.

Lemma redirectTargets_get R h target :
  JSMap.get (redirectTargets R) h = Some target ->
  JS.truthy (Some target) = true /\
  exists l, In l R /\ href l = h /\ finalUrl l = Some target.
Proof.
  induction R as [|x R IH] using rev_ind; [discriminate|].
  rewrite redirectTargets_snoc.
  assert (Hold : JSMap.get (redirectTargets R) h = Some target ->
                 JS.truthy (Some target) = true /\
                 exists l, In l (R ++ [x]) /\ href l = h /\ finalUrl l = Some target).
  { intros H. destruct (IH H) as (Ht & l & Hl & E1 & E2).
    split; [exact Ht|]. exists l. rewrite in_app_iff. auto. }
  destruct (finalUrl x) as [t|] eqn:Ef; [|exact Hold].
  destruct (JS.truthy (Some t)) eqn:Et; [|exact Hold].
  destruct (String.eqb_spec (href x) h) as [<-|Hne].
  - rewrite get_set_same. intros [= <-]. split; [exact Et|].
    exists x. rewrite in_app_iff. simpl. auto.
  - rewrite get_set_other by exact Hne. exact Hold.
Qed.

Lemma redirectTargets_key R l :
  In l R -> JS.truthy (finalUrl l) = true ->
  exists target, JSMap.get (redirectTargets R) (href l) = Some target.
Proof.
  induction R as [|x R IH] using rev_ind; [contradiction|].
  rewrite in_app_iff. simpl. intros Hin Ht. rewrite redirectTargets_snoc.
  destruct Hin as [Hin|[->|[]]].
  - destruct (IH Hin Ht) as [t Hget].
    assert (Hset : forall t', exists target,
      JSMap.get (JSMap.set (redirectTargets R) (href x) t') (href l) = Some target).
    { intros t'. destruct (String.eqb_spec (href x) (href l)) as [<-|Hne].
      - rewrite get_set_same. eauto.
      - rewrite get_set_other by exact Hne. eauto. }
    destruct (finalUrl x) as [t'|]; [|eauto].
    destruct (JS.truthy (Some t')); eauto.
  - destruct (finalUrl l) as [t|]; [|discriminate].
    rewrite Ht, get_set_same. eauto.
Qed.

Lemma filter_href_absent minConf good targets entries h :
  ~ In h (JSMap.keys entries) ->
  filter (fun f => String.eqb (originalHref f) h)
    (flat_map (fun e => pushed (fixFor minConf good targets e)) entries) = [].
Proof.
  induction entries as [|[k pg] entries IH]; simpl; [reflexivity|].
  intros Hn. rewrite filter_app, IH by tauto. rewrite app_nil_r.
  destruct (fixFor minConf good targets (k, pg)) as [f|] eqn:E; [|reflexivity].
  destruct (fixFor_fields _ _ _ _ _ _ E) as [Ef _]. simpl. rewrite Ef.
  destruct (String.eqb_spec k h); [|reflexivity]. exfalso. tauto.
Qed.

Lemma filter_href_present minConf good targets entries h pages :
  NoDup (JSMap.keys entries) -> In (h, pages) entries ->
  filter (fun f => String.eqb (originalHref f) h)
    (flat_map (fun e => pushed (fixFor minConf good targets e)) entries)
  = pushed (fixFor minConf good targets (h, pages)).
Proof.
  induction entries as [|[k pg] entries IH]; simpl; [contradiction|].
  intros Hnd Hin. inversion Hnd as [|? ? Hk Hnd']; subst.
  rewrite filter_app.
  assert (Hkeys : forall v, In (h, v) entries -> In h (JSMap.keys entries)).
  { intros v Hv. change h with (fst (h, v)). now apply in_map. }
  destruct Hin as [[= -> ->]|Hin].
  - rewrite filter_href_absent by exact Hk. rewrite app_nil_r.
    destruct (fixFor minConf good targets (h, pages)) as [f|] eqn:E; [|reflexivity].
    destruct (fixFor_fields _ _ _ _ _ _ E) as [Ef _]. simpl.
    now rewrite Ef, String.eqb_refl.
  - rewrite (IH Hnd' Hin).
    destruct (fixFor minConf good targets (k, pg)) as [f|] eqn:E; [|reflexivity].
    destruct (fixFor_fields _ _ _ _ _ _ E) as [Ef _]. simpl. rewrite Ef.
    destruct (String.eqb_spec k h) as [->|]; [|reflexivity].
    exfalso. apply Hk. eauto.
Qed.

(** C2: a broken href that is a key of the redirect map gets the fix to
    its redirect target, with confidence 0.95 and method redirect-target,
    whenever the threshold is at most 0.95, whatever the known-good URLs
    are; no other fix carries that href. *)
Theorem computeFixes_redirect_target broken good redirects options h target :
  In h (map href broken) ->
  JSMap.get (redirectTargets redirects) h = Some target ->
  thresholdOf options <= 95 # 100 ->
  filter (fun f => String.eqb (originalHref f) h)
    (computeFixes broken good redirects options)
  = [ {| originalHref := h;
         suggestedHref := target;
         confidence := 95 # 100;
         method := redirect_target;
         sourcePages := pages_of broken h |} ].
Proof.
  intros Hin Hget Hle.
  apply Permutation_length_1_inv. symmetry.
  rewrite (filter_perm _ _ _ (computeFixes_perm broken good redirects options)).
  rewrite collectFixes_flat_map.
  assert (He : In (h, pages_of broken h) (JSMap.entries (brokenByUrl broken))).
  { unfold JSMap.entries. apply get_In. rewrite brokenByUrl_get.
    apply (has_In (map href broken) h) in Hin. now rewrite Hin. }
  assert (Hnd : NoDup (JSMap.keys (JSMap.entries (brokenByUrl broken))))
    by (unfold JSMap.entries; rewrite brokenByUrl_keys; apply first_seen_NoDup).
  rewrite (filter_href_present _ _ _ _ _ _ Hnd He).
  unfold fixFor. rewrite Hget.
  destruct (redirectTargets_get _ _ _ Hget) as [-> _].
  apply Qle_bool_iff in Hle. rewrite Hle. reflexivity.
Qed.


(** C10: [maxSuggestions] is never read: two option records that differ
    only there give the same fixes, at most one for an href. *)
Theorem computeFixes_ignores_maxSuggestions broken good redirects minConf
  (maxSuggestions1 maxSuggestions2 : option Q) :
  computeFixes broken good redirects
    {| minConfidence := minConf; maxSuggestions := maxSuggestions1 |}
  = computeFixes broken good redirects
      {| minConfidence := minConf; maxSuggestions := maxSuggestions2 |} /\
  NoDup (map originalHref
           (computeFixes broken good redirects
              {| minConfidence := minConf; maxSuggestions := maxSuggestions1 |})).
Proof. split; [reflexivity | apply computeFixes_NoDup]. Qed.

End ComputeFixes.

(* ===================================================================== *)
(** ** computeFixes on concrete inputs                                    *)
(* ===================================================================== *)

Section ComputeFixesExamples.
Import LinkFixer Fixtures.


Example levenshtein_docss : levenshtein "docss/guide" "docs/guide" = 1%nat.
Proof. reflexivity. Qed.

Example pathSimilarity_docss :
  pathSimilarity "https://example.com/docss/guide" "https://example.com/docs/guide"
  == 73 # 110.
Proof. reflexivity. Qed.

(** C1 fails as stated: two broken results for one href found on the same
    page give one fix that lists the page twice. *)
Lemma computeFixes_repeats_source_page :
  let fixes :=
    computeFixes
      [brokenLink "https://example.com/page-a" "https://example.com/missing";
       brokenLink "https://example.com/page-a" "https://example.com/missing"]
      ["https://example.com/missingg"] [] (withMinConfidence (3 # 10)) in
  map sourcePages fixes =
    [["https://example.com/page-a"; "https://example.com/page-a"]] /\
  ~ Forall (fun f => NoDup (sourcePages f)) fixes.
Proof.
  split; [vm_compute; reflexivity|].
  intros H. vm_compute in H. inversion H as [|f l Hnd _]; subst.
  inversion Hnd as [|x l' Hn _]; subst. apply Hn. now left.
Qed.

(** The cases of the test suite. *)
Example test_small_typo :
  map suggestedHref
    (computeFixes
       [brokenLink "https://example.com/page" "https://example.com/docss/guide"]
       ["https://example.com/docs/guide"; "https://example.com/about";
        "https://example.com/contact"] [] (withMinConfidence (3 # 10)))
  = ["https://example.com/docs/guide"].
Proof. vm_compute. reflexivity. Qed.

Example test_ranks_closest_first :
  map suggestedHref
    (computeFixes
       [brokenLink "https://example.com/page" "https://example.com/blog/post-one"]
       ["https://example.com/blog/post-once"; "https://example.com/about"]
       [] (withMinConfidence (3 # 10)))
  = ["https://example.com/blog/post-once"].
Proof. vm_compute. reflexivity. Qed.

Example test_multiple_broken_links :
  List.length
    (computeFixes
       [brokenLink "https://example.com/" "https://example.com/docs/getting-started";
        brokenLink "https://example.com/blog" "https://example.com/blog/my-post"]
       ["https://example.com/docs/getting-startd";
        "https://example.com/blog/my-postt"] [] (withMinConfidence (3 # 10)))
  = 2%nat.
Proof. vm_compute. reflexivity. Qed.

Example test_redirect_preferred :
  map (fun f => (suggestedHref f, method f, confidence f))
    (computeFixes
       [brokenLink "https://example.com/page" "https://example.com/old"]
       ["https://example.com/oldd"]
       [redirectLink "https://example.com/old" "https://example.com/brand-new"]
       noOptions)
  = [("https://example.com/brand-new", redirect_target, 95 # 100)].
Proof. vm_compute. reflexivity. Qed.

Example test_aggregates_source_pages :
  map (fun f => (originalHref f, sourcePages f))
    (computeFixes
       [brokenLink "https://example.com/page-a" "https://example.com/missing";
        brokenLink "https://example.com/page-b" "https://example.com/missing"]
       ["https://example.com/missingg"] [] (withMinConfidence (3 # 10)))
  = [("https://example.com/missing",
      ["https://example.com/page-a"; "https://example.com/page-b"])].
Proof. vm_compute. reflexivity. Qed.

Example test_sorted_by_confidence :
  map method
    (computeFixes
       [brokenLink "https://example.com/page" "https://example.com/aaa";
        brokenLink "https://example.com/page" "https://example.com/bbb"]
       ["https://example.com/aaaa"]
       [redirectLink "https://example.com/bbb" "https://example.com/bbb-new"]
       (withMinConfidence (3 # 10)))
  = [redirect_target; fuzzy_match].
Proof. vm_compute. reflexivity. Qed.

Example test_no_match :
  computeFixes
    [brokenLink "https://example.com/page" "https://example.com/xyz/abc/123"]
    ["https://example.com/completely/different";
     "https://example.com/nothing/similar"] [] (withMinConfidence (8 # 10))
  = [] /\
  computeFixes
    [brokenLink "https://example.com/page" "https://example.com/something"]
    [] [] noOptions = [].
Proof. split; vm_compute; reflexivity. Qed.

Example test_fixesToRedirects :
  fixesToRedirects
    [ {| originalHref := "https://example.com/a";
         suggestedHref := "https://example.com/b";
         confidence := 5 # 10; method := fuzzy_match; sourcePages := [] |};
      {| originalHref := "https://example.com/c";
         suggestedHref := "https://example.com/d";
         confidence := 8 # 10; method := path_similarity; sourcePages := [] |} ]
    (7 # 10)
  = [ {| from := "/c"; to := "/d"; redirectStatus := 301 |} ].
Proof. reflexivity. Qed.

(** Instances of the general statements. *)
Lemma computeFixes_redirect_target_witness :
  let broken := [brokenLink "https://example.com/page" "https://example.com/old"] in
  let redirects :=
    [redirectLink "https://example.com/old" "https://example.com/brand-new"] in
  In "https://example.com/old" (map href broken) /\
  JSMap.get (redirectTargets redirects) "https://example.com/old"
    = Some "https://example.com/brand-new" /\
  thresholdOf noOptions <= 95 # 100 /\
  filter (fun f => String.eqb (originalHref f) "https://example.com/old")
    (computeFixes broken ["https://example.com/oldd"] redirects noOptions)
  = [ {| originalHref := "https://example.com/old";
         suggestedHref := "https://example.com/brand-new";
         confidence := 95 # 100;
         method := redirect_target;
         sourcePages := pages_of broken "https://example.com/old" |} ].
Proof.
  intros broken redirects.
  assert (H1 : In "https://example.com/old" (map href broken))
    by (simpl; auto).
  assert (H3 : thresholdOf noOptions <= 95 # 100) by (vm_compute; discriminate).
  split; [exact H1|]. split; [reflexivity|]. split; [exact H3|].
  exact (computeFixes_redirect_target broken ["https://example.com/oldd"]
           redirects noOptions "https://example.com/old"
           "https://example.com/brand-new" H1 eq_refl H3).
Defined.

Lemma fixesToRedirects_spec_witness :
  PlatformLaws simple_platform /\
  redirects_of (6 # 10)
    [ {| originalHref := "https://example.com/old-path";
         suggestedHref := "https://example.com/new-path";
         confidence := 9 # 10; method := redirect_target;
         sourcePages := ["https://example.com/"] |} ]
    [ {| from := "/old-path"; to := "/new-path"; redirectStatus := 301 |} ].
Proof.
  split; [exact simple_laws|].
  exact (fixesToRedirects_spec (L := simple_laws)
           [ {| originalHref := "https://example.com/old-path";
                suggestedHref := "https://example.com/new-path";
                confidence := 9 # 10; method := redirect_target;
                sourcePages := ["https://example.com/"] |} ] (6 # 10)).
Defined.

End ComputeFixesExamples.

(* ===================================================================== *)
(** ** checkUrl                                                           *)
(* ===================================================================== *)

Section CheckUrl.
Context `{P : Platform}.
Import LinkScanner.

Variable fetch : Network.
Variable timeout : Z.

Lemma followed_inv i url next :
  followed fetch timeout i url = Some next ->
  exists status loc,
    fetch i url timeout = Response status (Some loc) /\
    (300 <=? status)%Z && (status <? 400)%Z = true /\
    JS.truthy (Some loc) = true /\
    URL_resolve loc url = Some next.
Proof.
  unfold followed.
  destruct (fetch i url timeout) as [status [loc|]|]; try discriminate.
  destruct ((300 <=? status)%Z && (status <? 400)%Z) eqn:Es; [|discriminate].
  destruct (JS.truthy (Some loc)) eqn:Et; [|discriminate].
  simpl. intros H. exists status, loc. auto.
Qed.

(** The loop along a chain of redirects that outlasts its turns. *)
Lemma checkUrl_loop_exhausted n i url chain final :
  hops fetch timeout n i url = Some final ->
  checkUrl_loop fetch timeout true n i url chain =
  Return {| check_statusCode := None;
            check_finalUrl := Some final;
            check_redirectChain := chain ++ hop_urls fetch timeout n i url;
            check_error := Some "Too many redirects" |}.
Proof.
  revert i url chain. induction n as [|n IH]; intros i url chain; simpl.
  - intros [= ->]. now rewrite app_nil_r.
  - destruct (followed fetch timeout i url) as [next|] eqn:Ef; [|discriminate].
    intros Hh.
    destruct (followed_inv _ _ _ Ef) as (status & loc & -> & Es & Et & Er).
    rewrite Es, Et, Er. cbn [andb]. rewrite (IH _ _ _ Hh).
    now rewrite <- app_assoc.
Qed.

(** A chain of redirects has every shorter chain as a prefix. *)
Lemma hops_prefix m n i url reached :
  (m <= n)%nat ->
  hops fetch timeout n i url = Some reached ->
  exists y, hops fetch timeout m i url = Some y.
Proof.
  revert n i url. induction m as [|m IH]; intros n i url Hle Hn; simpl.
  - eauto.
  - destruct n as [|n]; [lia|]. simpl in Hn.
    destruct (followed fetch timeout i url) as [next|]; [|discriminate].
    apply (IH n); [lia | exact Hn].
Qed.

(** C3: when a check that follows redirects meets more than ten redirect
    hops in a row (the first eleven requests, at least, are each answered
    by a redirect with a usable Location), [checkUrl] returns no status
    and the error "Too many redirects", with the eleven URLs requested as
    the chain; the result is a value, nothing is thrown. *)
Theorem checkUrl_too_many_redirects (url reached : string) (n : nat) :
  (10 < n)%nat ->
  hops fetch timeout n 0 url = Some reached ->
  let r := checkUrl fetch url timeout true in
  check_statusCode r = None /\
  check_error r = Some "Too many redirects" /\
  check_redirectChain r = hop_urls fetch timeout 11 0 url /\
  check_finalUrl r = hops fetch timeout 11 0 url.
Proof.
  intros Hn Hhops r.
  destruct (hops_prefix 11 n 0 url reached ltac:(lia) Hhops) as [final H].
  subst r. unfold checkUrl.
  rewrite (checkUrl_loop_exhausted 11 0 url [] final H), H.
  repeat split.
Qed.

(** Whatever the network does, [checkUrl] ends in one of three ways. *)
Lemma checkUrl_loop_result followRedirects n i url chain :
  match checkUrl_loop fetch timeout followRedirects n i url chain with
  | Return r =>
      (exists status, check_statusCode r = Some status /\ check_error r = None) \/
      (check_statusCode r = None /\ check_error r = Some "Too many redirects")
  | Throw _ _ => True
  end.
Proof.
  revert i url chain. induction n as [|n IH]; intros i url chain; simpl.
  - right. split; reflexivity.
  - destruct (fetch i url timeout) as [status loc|message]; [|exact I].
    destruct ((300 <=? status)%Z && (status <? 400)%Z && followRedirects);
      [|left; simpl; eauto].
    destruct loc as [loc|]; [|left; simpl; eauto].
    destruct (JS.truthy (Some loc)); [|left; simpl; eauto].
    destruct (URL_resolve loc url) as [next|]; [apply IH | exact I].
Qed.

Lemma checkUrl_result (url : string) (followRedirects : bool) :
  let r := checkUrl fetch url timeout followRedirects in
  (exists status, check_statusCode r = Some status /\ check_error r = None) \/
  (check_statusCode r = None /\ check_error r = Some "Too many redirects") \/
  (check_statusCode r = None /\ check_finalUrl r = None /\
   exists message, check_error r = Some message).
Proof.
  unfold checkUrl.
  pose proof (checkUrl_loop_result followRedirects
                (S (if followRedirects then 10 else 0)) 0 url []) as H.
  destruct (checkUrl_loop fetch timeout followRedirects
              (S (if followRedirects then 10 else 0)) 0 url []) as [r|message chain].
  - destruct H as [H|H]; auto.
  - right. right. simpl. eauto.
Qed.

End CheckUrl.

Import Fixtures.

Lemma checkUrl_too_many_redirects_witness :
  (10 < 11)%nat /\
  hops (redirects_then_ok 11) 15000 11 0 "https://example.com/start"
    = Some "https://example.com/next" /\
  let r := LinkScanner.checkUrl (redirects_then_ok 11)
             "https://example.com/start" 15000 true in
  LinkScanner.check_statusCode r = None /\
  LinkScanner.check_error r = Some "Too many redirects" /\
  LinkScanner.check_redirectChain r =
    hop_urls (redirects_then_ok 11) 15000 11 0 "https://example.com/start" /\
  LinkScanner.check_finalUrl r =
    hops (redirects_then_ok 11) 15000 11 0 "https://example.com/start".
Proof.
  assert (H : (10 < 11)%nat) by lia.
  split; [exact H|]. split; [reflexivity|].
  exact (checkUrl_too_many_redirects (redirects_then_ok 11) 15000
           "https://example.com/start" "https://example.com/next" 11 H eq_refl).
Defined.

(** Ten hops are still followed; without [followRedirects] none is. *)
Example checkUrl_ten_redirects :
  let r := LinkScanner.checkUrl (redirects_then_ok 10)
             "https://example.com/start" 15000 true in
  LinkScanner.check_statusCode r = Some 200%Z /\
  LinkScanner.check_finalUrl r = Some "https://example.com/next" /\
  List.length (LinkScanner.check_redirectChain r) = 10%nat /\
  LinkScanner.check_error r = None.
Proof. repeat split. Qed.

Example checkUrl_not_following :
  LinkScanner.checkUrl (redirects_then_ok 11) "https://example.com/start" 15000 false =
  {| LinkScanner.check_statusCode := Some 301%Z;
     LinkScanner.check_finalUrl := None;
     LinkScanner.check_redirectChain := [];
     LinkScanner.check_error := None |}.
Proof. reflexivity. Qed.

Example checkUrl_network_failure :
  LinkScanner.checkUrl (fun _ _ _ => LinkScanner.Failure "fetch failed")
    "https://example.com/start" 15000 true =
  {| LinkScanner.check_statusCode := None;
     LinkScanner.check_finalUrl := None;
     LinkScanner.check_redirectChain := [];
     LinkScanner.check_error := Some "fetch failed" |}.
Proof. reflexivity. Qed.

(* ===================================================================== *)
(** ** asyncPool                                                          *)
(* ===================================================================== *)

Section AsyncPoolFacts.
Import LinkScanner.
Context {T R : Type}.
Implicit Types (ex : list (Slot R)) (rs : list R) (st : @PoolState R).

Lemma first_failed_In ex e :
  first_failed ex = Some e -> In (Rejected e) (map slot_outcome ex).
Proof.
  induction ex as [|[o|e'] ex IH]; simpl; [discriminate| |].
  - intros H. right. now apply IH.
  - intros [= ->]. now left.
Qed.

Lemma first_failed_none ex :
  first_failed ex = None -> pending_count ex = 0%nat -> ex = [].
Proof.
  destruct ex as [|[o|e] ex]; simpl; [reflexivity| |discriminate].
  unfold pending_count. simpl. discriminate.
Qed.

Lemma settle_at_perm k rs ex :
  let '(rs', ex', err) := settle_at k rs ex in
  Permutation (map Fulfilled rs' ++ map slot_outcome ex')
              (map Fulfilled rs ++ map slot_outcome ex) /\
  match err with
  | Some e => In (Rejected e) (map slot_outcome ex)
  | None => True
  end.
Proof.
  revert k. induction ex as [|[o|e] ex IH]; intros k; simpl.
  - split; [reflexivity | exact I].
  - destruct k as [|k].
    + destruct o as [r|e]; simpl.
      * split; [|exact I].
        rewrite map_app. simpl. rewrite <- app_assoc. simpl.
        apply Permutation_app_head. reflexivity.
      * split; [reflexivity | now left].
    + specialize (IH k). destruct (settle_at k rs ex) as [[rs' ex'] err].
      destruct IH as [IH1 IH2]. split.
      * simpl. rewrite <- !Permutation_middle. now constructor.
      * destruct err; [now right | exact I].
  - specialize (IH k). destruct (settle_at k rs ex) as [[rs' ex'] err].
    destruct IH as [IH1 IH2]. split.
    + simpl. rewrite <- !Permutation_middle. now constructor.
    + destruct err; [now right | exact I].
Qed.

Lemma settle_at_count k rs ex :
  (k < pending_count ex)%nat ->
  let '(_, ex', _) := settle_at k rs ex in
  S (pending_count ex') = pending_count ex.
Proof.
  unfold pending_count.
  revert k. induction ex as [|[o|e] ex IH]; intros k; simpl.
  - lia.
  - destruct k as [|k].
    + intros _. destruct o; reflexivity.
    + intros H. specialize (IH k ltac:(lia)).
      destruct (settle_at k rs ex) as [[rs' ex'] err]. simpl. lia.
  - intros H. specialize (IH k H).
    destruct (settle_at k rs ex) as [[rs' ex'] err]. simpl. exact IH.
Qed.

Lemma settle_perm k st :
  Permutation (settlements (fst (settle k st))) (settlements st) /\
  match snd (settle k st) with
  | Some e => In (Rejected e) (settlements st)
  | None => True
  end.
Proof.
  unfold settle, settlements.
  pose proof (settle_at_perm (k mod pending_count (executing st))
                (results st) (executing st)) as H.
  destruct (settle_at _ _ _) as [[rs' ex'] err]. simpl.
  destruct H as [H1 H2]. split; [exact H1|].
  destruct err; [|exact I]. apply in_or_app. now right.
Qed.

Lemma settle_count k st :
  pending_count (executing st) <> 0%nat ->
  S (pending_count (executing (fst (settle k st)))) = pending_count (executing st).
Proof.
  intros Hn. unfold settle.
  pose proof (settle_at_count (k mod pending_count (executing st))
                (results st) (executing st)
                (Nat.mod_upper_bound _ _ Hn)) as H.
  now destruct (settle_at _ _ _) as [[rs' ex'] err].
Qed.

Lemma background_perm picks st :
  Permutation (settlements (background picks st)) (settlements st).
Proof.
  unfold background. revert st.
  induction picks as [|k picks IH]; intros st; simpl; [reflexivity|].
  rewrite IH. apply settle_perm.
Qed.

(** What [await Promise.all(executing)] gives. *)
Lemma await_all_outcome n picks st :
  (pending_count (executing st) <= n)%nat ->
  match await_all n picks st with
  | Fulfilled rs => Permutation (map Fulfilled rs) (settlements st)
  | Rejected e => In (Rejected e) (settlements st)
  end.
Proof.
  revert picks st. induction n as [|n IH]; intros picks st Hn; simpl.
  - destruct (first_failed (executing st)) as [e|] eqn:Ef.
    + apply in_or_app. right. now apply first_failed_In.
    + unfold settlements.
      rewrite (first_failed_none _ Ef) by lia. now rewrite app_nil_r.
  - destruct (first_failed (executing st)) as [e|] eqn:Ef.
    + apply in_or_app. right. now apply first_failed_In.
    + destruct (Nat.eqb_spec (pending_count (executing st)) 0) as [E0|E0].
      * unfold settlements.
        rewrite (first_failed_none _ Ef E0). now rewrite app_nil_r.
      * set (pick := match picks with [] => (0%nat, []) | k :: p => (k, p) end).
        destruct pick as [k picks'].
        pose proof (settle_count k st E0) as Hc.
        destruct (settle_perm k st) as [Hp _].
        specialize (IH picks' (fst (settle k st)) ltac:(lia)).
        destruct (await_all n picks' (fst (settle k st))) as [rs|e].
        -- now rewrite IH.
        -- eapply Permutation_in; eassumption.
Qed.

Variable concurrency : Z.
Variable fn : T -> Settled R.

Lemma pool_loop_outcome items sched st started :
  Permutation (settlements st) (map fn started) ->
  match pool_loop concurrency fn items sched st with
  | Fulfilled rs => Permutation (map Fulfilled rs) (map fn (started ++ items))
  | Rejected e => In (Rejected e) (map fn (started ++ items))
  end.
Proof.
  revert sched st started.
  induction items as [|item items IH]; intros sched st started Hst.
  - cbn [pool_loop]. rewrite app_nil_r.
    destruct (next_await sched) as [[k more] sched'].
    pose proof (await_all_outcome (List.length (executing st)) (k :: more) st) as H.
    assert (Hle : (pending_count (executing st) <= List.length (executing st))%nat)
      by apply filter_length_le.
    specialize (H Hle).
    destruct (await_all _ _ st) as [rs|e].
    + now rewrite H.
    + eapply Permutation_in; eassumption.
  - cbn [pool_loop].
    set (st1 := {| results := results st;
                   executing := executing st ++ [Pending (fn item)] |}).
    assert (H1 : Permutation (settlements st1) (map fn (started ++ [item]))).
    { unfold settlements, st1. simpl. rewrite !map_app, app_assoc. simpl.
      apply Permutation_app_tail. exact Hst. }
    assert (Hitems : started ++ item :: items = (started ++ [item]) ++ items)
      by now rewrite <- app_assoc.
    rewrite Hitems.
    assert (Hin : forall e, In (Rejected e) (settlements st1) ->
                            In (Rejected e) (map fn ((started ++ [item]) ++ items))).
    { intros e He. rewrite map_app. apply in_or_app. left.
      eapply Permutation_in; eassumption. }
    destruct (concurrency <=? Z.of_nat (List.length (executing st1)))%Z.
    + destruct (first_failed (executing st1)) as [e|] eqn:Ef.
      * apply Hin, in_or_app. right. now apply first_failed_In.
      * destruct (next_await sched) as [[k more] sched'].
        destruct (settle_perm k st1) as [Hp He].
        destruct (settle k st1) as [st2 [e|]]; simpl in *.
        -- now apply Hin.
        -- apply IH. rewrite background_perm, Hp. exact H1.
    + apply IH. exact H1.
Qed.

Lemma asyncPool_settlements (sched : Schedule) (items : list T) :
  match asyncPool concurrency fn sched items with
  | Fulfilled rs => Permutation (map Fulfilled rs) (map fn items)
  | Rejected e => exists item, In item items /\ fn item = Rejected e
  end.
Proof.
  pose proof (pool_loop_outcome items sched
                {| results := []; executing := [] |} [] (Permutation_refl _)) as H.
  unfold asyncPool. simpl in H.
  destruct (pool_loop concurrency fn items sched _) as [rs|e]; [exact H|].
  apply in_map_iff in H. destruct H as (item & E & Hin). eauto.
Qed.

(** C5, as the code has it: [asyncPool] has no handler for a rejected
    unit of work. When every unit fulfils, the pool fulfils with the
    results of all the units, one per item, in the order of settlement;
    when a unit rejects, the pool rejects, with the error of a rejected
    unit, and returns no results. Both hold under every schedule. *)
Theorem asyncPool_outcome (sched : Schedule) (items : list T) :
  (Forall (fun item => exists r, fn item = Fulfilled r) items ->
   exists rs, asyncPool concurrency fn sched items = Fulfilled rs /\
              Permutation (map Fulfilled rs) (map fn items) /\
              List.length rs = List.length items) /\
  (Exists (fun item => exists e, fn item = Rejected e) items ->
   exists e item, asyncPool concurrency fn sched items = Rejected e /\
                  In item items /\ fn item = Rejected e).
Proof.
  pose proof (asyncPool_settlements sched items) as H.
  destruct (asyncPool concurrency fn sched items) as [rs|e]; split.
  - intros _. exists rs. repeat split; [exact H|].
    apply Permutation_length in H. now rewrite !length_map in H.
  - intros Hex. exfalso. apply Exists_exists in Hex.
    destruct Hex as (item & Hin & e & He).
    assert (Hr : In (Rejected e) (map fn items))
      by (rewrite <- He; now apply in_map).
    eapply Permutation_in in Hr; [|symmetry; exact H].
    apply in_map_iff in Hr. destruct Hr as (r & Hr & _). discriminate.
  - intros Hall. exfalso. destruct H as (item & Hin & He).
    rewrite Forall_forall in Hall. destruct (Hall _ Hin) as [r Hr]. congruence.
  - intros _. destruct H as (item & Hin & He). eauto.
Qed.

End AsyncPoolFacts.

(** C5 fails as stated: the rejection of one unit of work leaves the pool
    as a rejection, whatever the limit and the order of settlement, and no
    result is returned. *)
Lemma asyncPool_propagates_rejection :
  LinkScanner.asyncPool 5 failing_on_b [] ["a"; "b"; "c"]
    = LinkScanner.Rejected "boom" /\
  LinkScanner.asyncPool 1 failing_on_b [] ["a"; "b"; "c"]
    = LinkScanner.Rejected "boom" /\
  LinkScanner.asyncPool 2 failing_on_b [(1%nat, []); (0%nat, [0%nat])] ["a"; "b"; "c"]
    = LinkScanner.Rejected "boom" /\
  ~ (exists rs, LinkScanner.asyncPool 5 failing_on_b [] ["a"; "b"; "c"]
                = LinkScanner.Fulfilled rs /\ List.length rs = 3%nat).
Proof.
  repeat split. intros (rs & H & _). discriminate H.
Qed.

(** Without a rejection the results come in the order of settlement. *)
Example asyncPool_completion_order :
  LinkScanner.asyncPool 2 (fun s => LinkScanner.Fulfilled (String.length s))
    [(1%nat, []); (1%nat, [])] ["a"; "bb"; "ccc"]
  = LinkScanner.Fulfilled [2; 3; 1]%nat /\
  LinkScanner.asyncPool 5 (fun s => LinkScanner.Fulfilled (String.length s))
    [] ["a"; "bb"; "ccc"]
  = LinkScanner.Fulfilled [1; 2; 3]%nat.
Proof. split; reflexivity. Qed.

(* ===================================================================== *)
(** ** The crawl loop of scanSite                                         *)
(* ===================================================================== *)

Section CrawlFacts.
Context `{P : Platform}.
Import LinkScanner JSSetFacts.

Variable browser : Browser.
Variable baseOrigin : string.
Variable excludeRegexes : list RegExp.
Variable timeout : Z.
Variable maxPages : Z.

Lemma crawl_step_allowed st ev st' :
  crawl_step browser baseOrigin excludeRegexes timeout maxPages st = Some (ev, st') ->
  visits_allowed excludeRegexes st ->
  visits_allowed excludeRegexes st' /\ event_allowed excludeRegexes ev.
Proof.
  unfold crawl_step. intros H Hinv.
  destruct ((0 <? List.length (toVisit st))%nat
            && (Z.of_nat (JSSet.size (visited st)) <? maxPages)%Z); [|discriminate].
  destruct (toVisit st) as [|url rest]; [discriminate|].
  destruct (JSSet.has (visited st) url) eqn:Hv.
  { injection H as <- <-. split; [exact Hinv|].
    apply Hinv. now apply has_In. }
  fold (excluded excludeRegexes url) in H.
  destruct (excluded excludeRegexes url) eqn:Hx.
  { injection H as <- <-. split; [exact Hinv | exact Hx]. }
  assert (Hadd : forall v, In v (JSSet.add (visited st) url) ->
                           excluded excludeRegexes v = false).
  { intros v Hin. apply add_In in Hin. destruct Hin as [Hin| ->]; auto. }
  destruct (browser url timeout) as [page|].
  - destruct (fold_left _ _ _) as [allLinks' toVisit'].
    injection H as <- <-. split; [exact Hadd | exact Hx].
  - injection H as <- <-. split; [exact Hadd | exact Hx].
Qed.

Lemma crawl_trace_allowed n st :
  visits_allowed excludeRegexes st ->
  Forall (fun '(ev, st') => visits_allowed excludeRegexes st' /\ event_allowed excludeRegexes ev)
    (crawl_trace browser baseOrigin excludeRegexes timeout maxPages n st).
Proof.
  revert st. induction n as [|n IH]; intros st Hinv; simpl; [constructor|].
  destruct (crawl_step _ _ _ _ _ st) as [[ev st']|] eqn:E; [|constructor].
  destruct (crawl_step_allowed _ _ _ E Hinv) as [H1 H2].
  constructor; [split; assumption | apply IH, H1].
Qed.



(** C9, as the code has it: a URL that was shifted and discarded for an
    exclusion pattern is in the visited set after no turn of the crawl,
    and every turn that shifts it again discards it again. (It may enter
    the queue again: the queue admits every link that is neither visited
    nor queued.) *)
Theorem crawl_excluded_never_visited (rootUrl : string) (n i : nat)
  (u : string) (st_i : CrawlState) :
  let trace :=
    crawl_trace browser baseOrigin excludeRegexes timeout maxPages n
      (crawl_init rootUrl) in
  nth_error trace i = Some (Excluded u, st_i) ->
  Forall (fun '(ev, st) =>
            JSSet.has (visited st) u = false /\
            (event_url ev = u -> ev = Excluded u))
    trace.
Proof.
  intros trace Hi.
  assert (Hall : Forall (fun '(ev, st') => visits_allowed excludeRegexes st' /\ event_allowed excludeRegexes ev) trace)
    by (apply crawl_trace_allowed; intros v []).
  assert (Hu : excluded excludeRegexes u = true).
  { apply nth_error_In in Hi. rewrite Forall_forall in Hall.
    exact (proj2 (Hall _ Hi)). }
  eapply Forall_impl; [|exact Hall].
  intros [ev st] [Hv He]. split.
  - destruct (JSSet.has (visited st) u) eqn:E; [|reflexivity].
    apply has_In in E. apply Hv in E. congruence.
  - intros Eu. destruct ev as [url|url|url|url]; simpl in Eu, He; subst url;
      [congruence | reflexivity | congruence | congruence].
Qed.

End CrawlFacts.

(** C9 fails as stated: [/private] is discarded in the second turn and is
    back in the queue after the third, when the page [/a] that links to it
    has been crawled; the fourth turn discards it again. *)
Lemma crawl_requeues_excluded_url :
  let trace :=
    LinkScanner.crawl_trace two_page_site "https://example.com" ["private"]
      15000 100 10 (LinkScanner.crawl_init "https://example.com/") in
  map (fun '(ev, st) => (ev, LinkScanner.toVisit st)) trace =
    [ (LinkScanner.Crawled "https://example.com/",
       ["https://example.com/private"; "https://example.com/a"]);
      (LinkScanner.Excluded "https://example.com/private",
       ["https://example.com/a"]);
      (LinkScanner.Crawled "https://example.com/a",
       ["https://example.com/private"]);
      (LinkScanner.Excluded "https://example.com/private", []) ] /\
  option_map fst (nth_error trace 1) =
    Some (LinkScanner.Excluded "https://example.com/private") /\
  option_map (fun '(_, st) =>
                JS.includes (LinkScanner.toVisit st) "https://example.com/private")
    (nth_error trace 2) = Some true.
Proof. repeat split. Qed.

Lemma crawl_excluded_never_visited_witness :
  let trace :=
    LinkScanner.crawl_trace two_page_site "https://example.com" ["private"]
      15000 100 10 (LinkScanner.crawl_init "https://example.com/") in
  option_map fst (nth_error trace 1) =
    Some (LinkScanner.Excluded "https://example.com/private") /\
  Forall (fun '(ev, st) =>
            JSSet.has (LinkScanner.visited st) "https://example.com/private" = false /\
            (event_url ev = "https://example.com/private" ->
             ev = LinkScanner.Excluded "https://example.com/private"))
    trace.
Proof.
  intros trace. split; [reflexivity|].
  destruct (nth_error trace 1) as [[ev st]|] eqn:E; [|discriminate].
  assert (Hev : ev = LinkScanner.Excluded "https://example.com/private")
    by (vm_compute in E; congruence).
  subst ev.
  exact (crawl_excluded_never_visited two_page_site "https://example.com"
           ["private"] 15000 100 "https://example.com/" 10 1
           "https://example.com/private" st E).
Defined.

(** Without exclusion patterns both pages are crawled, [/private] fails to
    load, and its entry of [allLinks] holds the two pages that link to it;
    the result recorded for it in phase 2 names the first of them only. *)
Example scan_keeps_first_source_page :
  let start := LinkScanner.crawl_init "https://example.com/" in
  let trace :=
    LinkScanner.crawl_trace two_page_site "https://example.com" [] 15000 100 10
      start in
  let final := last (map snd trace) start in
  map fst trace =
    [ LinkScanner.Crawled "https://example.com/";
      LinkScanner.CrawlFailed "https://example.com/private";
      LinkScanner.Crawled "https://example.com/a" ] /\
  LinkScanner.allLinks final =
    [ ("https://example.com/private",
       ["https://example.com/"; "https://example.com/a"]);
      ("https://example.com/a", ["https://example.com/"]) ] /\
  map (fun e =>
         let r := LinkScanner.linkResult private_missing 15000 true e in
         (href r, statusCode r, sourcePage r))
    (LinkScanner.allLinks final) =
    [ ("https://example.com/private", Some 404%Z, "https://example.com/");
      ("https://example.com/a", Some 200%Z, "https://example.com/") ].
Proof. repeat split. Qed.

(* ===================================================================== *)
(** ** Lists and arrays                                                  *)
(* ===================================================================== *)

Module ListFacts.

Lemma includes_In arr x : JS.includes arr x = true <-> In x arr.
Proof.
  unfold JS.includes. rewrite existsb_exists. split.
  - intros (y & Hy & E). apply String.eqb_eq in E. now subst.
  - intros H. exists x. split; [exact H | apply String.eqb_refl].
Qed.

Lemma filter_includes_self (seg : list string) :
  filter (JS.includes seg) seg = seg.
Proof.
  apply forallb_filter_id. apply forallb_forall. intros x. apply includes_In.
Qed.

Lemma NoDup_map_inj {A B : Type} (f : A -> B) (l : list A) a b :
  NoDup (map f l) -> In a l -> In b l -> f a = f b -> a = b.
Proof.
  induction l as [|x l IH]; simpl; [contradiction|].
  intros Hnd Ha Hb E. inversion Hnd as [|? ? Hx Hl]; subst.
  destruct Ha as [->|Ha], Hb as [->|Hb]; auto.
  - exfalso. apply Hx. rewrite E. now apply in_map.
  - exfalso. apply Hx. rewrite <- E. now apply in_map.
Qed.

Lemma NoDup_map_filter {A B : Type} (key : A -> B) (keep : A -> bool)
  (items : list A) :
  NoDup (map key items) -> NoDup (map key (filter keep items)).
Proof.
  induction items as [|x items IH]; simpl; [auto|].
  intros Hnd. inversion Hnd as [|? ? Hx Hl]; subst.
  destruct (keep x); simpl; [|auto].
  constructor; [|auto]. intros Hin. apply Hx.
  apply in_map_iff in Hin. destruct Hin as (y & E & Hy).
  apply filter_In in Hy. rewrite <- E. apply in_map, Hy.
Qed.

Lemma NoDup_map_filters {A B : Type} (f : A -> B) (p q : A -> bool) (l : list A) :
  NoDup (map f l) ->
  (forall x, p x = true -> q x = false) ->
  forall y, In y (map f (filter p l)) -> ~ In y (map f (filter q l)).
Proof.
  intros Hnd Hpq y Hp Hq.
  apply in_map_iff in Hp. destruct Hp as (a & Ea & Ha).
  apply in_map_iff in Hq. destruct Hq as (b & Eb & Hb).
  apply filter_In in Ha. apply filter_In in Hb.
  assert (a = b) by (eapply NoDup_map_inj; [exact Hnd| | |congruence]; tauto).
  subst b. destruct Ha as [_ Ha]. apply Hpq in Ha. destruct Hb. congruence.
Qed.

Lemma Permutation_map_inj {A B : Type} (f : A -> B) (l1 l2 : list A) :
  (forall x y, f x = f y -> x = y) ->
  Permutation (map f l1) (map f l2) -> Permutation l1 l2.
Proof.
  intros Hinj H. apply Permutation_map_inv in H. destruct H as (l3 & E & Hp).
  assert (l1 = l3).
  { clear Hp. revert l3 E. induction l1 as [|x l1 IH]; intros [|y l3]; simpl;
      try discriminate; [reflexivity|].
    intros [= E1 E2]. f_equal; auto. }
  subst l3. now symmetry.
Qed.

End ListFacts.

(* ===================================================================== *)
(** ** levenshtein                                                       *)
(* ===================================================================== *)

Module LevFacts.
Import LinkFixer.

Lemma get_lt s i : (i < String.length s)%nat -> exists c, String.get i s = Some c.
Proof.
  revert i. induction s as [|c s IH]; simpl; intros i H; [lia|].
  destruct i as [|i]; [eauto|]. apply IH. lia.
Qed.

Lemma get_ge s i : (String.length s <= i)%nat -> String.get i s = None.
Proof.
  revert i. induction s as [|c s IH]; simpl; intros i H; [now destruct i|].
  destruct i as [|i]; [lia|]. apply IH. lia.
Qed.

Lemma get_app_length pre c s :
  String.get (String.length pre) (pre ++ String c s) = Some c.
Proof. induction pre as [|x pre IH]; simpl; [reflexivity | exact IH]. Qed.

Lemma string_length_app (a b : string) :
  String.length (a ++ b) = (String.length a + String.length b)%nat.
Proof. induction a as [|x a IH]; simpl; [reflexivity | now rewrite IH]. Qed.

Lemma fill_row_length bc a prev left :
  List.length prev = S (String.length a) ->
  List.length (fill_row bc a prev left) = String.length a.
Proof.
  revert prev left. induction a as [|ac a IH]; intros prev left H; simpl.
  - reflexivity.
  - destruct prev as [|d [|u prev]]; simpl in H; try lia.
    simpl. rewrite IH; [reflexivity | simpl; lia].
Qed.

Lemma row_at_length a b k : List.length (row_at a b k) = S (String.length a).
Proof.
  induction k as [|k IH]; simpl.
  - unfold row0. now rewrite length_seq.
  - destruct (String.get k b); [|exact IH].
    unfold next_row. simpl. now rewrite fill_row_length.
Qed.

Lemma fill_rows_row_at a b suffix pre :
  b = (pre ++ suffix)%string ->
  fill_rows a suffix (S (String.length pre)) (row_at a b (String.length pre))
  = row_at a b (String.length b).
Proof.
  revert pre. induction suffix as [|bc s IH]; intros pre ->; simpl.
  - now rewrite StringFacts.append_nil_r.
  - specialize (IH (pre ++ String bc "")%string).
    rewrite StringFacts.append_assoc in IH. simpl in IH.
    specialize (IH eq_refl).
    rewrite string_length_app in IH. simpl in IH.
    rewrite Nat.add_1_r in IH. simpl in IH.
    rewrite get_app_length in IH. exact IH.
Qed.

Lemma levenshtein_cell a b :
  levenshtein a b = cell a b (String.length b) (String.length a).
Proof.
  unfold levenshtein, cell.
  pose proof (fill_rows_row_at a b b "" eq_refl) as E.
  cbn [String.length row_at] in E. unfold row0 in E. rewrite E.
  pose proof (row_at_length a b (String.length b)) as H.
  destruct (row_at a b (String.length b)) as [|x l] using rev_ind.
  - discriminate.
  - rewrite last_last. rewrite List.length_app in H. simpl in H.
    replace (String.length a) with (List.length l) by lia.
    now rewrite nth_middle.
Qed.

Lemma cell_row0 a b j : (j <= String.length a)%nat -> cell a b 0 j = j.
Proof. intros H. unfold cell. cbn [row_at]. unfold row0. rewrite seq_nth; lia. Qed.

Lemma cell_col0 a b i : (i <= String.length b)%nat -> cell a b i 0 = i.
Proof.
  intros H. unfold cell. destruct i as [|i]; [reflexivity|]. simpl.
  destruct (get_lt b i ltac:(lia)) as [c ->]. reflexivity.
Qed.

Lemma fill_row_nth bc a prev left j ac :
  List.length prev = S (String.length a) ->
  String.get j a = Some ac ->
  nth (S j) (left :: fill_row bc a prev left) 0%nat =
  if Ascii.eqb bc ac then nth j prev 0%nat
  else (Nat.min (Nat.min (nth j prev 0 + 1)
                         (nth j (left :: fill_row bc a prev left) 0 + 1))
                (nth (S j) prev 0 + 1))%nat.
Proof.
  revert prev left j. induction a as [|c0 a IH]; intros prev left j Hl Hg.
  - destruct j; discriminate.
  - destruct prev as [|d [|u prev]]; simpl in Hl; try lia.
    destruct j as [|j].
    + simpl in Hg. injection Hg as ->. reflexivity.
    + simpl in Hg. cbn [fill_row].
      set (cell0 := if Ascii.eqb bc c0 then d
                    else (Nat.min (Nat.min (d + 1) (left + 1)) (u + 1))%nat).
      change (nth (S (S j)) (left :: cell0 :: fill_row bc a (u :: prev) cell0) 0%nat)
        with (nth (S j) (cell0 :: fill_row bc a (u :: prev) cell0) 0%nat).
      rewrite (IH (u :: prev) cell0 j); [|simpl; lia|exact Hg].
      reflexivity.
Qed.

Lemma cell_step a b i j bc ac :
  String.get i b = Some bc ->
  String.get j a = Some ac ->
  cell a b (S i) (S j) =
  if Ascii.eqb bc ac then cell a b i j
  else (Nat.min (Nat.min (cell a b i j + 1) (cell a b (S i) j + 1))
                (cell a b i (S j) + 1))%nat.
Proof.
  intros Hb Ha. unfold cell. simpl. rewrite Hb. unfold next_row.
  apply fill_row_nth; [apply row_at_length | exact Ha].
Qed.

Lemma cell_upper a b i j :
  (i <= String.length b)%nat -> (j <= String.length a)%nat ->
  (cell a b i j <= Nat.max i j)%nat.
Proof.
  revert j. induction i as [|i IH]; intros j Hi Hj.
  - rewrite cell_row0 by exact Hj. lia.
  - destruct j as [|j]; [rewrite cell_col0 by exact Hi; lia|].
    destruct (get_lt b i ltac:(lia)) as [bc Hb].
    destruct (get_lt a j ltac:(lia)) as [ac Ha].
    rewrite (cell_step _ _ _ _ _ _ Hb Ha).
    specialize (IH j ltac:(lia) ltac:(lia)).
    destruct (Ascii.eqb bc ac); lia.
Qed.

Lemma cell_lower a b i j :
  (i <= String.length b)%nat -> (j <= String.length a)%nat ->
  (i <= cell a b i j + j /\ j <= cell a b i j + i)%nat.
Proof.
  revert j. induction i as [|i IH]; intros j Hi Hj.
  - rewrite cell_row0 by exact Hj. lia.
  - induction j as [|j IHj]; [rewrite cell_col0 by exact Hi; lia|].
    destruct (get_lt b i ltac:(lia)) as [bc Hb].
    destruct (get_lt a j ltac:(lia)) as [ac Ha].
    rewrite (cell_step _ _ _ _ _ _ Hb Ha).
    pose proof (IH j ltac:(lia) ltac:(lia)).
    pose proof (IH (S j) ltac:(lia) ltac:(lia)).
    specialize (IHj ltac:(lia)).
    destruct (Ascii.eqb bc ac); lia.
Qed.

Lemma cell_diag a i : (i <= String.length a)%nat -> cell a a i i = 0%nat.
Proof.
  induction i as [|i IH]; intros Hi; [now apply cell_row0|].
  destruct (get_lt a i ltac:(lia)) as [c Hc].
  rewrite (cell_step _ _ _ _ _ _ Hc Hc), Ascii.eqb_refl. apply IH. lia.
Qed.

Lemma cell_sym a b i j :
  (i <= String.length b)%nat -> (j <= String.length a)%nat ->
  cell a b i j = cell b a j i.
Proof.
  revert j. induction i as [|i IH]; intros j Hi Hj.
  - now rewrite cell_row0, cell_col0.
  - induction j as [|j IHj]; [now rewrite cell_col0, cell_row0|].
    destruct (get_lt b i ltac:(lia)) as [bc Hb].
    destruct (get_lt a j ltac:(lia)) as [ac Ha].
    rewrite (cell_step a b _ _ _ _ Hb Ha), (cell_step b a _ _ _ _ Ha Hb).
    rewrite (Ascii.eqb_sym ac bc).
    rewrite <- (IH j), <- (IH (S j)), <- IHj by lia.
    destruct (Ascii.eqb bc ac); lia.
Qed.

Lemma cell_zero a b i :
  (i <= String.length b)%nat -> (i <= String.length a)%nat ->
  cell a b i i = 0%nat ->
  forall k, (k < i)%nat -> String.get k b = String.get k a.
Proof.
  induction i as [|i IH]; intros Hb Ha H0 k Hk; [lia|].
  destruct (get_lt b i ltac:(lia)) as [bc Ebc].
  destruct (get_lt a i ltac:(lia)) as [ac Eac].
  rewrite (cell_step _ _ _ _ _ _ Ebc Eac) in H0.
  destruct (Ascii.eqb_spec bc ac) as [->|]; [|lia].
  destruct (Nat.eq_dec k i) as [->|]; [congruence|].
  apply IH; lia.
Qed.

End LevFacts.

Section Levenshtein.
Import LinkFixer LevFacts.

(** X1: the distance of two strings is 0 exactly when they are equal. *)
Theorem levenshtein_zero_iff (a b : string) :
  levenshtein a b = 0%nat <-> a = b.
Proof.
  split; [|intros ->; rewrite levenshtein_cell; now apply cell_diag].
  rewrite levenshtein_cell. intros H.
  pose proof (cell_lower a b (String.length b) (String.length a)
                (Nat.le_refl _) (Nat.le_refl _)) as Hl.
  assert (El : String.length a = String.length b) by lia.
  rewrite <- El in H.
  apply String.get_correct. intros k.
  destruct (Nat.lt_ge_cases k (String.length a)) as [Hk|Hk].
  - symmetry. apply (cell_zero a b (String.length a)); lia.
  - rewrite !get_ge; [reflexivity | lia | lia].
Qed.

(** X2: the distance lies between the difference of the two lengths and
    the greater length; from the empty string it is the length of the
    other string. *)
Theorem levenshtein_bounds (a b : string) :
  (String.length a - String.length b <= levenshtein a b /\
   String.length b - String.length a <= levenshtein a b /\
   levenshtein a b <= Nat.max (String.length a) (String.length b))%nat /\
  levenshtein "" b = String.length b /\
  levenshtein a "" = String.length a.
Proof.
  assert (G : forall a b,
    (String.length a - String.length b <= levenshtein a b /\
     String.length b - String.length a <= levenshtein a b /\
     levenshtein a b <= Nat.max (String.length a) (String.length b))%nat).
  { intros x y. rewrite levenshtein_cell.
    pose proof (cell_upper x y (String.length y) (String.length x)
                  (Nat.le_refl _) (Nat.le_refl _)).
    pose proof (cell_lower x y (String.length y) (String.length x)
                  (Nat.le_refl _) (Nat.le_refl _)).
    lia. }
  split; [apply G|].
  pose proof (G "" b) as H1. pose proof (G a "") as H2. simpl in H1, H2.
  lia.
Qed.

(** X3: the distance does not depend on the order of its arguments. *)
Theorem levenshtein_sym (a b : string) : levenshtein a b = levenshtein b a.
Proof. rewrite !levenshtein_cell. now apply cell_sym. Qed.

(** Neighbours of the table differ by at most one: along row [i], and
    between the rows [i] and [i + 1]. *)
Lemma cell_neighbours a b i :
  (i <= String.length b)%nat ->
  (forall j, (j < String.length a)%nat ->
     (cell a b i j <= cell a b i (S j) + 1 /\
      cell a b i (S j) <= cell a b i j + 1)%nat) /\
  ((i < String.length b)%nat ->
   forall j, (j <= String.length a)%nat ->
     (cell a b i j <= cell a b (S i) j + 1 /\
      cell a b (S i) j <= cell a b i j + 1)%nat).
Proof.
  induction i as [|i IH]; intros Hi.
  - assert (H0 : forall j, (j < String.length a)%nat ->
      (cell a b 0 j <= cell a b 0 (S j) + 1 /\
       cell a b 0 (S j) <= cell a b 0 j + 1)%nat).
    { intros j Hj. rewrite !cell_row0 by lia. lia. }
    split; [exact H0|]. intros Hlt j. induction j as [|j IHj]; intros Hj.
    + rewrite !cell_col0 by lia. lia.
    + destruct (get_lt b 0 ltac:(lia)) as [bc Hb].
      destruct (get_lt a j ltac:(lia)) as [ac Ha].
      rewrite (cell_step _ _ _ _ _ _ Hb Ha).
      specialize (H0 j ltac:(lia)). specialize (IHj ltac:(lia)).
      destruct (Ascii.eqb bc ac); lia.
  - destruct (IH ltac:(lia)) as [Hrow Hcol].
    specialize (Hcol ltac:(lia)).
    assert (Hrow' : forall j, (j < String.length a)%nat ->
      (cell a b (S i) j <= cell a b (S i) (S j) + 1 /\
       cell a b (S i) (S j) <= cell a b (S i) j + 1)%nat).
    { intros j Hj.
      destruct (get_lt b i ltac:(lia)) as [bc Hb].
      destruct (get_lt a j ltac:(lia)) as [ac Ha].
      rewrite (cell_step _ _ _ _ _ _ Hb Ha).
      specialize (Hrow j Hj). pose proof (Hcol j ltac:(lia)).
      destruct (Ascii.eqb bc ac); lia. }
    split; [exact Hrow'|]. intros Hlt j. induction j as [|j IHj]; intros Hj.
    + rewrite !cell_col0 by lia. lia.
    + destruct (get_lt b (S i) ltac:(lia)) as [bc Hb].
      destruct (get_lt a j ltac:(lia)) as [ac Ha].
      rewrite (cell_step _ _ _ _ _ _ Hb Ha).
      specialize (Hrow' j ltac:(lia)). specialize (IHj ltac:(lia)).
      destruct (Ascii.eqb bc ac); lia.
Qed.

(** X25: the matrix that [levenshtein] fills is the table of the edit
    distance: its first row and column count insertions and deletions,
    every other cell is the least of its three neighbours plus the cost of
    the step (a substitution is free when the two characters agree), and
    the result is the last cell. *)
Theorem levenshtein_table (a b : string) :
  levenshtein a b = cell a b (String.length b) (String.length a) /\
  (forall j, (j <= String.length a)%nat -> cell a b 0 j = j) /\
  (forall i, (i <= String.length b)%nat -> cell a b i 0 = i) /\
  (forall i j bc ac,
     String.get i b = Some bc -> String.get j a = Some ac ->
     cell a b (S i) (S j) =
     Nat.min (Nat.min (cell a b i j + (if Ascii.eqb bc ac then 0 else 1))
                      (cell a b (S i) j + 1))
             (cell a b i (S j) + 1))%nat.
Proof.
  split; [apply levenshtein_cell|].
  split; [intros j Hj; now apply cell_row0|].
  split; [intros i Hi; now apply cell_col0|].
  intros i j bc ac Hb Ha.
  assert (Hi : (i < String.length b)%nat).
  { destruct (Nat.lt_ge_cases i (String.length b)) as [H|H]; [exact H|].
    rewrite get_ge in Hb by exact H. discriminate. }
  assert (Hj : (j < String.length a)%nat).
  { destruct (Nat.lt_ge_cases j (String.length a)) as [H|H]; [exact H|].
    rewrite get_ge in Ha by exact H. discriminate. }
  rewrite (cell_step _ _ _ _ _ _ Hb Ha).
  destruct (cell_neighbours a b i ltac:(lia)) as [Hrow Hcol].
  specialize (Hrow j Hj). specialize (Hcol Hi j ltac:(lia)).
  destruct (Ascii.eqb bc ac); lia.
Qed.

End Levenshtein.

(* ===================================================================== *)
(** ** pathSimilarity and the fixes of computeFixes                      *)
(* ===================================================================== *)

Module NumFacts.

Lemma num_nonneg n : 0 <= JS.num n.
Proof. unfold JS.num. change 0 with (inject_Z 0). rewrite <- Zle_Qle. lia. Qed.

Lemma num_pos n : (0 < n)%nat -> 0 < JS.num n.
Proof. intros H. unfold JS.num. change 0 with (inject_Z 0). rewrite <- Zlt_Qlt. lia. Qed.

Lemma num_le n m : (n <= m)%nat -> JS.num n <= JS.num m.
Proof. intros H. unfold JS.num. rewrite <- Zle_Qle. lia. Qed.

Lemma ratio_range n m :
  (n <= m)%nat -> (0 < m)%nat -> 0 <= JS.num n / JS.num m /\ JS.num n / JS.num m <= 1.
Proof.
  intros Hle Hm. pose proof (num_pos m Hm) as Hp. split.
  - apply Qle_shift_div_l; [exact Hp|]. rewrite Qmult_0_l. apply num_nonneg.
  - apply Qle_shift_div_r; [exact Hp|]. rewrite Qmult_1_l. now apply num_le.
Qed.

Lemma ratio_self n : (0 < n)%nat -> JS.num n / JS.num n == 1.
Proof.
  intros H. apply Qmult_inv_r. intros E. pose proof (num_pos n H) as Hp.
  rewrite E in Hp. exact (Qlt_irrefl _ Hp).
Qed.

Lemma Qlt_bool_iff x y : JS.Qlt_bool x y = true <-> x < y.
Proof.
  unfold JS.Qlt_bool. rewrite negb_true_iff. split.
  - intros H. apply Qnot_le_lt. intros Hle. apply Qle_bool_iff in Hle. congruence.
  - intros H. destruct (Qle_bool y x) eqn:E; [|reflexivity].
    apply Qle_bool_iff in E. lra.
Qed.

End NumFacts.

Section Similarity.
Context `{P : Platform}.
Import LinkFixer NumFacts LevFacts ListFacts.

Lemma similarity_bounds (urlA urlB : string) :
  0 <= pathSimilarity urlA urlB /\ pathSimilarity urlA urlB <= 1.
Proof.
  unfold pathSimilarity. cbv zeta.
  set (segA := pathSegments urlA). set (segB := pathSegments urlB).
  destruct ((List.length segA =? 0)%nat && (List.length segB =? 0)%nat) eqn:E1;
    [split; discriminate|].
  destruct ((List.length segA =? 0)%nat || (List.length segB =? 0)%nat) eqn:E2;
    [split; discriminate|].
  apply orb_false_iff in E2 as [HA HB].
  apply Nat.eqb_neq in HA, HB.
  set (matches := List.length (filter (JS.includes segB) segA)).
  set (maxLen := Nat.max (List.length segA) (List.length segB)).
  set (pathA := JS.join "/" segA). set (pathB := JS.join "/" segB).
  set (maxPathLen := Nat.max (String.length pathA) (String.length pathB)).
  assert (Hs : 0 <= JS.num matches / JS.num maxLen /\
               JS.num matches / JS.num maxLen <= 1).
  { apply ratio_range; [|unfold maxLen; lia].
    unfold matches, maxLen. pose proof (filter_length_le (JS.includes segB) segA). lia. }
  assert (He : 0 <= (if (0 <? maxPathLen)%nat
                     then 1 - JS.num (levenshtein pathA pathB) / JS.num maxPathLen
                     else 1) /\
               (if (0 <? maxPathLen)%nat
                then 1 - JS.num (levenshtein pathA pathB) / JS.num maxPathLen
                else 1) <= 1).
  { destruct (Nat.ltb_spec 0 maxPathLen) as [Hm|Hm]; [|split; discriminate].
    destruct (ratio_range (levenshtein pathA pathB) maxPathLen) as [H1 H2];
      [|exact Hm|lra].
    rewrite levenshtein_cell.
    pose proof (cell_upper pathA pathB (String.length pathB) (String.length pathA)
                  (Nat.le_refl _) (Nat.le_refl _)).
    unfold maxPathLen. lia. }
  lra.
Qed.
Lemma bestMatch_snoc h good g :
  bestMatch h (good ++ [g]) =
  if JS.Qlt_bool (scoreOf (bestMatch h good)) (pathSimilarity h g)
  then Some (g, pathSimilarity h g) else bestMatch h good.
Proof. unfold bestMatch. now rewrite fold_left_app. Qed.

Lemma bestMatch_spec h good :
  match bestMatch h good with
  | Some (u, s) =>
      s = pathSimilarity h u /\ 0 < s /\
      exists before after,
        good = before ++ u :: after /\
        (forall g, In g before -> pathSimilarity h g < s) /\
        (forall g, In g after -> pathSimilarity h g <= s)
  | None => forall g, In g good -> pathSimilarity h g <= 0
  end.
Proof.
  induction good as [|g good IH] using rev_ind; [intros g []|].
  rewrite bestMatch_snoc.
  destruct (JS.Qlt_bool (scoreOf (bestMatch h good)) (pathSimilarity h g)) eqn:E.
  - apply Qlt_bool_iff in E.
    destruct (bestMatch h good) as [[u s]|]; simpl in E.
    + destruct IH as (Es & Hpos & before & after & -> & Hb & Ha).
      split; [reflexivity|]. split; [lra|].
      exists (before ++ u :: after), []. split; [reflexivity|]. split; [|intros ? []].
      intros x Hx. apply in_app_iff in Hx. destruct Hx as [Hx|[<-|Hx]].
      * specialize (Hb x Hx). lra.
      * rewrite <- Es. exact E.
      * specialize (Ha x Hx). lra.
    + split; [reflexivity|]. split; [exact E|].
      exists good, []. split; [reflexivity|]. split; [|intros ? []].
      intros x Hx. specialize (IH x Hx). lra.
  - assert (Hle : pathSimilarity h g <= scoreOf (bestMatch h good)).
    { apply Qnot_lt_le. intros H. apply Qlt_bool_iff in H. congruence. }
    destruct (bestMatch h good) as [[u s]|]; simpl in Hle.
    + destruct IH as (Es & Hpos & before & after & -> & Hb & Ha).
      split; [exact Es|]. split; [exact Hpos|].
      exists before, (after ++ [g]). split; [now rewrite <- app_assoc|].
      split; [exact Hb|].
      intros x Hx. apply in_app_iff in Hx. destruct Hx as [Hx|[<-|[]]]; auto.
    + intros x Hx. apply in_app_iff in Hx. destruct Hx as [Hx|[<-|[]]]; auto.
Qed.

Lemma fuzzyFix_inv minConf good h pages f :
  fuzzyFix minConf good h pages = Some f ->
  method f <> redirect_target /\
  bestMatch h good = Some (suggestedHref f, confidence f) /\
  minConf <= confidence f /\ originalHref f = h /\ sourcePages f = pages.
Proof.
  unfold fuzzyFix. destruct (bestMatch h good) as [[u s]|]; [|discriminate].
  destruct (Qle_bool minConf s) eqn:E; [|discriminate].
  apply Qle_bool_iff in E. intros [= <-]. simpl.
  repeat split; try assumption.
  destruct (0 <? _)%nat; discriminate.
Qed.

Lemma fixFor_inv minConf good targets h pages f :
  fixFor minConf good targets (h, pages) = Some f ->
  originalHref f = h /\ sourcePages f = pages /\ minConf <= confidence f /\
  ((method f = redirect_target /\
    JSMap.get targets h = Some (suggestedHref f) /\
    confidence f = 95 # 100) \/
   (method f <> redirect_target /\
    bestMatch h good = Some (suggestedHref f, confidence f))).
Proof.
  assert (Hf : fuzzyFix minConf good h pages = Some f ->
    originalHref f = h /\ sourcePages f = pages /\ minConf <= confidence f /\
    ((method f = redirect_target /\
      JSMap.get targets h = Some (suggestedHref f) /\
      confidence f = 95 # 100) \/
     (method f <> redirect_target /\
      bestMatch h good = Some (suggestedHref f, confidence f)))).
  { intros H. apply fuzzyFix_inv in H. intuition. }
  unfold fixFor.
  destruct (JSMap.get targets h) as [t|]; [|exact Hf].
  destruct (JS.truthy (Some t)); [|exact Hf].
  destruct (Qle_bool minConf (95 # 100)) eqn:E; [|exact Hf].
  apply Qle_bool_iff in E. intros [= <-]. simpl. intuition.
Qed.

Lemma computeFixes_In broken good redirects options f :
  In f (computeFixes broken good redirects options) ->
  exists pages,
    In (originalHref f, pages) (JSMap.entries (brokenByUrl broken)) /\
    fixFor (thresholdOf options) good (redirectTargets redirects)
      (originalHref f, pages) = Some f.
Proof.
  intros H. eapply Permutation_in in H; [|apply computeFixes_perm].
  rewrite collectFixes_flat_map in H. apply in_flat_map in H.
  destruct H as ([h pages] & Hin & Hf).
  destruct (fixFor _ _ _ (h, pages)) as [g|] eqn:E; [|contradiction].
  destruct Hf as [<-|[]].
  destruct (fixFor_fields _ _ _ _ _ _ E) as [Eh _]. subst h. eauto.
Qed.

Lemma brokenByUrl_entry_href broken h pages :
  In (h, pages) (JSMap.entries (brokenByUrl broken)) -> In h (map href broken).
Proof.
  intros H. apply first_seen_In. rewrite <- brokenByUrl_keys.
  change h with (fst (h, pages)). now apply in_map.
Qed.

(** X5: what every fix is made of: its confidence is at or above the
    threshold and in (0, 1], its href is that of a broken link, and it is
    either a redirect target of confidence 0.95, the final URL of a
    redirect result with that href, or a known-good URL. *)
Theorem computeFixes_sound broken good redirects options :
  Forall (fun f =>
            thresholdOf options <= confidence f /\
            0 < confidence f /\ confidence f <= 1 /\
            In (originalHref f) (map href broken) /\
            ((method f <> redirect_target /\ In (suggestedHref f) good) \/
             (method f = redirect_target /\ confidence f = 95 # 100 /\
              exists r, In r redirects /\ href r = originalHref f /\
                        finalUrl r = Some (suggestedHref f))))
    (computeFixes broken good redirects options).
Proof.
  apply Forall_forall. intros f Hf.
  destruct (computeFixes_In _ _ _ _ _ Hf) as (pages & Hin & Hfix).
  destruct (fixFor_inv _ _ _ _ _ _ Hfix) as (_ & _ & Hmin & Hcase).
  split; [exact Hmin|].
  assert (Hh := brokenByUrl_entry_href _ _ _ Hin).
  destruct Hcase as [(Hm & Hget & Hc)|(Hm & Hbest)].
  - rewrite Hc. repeat split; try (vm_compute; congruence); [exact Hh|].
    right. split; [exact Hm|]. split; [reflexivity|].
    destruct (redirectTargets_get _ _ _ Hget) as (_ & r & Hr). eauto.
  - pose proof (bestMatch_spec (originalHref f) good) as Hs.
    rewrite Hbest in Hs.
    destruct Hs as (Es & Hpos & before & after & -> & _).
    split; [exact Hpos|]. split.
    + rewrite Es. apply similarity_bounds.
    + split; [exact Hh|]. left. split; [exact Hm|]. apply in_elt.
Qed.
(** X4: the score is a number between 0 and 1, and a URL is as similar
    to itself as can be. *)
Theorem pathSimilarity_range (urlA urlB : string) :
  0 <= pathSimilarity urlA urlB /\ pathSimilarity urlA urlB <= 1 /\
  pathSimilarity urlA urlA == 1.
Proof.
  destruct (similarity_bounds urlA urlB) as [H0 H1].
  split; [exact H0|]. split; [exact H1|]. clear H0 H1.
  unfold pathSimilarity. cbv zeta.
  set (seg := pathSegments urlA).
  destruct (Nat.eqb_spec (List.length seg) 0) as [E|E]; simpl; [reflexivity|].
  rewrite filter_includes_self, !Nat.max_id.
  rewrite ratio_self by lia.
  rewrite levenshtein_cell, cell_diag by apply Nat.le_refl.
  destruct (0 <? String.length (JS.join "/" seg))%nat; [|ring].
  assert (E0 : JS.num 0 / JS.num (String.length (JS.join "/" seg)) == 0)
    by (unfold Qdiv; apply Qmult_0_l).
  rewrite E0. ring.
Qed.




(** X8: called with the threshold that [computeFixes] was given, as the
    [fix] command does, [fixesToRedirects] keeps every fix. *)
Theorem fixesToRedirects_keeps_computed broken good redirects options :
  let fixes := computeFixes broken good redirects options in
  fixesToRedirects fixes (thresholdOf options) =
  map (fun f => {| from := getPathname (originalHref f);
                   to := getPathname (suggestedHref f);
                   redirectStatus := 301 |}) fixes.
Proof.
  intros fixes. unfold fixesToRedirects. f_equal.
  apply forallb_filter_id. apply forallb_forall. intros f Hf.
  apply Qle_bool_iff.
  destruct (computeFixes_In _ _ _ _ _ Hf) as (pages & Hin & Hfix).
  now destruct (fixFor_inv _ _ _ _ _ _ Hfix) as (_ & _ & Hmin & _).
Qed.

End Similarity.

(* ===================================================================== *)
(** ** The results of checkUrl                                           *)
(* ===================================================================== *)

Section CheckUrlMore.
Context `{P : Platform}.
Import LinkScanner.
Variable fetch : Network.
Variable timeout : Z.

Lemma hop_urls_length n i url final :
  hops fetch timeout n i url = Some final ->
  List.length (hop_urls fetch timeout n i url) = n.
Proof.
  revert i url. induction n as [|n IH]; intros i url; simpl; [reflexivity|].
  destruct (followed fetch timeout i url) as [next|]; [|discriminate].
  intros H. now rewrite (IH _ _ H).
Qed.

(** How the loop ran: [k] hops were followed, then it stopped at [cur]. *)
Lemma checkUrl_loop_run follow n i url chain :
  exists k cur,
    hops fetch timeout k i url = Some cur /\
    (k <= n)%nat /\ ((0 < k)%nat -> follow = true) /\
    match checkUrl_loop fetch timeout follow n i url chain with
    | Return r =>
        check_redirectChain r = chain ++ hop_urls fetch timeout k i url /\
        ((k = n /\ check_statusCode r = None /\
          check_error r = Some "Too many redirects" /\
          check_finalUrl r = Some cur) \/
         ((k < n)%nat /\
          exists s loc,
            fetch (i + k)%nat cur timeout = Response s loc /\
            check_statusCode r = Some s /\ check_error r = None /\
            check_finalUrl r =
              if (0 <? List.length (chain ++ hop_urls fetch timeout k i url))%nat
              then Some cur else None))
    | Throw message chain' =>
        (k < n)%nat /\
        ((chain' = chain ++ hop_urls fetch timeout k i url /\
          fetch (i + k)%nat cur timeout = Failure message) \/
         (chain' = chain ++ hop_urls fetch timeout k i url ++ [cur] /\
          follow = true /\ message = "Invalid URL"))
    end.
Proof.
  revert i url chain. induction n as [|n IH]; intros i url chain.
  - exists 0%nat, url. simpl.
    split; [reflexivity|]. split; [lia|]. split; [lia|].
    split; [now rewrite app_nil_r|]. left. auto.
  - cbn [checkUrl_loop].
    assert (Hstop : forall s loc, fetch i url timeout = Response s loc ->
      exists k cur,
        hops fetch timeout k i url = Some cur /\
        (k <= S n)%nat /\ ((0 < k)%nat -> follow = true) /\
        check_redirectChain
          {| check_statusCode := Some s;
             check_finalUrl := if (0 <? List.length chain)%nat then Some url else None;
             check_redirectChain := chain; check_error := None |}
        = chain ++ hop_urls fetch timeout k i url /\
        ((k = S n /\ Some s = None /\
          @None string = Some "Too many redirects" /\
          (if (0 <? List.length chain)%nat then Some url else None) = Some cur) \/
         ((k < S n)%nat /\
          exists s' loc',
            fetch (i + k)%nat cur timeout = Response s' loc' /\
            Some s = Some s' /\ @None string = None /\
            (if (0 <? List.length chain)%nat then Some url else None) =
              if (0 <? List.length (chain ++ hop_urls fetch timeout k i url))%nat
              then Some cur else None))).
    { intros s loc E. exists 0%nat, url. simpl. rewrite Nat.add_0_r, app_nil_r.
      split; [reflexivity|]. split; [lia|]. split; [lia|].
      split; [reflexivity|]. right. split; [lia|]. exists s, loc. auto. }
    destruct (fetch i url timeout) as [s loc|message] eqn:Ef.
    + destruct ((300 <=? s)%Z && (s <? 400)%Z && follow) eqn:Ec;
        [|exact (Hstop s loc eq_refl)].
      destruct loc as [l|]; [|exact (Hstop s None eq_refl)].
      destruct (JS.truthy (Some l)) eqn:Et; [|exact (Hstop s (Some l) eq_refl)].
      apply andb_true_iff in Ec as [Es Efl]. subst follow.
      destruct (URL_resolve l url) as [next|] eqn:Er.
      * assert (Hf : followed fetch timeout i url = Some next).
        { unfold followed. now rewrite Ef, Es, Et. }
        destruct (IH (S i) next (chain ++ [url])) as (k & cur & Hh & Hk & _ & Hm).
        exists (S k), cur. simpl. rewrite Hf.
        split; [exact Hh|]. split; [lia|]. split; [reflexivity|].
        destruct (checkUrl_loop fetch timeout true n (S i) next (chain ++ [url]))
          as [r|message chain'].
        -- destruct Hm as [Hc Hm]. rewrite <- app_assoc in Hc. split; [exact Hc|].
           destruct Hm as [(-> & H1 & H2 & H3)|(Hlt & s' & loc' & H1 & H2 & H3 & H4)].
           ++ left. auto.
           ++ right. split; [lia|]. exists s', loc'.
              rewrite <- Nat.add_succ_comm. rewrite <- app_assoc in H4. auto.
        -- destruct Hm as [Hlt Hm]. split; [lia|].
           rewrite <- Nat.add_succ_comm, <- !app_assoc in *. exact Hm.
      * exists 0%nat, url. simpl.
        split; [reflexivity|]. split; [lia|]. split; [lia|].
        split; [lia|]. right. auto.
    + exists 0%nat, url. simpl. rewrite Nat.add_0_r, app_nil_r.
      split; [reflexivity|]. split; [lia|]. split; [lia|].
      split; [lia|]. left. auto.
Qed.

Lemma hop_urls_head n i url :
  match hop_urls fetch timeout n i url with
  | [] => True
  | first :: _ => first = url
  end.
Proof. destruct n; simpl; auto. Qed.

(** X9: the shape of a result: it has a status code or an error, never
    both; the chain holds at most 11 URLs (10 when there is a status, none
    without [followRedirects]) and starts with the URL checked; with a
    status, [finalUrl] is null exactly when the chain is empty. *)
Theorem checkUrl_shape (url : string) (follow : bool) :
  let r := checkUrl fetch url timeout follow in
  (check_statusCode r = None <-> check_error r <> None) /\
  (List.length (check_redirectChain r) <= if follow then 11 else 0)%nat /\
  (check_statusCode r <> None ->
   (List.length (check_redirectChain r) <= 10)%nat /\
   (check_finalUrl r = None <-> check_redirectChain r = [])) /\
  match check_redirectChain r with
  | [] => True
  | first :: _ => first = url
  end.
Proof.
  unfold checkUrl.
  set (n := S (if follow then 10 else 0)%nat).
  destruct (checkUrl_loop_run follow n 0 url []) as (k & cur & Hh & Hk & Hfl & Hm).
  pose proof (hop_urls_length _ _ _ _ Hh) as Hlen.
  pose proof (hop_urls_head k 0 url) as Hhead.
  assert (Hbound : (k <= if follow then 11 else 0)%nat).
  { destruct follow; [exact Hk|]. destruct k; [lia|].
    specialize (Hfl ltac:(lia)). discriminate. }
  destruct (checkUrl_loop fetch timeout follow n 0 url []) as [r|message chain'].
  - destruct Hm as [Hc Hm]. simpl in Hc. rewrite Hc, Hlen.
    destruct Hm as [(_ & H1 & H2 & H3)|(Hlt & s & loc & _ & H1 & H2 & H3)].
    + rewrite H1, H2. repeat split; try congruence; try exact Hbound; exact Hhead.
    + rewrite H1, H2, H3. simpl. rewrite Hlen.
      split; [split; congruence|]. split; [exact Hbound|]. split; [|exact Hhead].
      intros _. split; [unfold n in Hlt; destruct follow; lia|].
      destruct k; simpl; split; congruence.
  - simpl. destruct Hm as [Hlt [[-> _]|(-> & Hf & _)]]; simpl.
    + rewrite Hlen. repeat split; try congruence; try exact Hbound; exact Hhead.
    + subst follow. rewrite length_app, Hlen. simpl.
      split; [split; congruence|]. split; [unfold n in Hlt; lia|].
      split; [congruence|].
      destruct k; simpl in *; [congruence | exact Hhead].
Qed.

(** Where a status comes from: the response to the last request. *)
Lemma checkUrl_status_run (url : string) (follow : bool) :
  let r := checkUrl fetch url timeout follow in
  match check_statusCode r with
  | Some s =>
      let hopsMade := List.length (check_redirectChain r) in
      let last := match check_finalUrl r with Some u => u | None => url end in
      hops fetch timeout hopsMade 0 url = Some last /\
      check_redirectChain r = hop_urls fetch timeout hopsMade 0 url /\
      exists loc, fetch hopsMade last timeout = Response s loc
  | None => check_error r <> None
  end.
Proof.
  unfold checkUrl.
  set (n := S (if follow then 10 else 0)%nat).
  destruct (checkUrl_loop_run follow n 0 url []) as (k & cur & Hh & Hk & Hfl & Hm).
  pose proof (hop_urls_length _ _ _ _ Hh) as Hlen.
  destruct (checkUrl_loop fetch timeout follow n 0 url []) as [r|message chain'];
    [|simpl; congruence].
  destruct Hm as [Hc Hm]. simpl in Hc.
  destruct Hm as [Hm|(Hlt & s & loc & Hf & H1 & H2 & H3)].
  - destruct Hm as (_ & H1 & H2 & _). rewrite H1, H2. congruence.
  - rewrite H1, Hc, Hlen, H3. simpl. rewrite Hlen.
    assert (El : (if (0 <? k)%nat then Some cur else None) = Some cur \/ k = 0%nat).
    { destruct k; simpl; auto. }
    destruct El as [->| ->].
    + split; [exact Hh|]. split; [reflexivity|]. eauto.
    + simpl in *. injection Hh as <-. split; [reflexivity|]. split; [reflexivity|].
      eauto.
Qed.

(** X10: where a status comes from: it is the status of the response to
    the request that followed the hops of the chain, sent to [finalUrl]
    (to the URL checked when no hop was made). *)
Theorem checkUrl_status_source (url : string) (follow : bool) :
  let r := checkUrl fetch url timeout follow in
  match check_statusCode r with
  | Some s =>
      let hopsMade := List.length (check_redirectChain r) in
      let last := match check_finalUrl r with Some u => u | None => url end in
      hops fetch timeout hopsMade 0 url = Some last /\
      check_redirectChain r = hop_urls fetch timeout hopsMade 0 url /\
      exists loc, fetch hopsMade last timeout = Response s loc
  | None => True
  end.
Proof.
  intros r. pose proof (checkUrl_status_run url follow) as H. fold r in H.
  cbv zeta in H. destruct (check_statusCode r); [exact H | exact I].
Qed.

End CheckUrlMore.

(* ===================================================================== *)
(** ** What the crawl loop keeps true                                    *)
(* ===================================================================== *)

Module CrawlStateFacts.
Import LinkScanner JSSetFacts JSMapFacts ListFacts.

Lemma set_entry {V} (m : JSMap.t V) k v k' v' :
  NoDup (JSMap.keys m) ->
  In (k', v') (JSMap.set m k v) ->
  (k' = k /\ v' = v) \/ (k' <> k /\ In (k', v') m).
Proof.
  intros Hnd Hin.
  assert (Hnd' : NoDup (JSMap.keys (JSMap.set m k v)))
    by (rewrite keys_set; now apply add_NoDup).
  apply (In_get _ _ _ Hnd') in Hin.
  destruct (String.eqb_spec k k') as [<-|Hne].
  - rewrite get_set_same in Hin. left. split; congruence.
  - rewrite get_set_other in Hin by exact Hne. right.
    split; [congruence | now apply get_In].
Qed.

Lemma add_nonempty s x : JSSet.add s x <> [].
Proof.
  intros E. assert (H : In x (JSSet.add s x)) by (apply add_In; now right).
  rewrite E in H. exact H.
Qed.

Lemma recordLink_ok root url vis acc link :
  In url vis -> links_ok root vis acc ->
  links_ok root vis (recordLink url vis acc link).
Proof.
  destruct acc as [al tv]. intros Hurl (Htv & Hfresh & Hkeys & Hsrc & Hfound).
  unfold recordLink.
  set (al0 := if JSMap.has al link then al else JSMap.set al link JSSet.empty).
  set (sources := match JSMap.get al0 link with Some s => s | None => JSSet.empty end).
  set (al' := JSMap.set al0 link (JSSet.add sources url)).
  assert (Hk0 : NoDup (JSMap.keys al0) /\
                forall x, In x (JSMap.keys al0) <-> In x (JSMap.keys al) \/ x = link).
  { unfold al0. destruct (JSMap.has al link) eqn:Eh.
    - split; [exact Hkeys|]. intros x. split; [auto|].
      intros [H| ->]; [exact H|]. rewrite has_keys in Eh. now apply has_In.
    - rewrite keys_set. split; [now apply add_NoDup | intros x; apply add_In]. }
  destruct Hk0 as [Hnd0 Hin0].
  assert (He0 : forall k v, In (k, v) al0 -> k <> link -> In (k, v) al).
  { unfold al0. destruct (JSMap.has al link); [auto|].
    intros k v H Hne. apply set_entry in H; [|exact Hkeys].
    destruct H as [[? _]|[_ H]]; [contradiction | exact H]. }
  assert (Hs : NoDup sources /\ forall s, In s sources -> In s vis).
  { unfold sources. destruct (JSMap.get al0 link) as [s0|] eqn:Eg.
    - apply get_In in Eg. unfold al0 in Eg.
      destruct (JSMap.has al link).
      + destruct (Hsrc _ _ Eg) as (_ & H1 & H2). auto.
      + apply set_entry in Eg; [|exact Hkeys].
        destruct Eg as [[_ ->]|[Hne _]]; [|contradiction].
        split; [constructor | intros ? []].
    - split; [constructor | intros ? []]. }
  destruct Hs as [Hs1 Hs2].
  assert (Hk' : NoDup (JSMap.keys al') /\
                forall x, In x (JSMap.keys al') <-> In x (JSMap.keys al) \/ x = link).
  { unfold al'. rewrite keys_set. split; [now apply add_NoDup|].
    intros x. rewrite add_In, Hin0. tauto. }
  destruct Hk' as [Hnd' Hin'].
  set (tv' := if negb (JSSet.has vis link) && negb (JS.includes tv link)
              then tv ++ [link] else tv).
  assert (Ht : NoDup tv' /\ (forall x, In x tv' -> ~ In x vis) /\
               forall x, In x tv' -> In x tv \/ x = link).
  { unfold tv'. destruct (JSSet.has vis link) eqn:Ev; simpl; [auto|].
    destruct (JS.includes tv link) eqn:Ei; simpl; [auto|].
    assert (Hnv : ~ In link vis) by (intros H; apply has_In in H; congruence).
    assert (Hni : ~ In link tv) by (intros H; apply includes_In in H; congruence).
    split; [|split].
    - apply NoDup_app; [exact Htv | repeat constructor; intros [] |].
      intros x Hx [<-|[]]. contradiction.
    - intros x Hx. apply in_app_iff in Hx. destruct Hx as [Hx|[<-|[]]]; auto.
    - intros x Hx. apply in_app_iff in Hx. destruct Hx as [Hx|[<-|[]]]; auto. }
  destruct Ht as (Ht1 & Ht2 & Ht3).
  split; [exact Ht1|]. split; [exact Ht2|]. split; [exact Hnd'|]. split.
  - intros k v Hin. unfold al' in Hin. apply set_entry in Hin; [|exact Hnd0].
    destruct Hin as [[-> ->]|[Hne Hin]].
    + split; [apply add_nonempty|]. split; [now apply add_NoDup|].
      intros s Hs. apply add_In in Hs. destruct Hs as [Hs| ->]; auto.
    + apply (Hsrc k v). now apply He0.
  - intros x [Hx|Hx].
    + destruct (Ht3 x Hx) as [Hx'| ->].
      * destruct (Hfound x (or_introl Hx')) as [?|?]; [now left|].
        right. apply Hin'. now left.
      * right. apply Hin'. now right.
    + destruct (Hfound x (or_intror Hx)) as [?|?]; [now left|].
      right. apply Hin'. now left.
Qed.

Lemma recordLinks_ok root url vis links acc :
  In url vis -> links_ok root vis acc ->
  links_ok root vis (fold_left (recordLink url vis) links acc).
Proof.
  intros Hurl. revert acc. induction links as [|l links IH]; intros acc H; simpl.
  - exact H.
  - apply IH. now apply recordLink_ok.
Qed.

End CrawlStateFacts.

Section CrawlInvariant.
Context `{P : Platform}.
Import LinkScanner JSSetFacts JSMapFacts CrawlStateFacts.

Variable browser : Browser.
Variable baseOrigin : string.
Variable excludeRegexes : list RegExp.
Variable timeout : Z.
Variable maxPages : Z.

Lemma crawl_init_ok rootUrl :
  crawl_ok (normalizeUrl rootUrl) maxPages (crawl_init rootUrl).
Proof.
  constructor; simpl.
  - constructor.
  - repeat constructor. intros [].
  - intros x _ [].
  - constructor.
  - intros ? ? [].
  - lia.
  - intros x [<-|[]]. reflexivity.
  - intros x [[<-|[]]|[]]. now left.
Qed.

Lemma crawl_step_ok root st ev st' :
  crawl_step browser baseOrigin excludeRegexes timeout maxPages st = Some (ev, st') ->
  crawl_ok root maxPages st ->
  crawl_ok root maxPages st' /\ not_revisit ev.
Proof.
  unfold crawl_step. intros H [Hv Hq Hf Hk Hs Hb Hr Hfd].
  destruct (0 <? List.length (toVisit st))%nat; [|discriminate].
  destruct (Z.ltb_spec (Z.of_nat (JSSet.size (visited st))) maxPages) as [Hlt|];
    [|discriminate].
  simpl in H.
  destruct (toVisit st) as [|url rest] eqn:Etv; [discriminate|].
  assert (Hnv : ~ In url (visited st)) by (apply Hf; now left).
  assert (Hhas : JSSet.has (visited st) url = false).
  { destruct (JSSet.has (visited st) url) eqn:E; [|reflexivity].
    apply has_In in E. contradiction. }
  rewrite Hhas in H.
  assert (Hrest : NoDup rest) by (now inversion Hq).
  assert (Hurl : ~ In url rest) by (now inversion Hq).
  destruct (existsb _ excludeRegexes).
  { injection H as <- <-. split; [|exact I]. constructor; simpl; auto.
    - intros x Hx. apply Hf. now right.
    - destruct (visited st); [|exact Hr]. intros x Hx. apply Hr. now right.
    - intros x [Hx|Hx]; apply Hfd; [left; now right | now right]. }
  set (vis' := JSSet.add (visited st) url) in *.
  assert (Evis : vis' = visited st ++ [url])
    by (unfold vis', JSSet.add; now rewrite Hhas).
  assert (Hin' : forall x, In x vis' <-> In x (visited st) \/ x = url)
    by (intros x; apply add_In).
  assert (Hv' : NoDup vis') by (now apply add_NoDup).
  assert (Hb' : (Z.of_nat (JSSet.size vis') <= Z.max 0 maxPages)%Z).
  { rewrite Evis. unfold JSSet.size in *. rewrite length_app. simpl. lia. }
  assert (Hr' : match vis' with [] => forall x, In x rest -> x = root
                | first :: _ => first = root end).
  { rewrite Evis. destruct (visited st) as [|first vs]; simpl; [|exact Hr].
    apply Hr. now left. }
  assert (Hl : links_ok root vis' (allLinks st, rest)).
  { split; [exact Hrest|]. split.
    { intros x Hx Hc. apply Hin' in Hc. destruct Hc as [Hc| ->].
      - apply (Hf x); [now right | exact Hc].
      - contradiction. }
    split; [exact Hk|]. split.
    { intros link sources Hin. destruct (Hs _ _ Hin) as (H1 & H2 & H3).
      split; [exact H1|]. split; [exact H2|].
      intros s0 Hs0. apply Hin'. left. now apply H3. }
    intros x [Hx|Hx].
    - apply Hfd. left. now right.
    - apply Hin' in Hx. destruct Hx as [Hx| ->]; apply Hfd; [now right | left; now left]. }
  destruct (browser url timeout) as [page|].
  - apply (recordLinks_ok root url vis' (extractLinks page baseOrigin)) in Hl;
      [|apply Hin'; now right].
    destruct (fold_left _ _ _) as [allLinks' toVisit'].
    destruct Hl as (L1 & L2 & L3 & L4 & L5).
    injection H as <- <-. split; [|exact I]. constructor; simpl; auto.
    destruct vis'; [destruct (visited st); discriminate | exact Hr'].
  - destruct Hl as (L1 & L2 & L3 & L4 & L5).
    injection H as <- <-. split; [|exact I]. constructor; simpl; auto.
Qed.

Lemma crawl_trace_ok root n st :
  crawl_ok root maxPages st ->
  Forall (fun '(ev, st') => crawl_ok root maxPages st' /\ not_revisit ev)
    (crawl_trace browser baseOrigin excludeRegexes timeout maxPages n st).
Proof.
  revert st. induction n as [|n IH]; intros st Hok; simpl; [constructor|].
  destruct (crawl_step _ _ _ _ _ st) as [[ev st']|] eqn:E; [|constructor].
  destruct (crawl_step_ok root _ _ _ E Hok) as [H1 H2].
  constructor; [split; assumption | apply IH, H1].
Qed.

Lemma recordLink_keys url vis acc link x :
  In x (JSMap.keys (fst (recordLink url vis acc link))) <->
  In x (JSMap.keys (fst acc)) \/ x = link.
Proof.
  destruct acc as [al tv]. unfold recordLink. cbn [fst].
  rewrite keys_set, add_In.
  destruct (JSMap.has al link) eqn:Eh.
  - tauto.
  - rewrite keys_set, add_In. tauto.
Qed.

Lemma recordLinks_keys url vis links acc x :
  In x (JSMap.keys (fst (fold_left (recordLink url vis) links acc))) <->
  In x (JSMap.keys (fst acc)) \/ In x links.
Proof.
  revert acc. induction links as [|l links IH]; intros acc; simpl.
  - tauto.
  - rewrite IH, recordLink_keys. intuition congruence.
Qed.

Lemma extractLinks_In page link :
  In link (extractLinks page baseOrigin) ->
  exists anchor h,
    In anchor (page_anchors page) /\ anchor <> "" /\
    URL_resolve anchor (page_url page) = Some h /\
    isInternalUrl h baseOrigin = true /\ link = normalizeUrl h.
Proof.
  unfold extractLinks. intros H.
  apply in_map_iff in H. destruct H as (h & <- & H).
  apply filter_In in H. destruct H as [H Hint].
  apply in_flat_map in H. destruct H as (anchor & Ha & H).
  exists anchor, h.
  destruct anchor as [|c anchor']; [destruct H|].
  cbn [JS.truthy] in H.
  destruct (URL_resolve _ _) as [r|] eqn:Er; [|destruct H].
  destruct H as [<-|[]]. repeat split; auto. discriminate.
Qed.

Lemma crawl_step_keys st ev st' x :
  crawl_step browser baseOrigin excludeRegexes timeout maxPages st = Some (ev, st') ->
  In x (JSMap.keys (allLinks st')) ->
  In x (JSMap.keys (allLinks st)) \/
  exists page, browser (event_url ev) timeout = Some page /\
               ev = Crawled (event_url ev) /\
               In x (extractLinks page baseOrigin).
Proof.
  unfold crawl_step. intros H.
  destruct (_ && _); [|discriminate].
  destruct (toVisit st) as [|url rest]; [discriminate|].
  destruct (JSSet.has (visited st) url).
  { injection H as <- <-. auto. }
  destruct (existsb _ excludeRegexes).
  { injection H as <- <-. auto. }
  destruct (browser url timeout) as [page|] eqn:Eb.
  - pose proof (recordLinks_keys url (JSSet.add (visited st) url)
                  (extractLinks page baseOrigin) (allLinks st, rest) x) as K.
    destruct (fold_left _ _ _) as [allLinks' toVisit'].
    injection H as <- <-. cbn [fst allLinks event_url] in *.
    intros Hx. apply K in Hx. destruct Hx as [Hx|Hx]; [now left|].
    right. exists page. auto.
  - injection H as <- <-. auto.
Qed.

Lemma crawl_trace_keys n st (Q : string -> Prop) :
  (forall x, In x (JSMap.keys (allLinks st)) -> Q x) ->
  (forall url page x, browser url timeout = Some page ->
                      In x (extractLinks page baseOrigin) -> Q x) ->
  Forall (fun '(_, st') => forall x, In x (JSMap.keys (allLinks st')) -> Q x)
    (crawl_trace browser baseOrigin excludeRegexes timeout maxPages n st).
Proof.
  intros H0 HQ. revert st H0.
  induction n as [|n IH]; intros st H0; simpl; [constructor|].
  destruct (crawl_step _ _ _ _ _ st) as [[ev st']|] eqn:E; [|constructor].
  assert (H1 : forall x, In x (JSMap.keys (allLinks st')) -> Q x).
  { intros x Hx. destruct (crawl_step_keys _ _ _ _ E Hx) as [Hx'|(page & Hb & _ & Hx')].
    - now apply H0.
    - eapply HQ; eassumption. }
  constructor; [exact H1 | apply IH, H1].
Qed.

(** X11: the number of pages crawled never exceeds the page budget: after
    every turn of the loop the visited set holds at most [maxPages] URLs
    (none when [maxPages] is negative), each of them once. *)
Theorem crawl_page_budget (rootUrl : string) (n : nat) :
  Forall (fun '(_, st) =>
            (Z.of_nat (JSSet.size (visited st)) <= Z.max 0 maxPages)%Z /\
            NoDup (visited st))
    (crawl_trace browser baseOrigin excludeRegexes timeout maxPages n
       (crawl_init rootUrl)).
Proof.
  eapply Forall_impl; [|apply (crawl_trace_ok (normalizeUrl rootUrl)), crawl_init_ok].
  intros [ev st] [Hok _]. split; [apply (ok_budget _ _ _ Hok) | apply (ok_visited _ _ _ Hok)].
Qed.

(** X12: the queue never holds a URL twice, nor a URL that was visited, so
    no turn of the loop takes the branch [if (visited.has(url)) continue]. *)
Theorem crawl_never_revisits (rootUrl : string) (n : nat) :
  Forall (fun '(ev, st) =>
            not_revisit ev /\ NoDup (toVisit st) /\
            forall x, In x (toVisit st) -> JSSet.has (visited st) x = false)
    (crawl_trace browser baseOrigin excludeRegexes timeout maxPages n
       (crawl_init rootUrl)).
Proof.
  eapply Forall_impl; [|apply (crawl_trace_ok (normalizeUrl rootUrl)), crawl_init_ok].
  intros [ev st] [Hok Hev]. split; [exact Hev|]. split; [apply (ok_queue _ _ _ Hok)|].
  intros x Hx. destruct (JSSet.has (visited st) x) eqn:E; [|reflexivity].
  apply has_In in E. now apply (ok_fresh _ _ _ Hok) in Hx.
Qed.

(** X13: [allLinks] has one entry per link, and the set of source pages of
    every entry is non-empty, free of duplicates and made of visited
    pages: [Array.from(sourcePages)[0]] is always defined in phase 2. *)
Theorem crawl_sources_visited (rootUrl : string) (n : nat) :
  Forall (fun '(_, st) =>
            NoDup (JSMap.keys (allLinks st)) /\
            Forall (fun '(_, sources) =>
                      sources <> [] /\ NoDup sources /\
                      incl sources (visited st))
              (allLinks st))
    (crawl_trace browser baseOrigin excludeRegexes timeout maxPages n
       (crawl_init rootUrl)).
Proof.
  eapply Forall_impl; [|apply (crawl_trace_ok (normalizeUrl rootUrl)), crawl_init_ok].
  intros [ev st] [Hok _]. split; [apply (ok_keys _ _ _ Hok)|].
  apply Forall_forall. intros [link sources] Hin.
  exact (ok_sources _ _ _ Hok link sources Hin).
Qed.

(** X14: the first page visited is the normalised root URL, and every URL
    visited or queued is the normalised root or a link recorded in
    [allLinks]. *)
Theorem crawl_visits_root_and_links (rootUrl : string) (n : nat) :
  Forall (fun '(_, st) =>
            (forall first others, visited st = first :: others ->
                                  first = normalizeUrl rootUrl) /\
            forall x, In x (toVisit st) \/ In x (visited st) ->
                      x = normalizeUrl rootUrl \/ JSMap.has (allLinks st) x = true)
    (crawl_trace browser baseOrigin excludeRegexes timeout maxPages n
       (crawl_init rootUrl)).
Proof.
  eapply Forall_impl; [|apply (crawl_trace_ok (normalizeUrl rootUrl)), crawl_init_ok].
  intros [ev st] [Hok _]. split.
  - intros first others E. pose proof (ok_root _ _ _ Hok) as H.
    now rewrite E in H.
  - intros x Hx. destruct (ok_found _ _ _ Hok x Hx) as [H|H]; [now left|].
    right. rewrite has_keys. now apply has_In.
Qed.

(** X15: the crawl stays on the origin: every link recorded in [allLinks]
    is the normalisation of a URL of origin [baseOrigin] that a non-empty
    [href] of a loaded page resolves to. *)
Theorem crawl_links_internal (rootUrl : string) (n : nat) :
  Forall (fun '(_, st) =>
            forall link, JSMap.has (allLinks st) link = true ->
              exists url page anchor h,
                browser url timeout = Some page /\
                In anchor (page_anchors page) /\ anchor <> "" /\
                URL_resolve anchor (page_url page) = Some h /\
                isInternalUrl h baseOrigin = true /\ link = normalizeUrl h)
    (crawl_trace browser baseOrigin excludeRegexes timeout maxPages n
       (crawl_init rootUrl)).
Proof.
  eapply Forall_impl;
    [|apply (crawl_trace_keys n (crawl_init rootUrl)
               (fun link => exists url page anchor h,
                  browser url timeout = Some page /\
                  In anchor (page_anchors page) /\ anchor <> "" /\
                  URL_resolve anchor (page_url page) = Some h /\
                  isInternalUrl h baseOrigin = true /\ link = normalizeUrl h))].
  - intros [ev st] H link Hl. apply H. rewrite has_keys in Hl. now apply has_In.
  - intros x [].
  - intros url page x Hb Hx.
    destruct (extractLinks_In page x Hx) as (anchor & h & H).
    exists url, page, anchor, h. tauto.
Qed.

End CrawlInvariant.

(* ===================================================================== *)
(** ** The order and the bound of asyncPool                              *)
(* ===================================================================== *)

Section AsyncPoolOrder.
Context {T R : Type}.
Import LinkScanner.

Lemma background_idle (picks : list nat) (rs : list R) :
  background picks {| results := rs; executing := [] |}
  = {| results := rs; executing := [] |}.
Proof.
  induction picks as [|k picks IH]; [reflexivity|].
  unfold background in *. simpl. exact IH.
Qed.

Lemma pool_loop_sequential (concurrency : Z) (fn : T -> Settled R) (g : T -> R)
  (items : list T) (sched : Schedule) (rs : list R) :
  (concurrency <= 1)%Z ->
  (forall item, In item items -> fn item = Fulfilled (g item)) ->
  pool_loop concurrency fn items sched {| results := rs; executing := [] |}
  = Fulfilled (rs ++ map g items).
Proof.
  intros Hc. revert sched rs.
  induction items as [|item items IH]; intros sched rs Hfn.
  - simpl. destruct (next_await sched) as [[k more] ?]. simpl.
    now rewrite app_nil_r.
  - cbn [pool_loop results executing app List.length].
    destruct (Z.leb_spec concurrency (Z.of_nat 1)) as [_|Hlt]; [|lia].
    rewrite (Hfn item (or_introl eq_refl)).
    cbn [first_failed].
    destruct (next_await sched) as [[k more] sched'].
    unfold settle. cbn [executing results pending_count filter is_pending List.length].
    rewrite Nat.mod_1_r. cbn [settle_at].
    rewrite background_idle, IH.
    + now rewrite <- app_assoc.
    + intros i Hi. apply Hfn. now right.
Qed.

(** X16: with a concurrency limit of 1 or less the pool runs the units one
    after the other: when no unit rejects, the results come in the order
    of the items, whatever the order in which promises may settle. *)
Theorem asyncPool_sequential (concurrency : Z) (fn : T -> Settled R) (g : T -> R)
  (items : list T) (sched : Schedule) :
  (concurrency <= 1)%Z ->
  (forall item, In item items -> fn item = Fulfilled (g item)) ->
  asyncPool concurrency fn sched items = Fulfilled (map g items).
Proof.
  intros Hc Hfn. unfold asyncPool.
  now rewrite (pool_loop_sequential concurrency fn g items sched [] Hc Hfn).
Qed.

End AsyncPoolOrder.

Section ObservedFacts.
Context {T R : Type}.
Import LinkScanner.
Implicit Types (ex : list (Slot R)) (rs : list R) (st : @PoolState R).
Variable concurrency : Z.
Variable fn : T -> Settled R.

Lemma pool_observed_outcome items sched st :
  snd (pool_observed concurrency fn items sched st)
  = pool_loop concurrency fn items sched st.
Proof.
  revert sched st. induction items as [|item items IH]; intros sched st.
  - cbn [pool_observed pool_loop]. now destruct (next_await sched) as [[k more] ?].
  - cbn [pool_observed pool_loop].
    set (st1 := {| results := results st;
                   executing := executing st ++ [Pending (fn item)] |}).
    destruct (concurrency <=? Z.of_nat (List.length (executing st1)))%Z.
    + destruct (first_failed (executing st1)); [reflexivity|].
      destruct (next_await sched) as [[k more] sched'].
      destruct (settle k st1) as [st2 [e|]]; [reflexivity|].
      rewrite <- IH. now destruct (pool_observed _ _ items sched' _).
    + rewrite <- IH. now destruct (pool_observed _ _ items sched st1).
Qed.

Lemma all_pending ex :
  first_failed ex = None -> pending_count ex = List.length ex.
Proof.
  unfold pending_count.
  induction ex as [|[o|e] ex IH]; simpl; [reflexivity| |discriminate].
  intros H. now rewrite IH.
Qed.

Lemma settle_at_length k rs ex :
  let '(_, ex', err) := settle_at k rs ex in
  (List.length ex' <= List.length ex)%nat /\
  (err = None -> (k < pending_count ex)%nat ->
   S (List.length ex') = List.length ex).
Proof.
  unfold pending_count.
  revert k. induction ex as [|[o|e] ex IH]; intros k; simpl.
  - split; [lia | intros _ H; lia].
  - destruct k as [|k].
    + destruct o as [r|e]; simpl; (split; [lia | intros; try discriminate; lia]).
    + specialize (IH k). destruct (settle_at k rs ex) as [[rs' ex'] err].
      destruct IH as [IH1 IH2]. simpl. split; [lia|].
      intros E Hk. specialize (IH2 E ltac:(lia)). lia.
  - specialize (IH k). destruct (settle_at k rs ex) as [[rs' ex'] err].
    destruct IH as [IH1 IH2]. simpl. split; [lia|].
    intros E Hk. specialize (IH2 E Hk). lia.
Qed.

Lemma settle_length k st :
  (List.length (executing (fst (settle k st))) <= List.length (executing st))%nat.
Proof.
  unfold settle.
  pose proof (settle_at_length (k mod pending_count (executing st))
                (results st) (executing st)) as H.
  destruct (settle_at _ _ _) as [[rs' ex'] err]. simpl. tauto.
Qed.

Lemma background_length picks st :
  (List.length (executing (background picks st)) <= List.length (executing st))%nat.
Proof.
  unfold background. revert st.
  induction picks as [|k picks IH]; intros st; simpl; [lia|].
  etransitivity; [apply IH | apply settle_length].
Qed.

Lemma race_length k st st' :
  first_failed (executing st) = None ->
  executing st <> [] ->
  settle k st = (st', None) ->
  S (List.length (executing st')) = List.length (executing st).
Proof.
  intros Hf Hne. unfold settle.
  pose proof (settle_at_length (k mod pending_count (executing st))
                (results st) (executing st)) as H.
  destruct (settle_at _ _ _) as [[rs' ex'] err].
  intros [= <- ->]. simpl. apply H; [reflexivity|].
  apply Nat.mod_upper_bound. rewrite (all_pending _ Hf).
  destruct (executing st); [contradiction | discriminate].
Qed.

Lemma pool_observed_bound items sched st :
  (Z.of_nat (List.length (executing st)) <= Z.max 0 (concurrency - 1))%Z ->
  Forall (fun size => (1 <= size)%nat /\ (Z.of_nat size <= Z.max 1 concurrency)%Z)
    (fst (pool_observed concurrency fn items sched st)).
Proof.
  revert sched st. induction items as [|item items IH]; intros sched st Hst.
  - cbn [pool_observed]. destruct (next_await sched) as [[k more] ?]. constructor.
  - cbn [pool_observed].
    set (st1 := {| results := results st;
                   executing := executing st ++ [Pending (fn item)] |}).
    assert (Hsize : List.length (executing st1) = S (List.length (executing st))).
    { unfold st1. simpl. rewrite length_app. simpl. lia. }
    assert (Hhead : (1 <= List.length (executing st1))%nat /\
                    (Z.of_nat (List.length (executing st1)) <= Z.max 1 concurrency)%Z)
      by (rewrite Hsize; lia).
    destruct (Z.leb_spec concurrency (Z.of_nat (List.length (executing st1))))
      as [Hc|Hc].
    + destruct (first_failed (executing st1)) eqn:Ef; [now repeat constructor|].
      destruct (next_await sched) as [[k more] sched'].
      destruct (settle k st1) as [st2 [e|]] eqn:Es; [now repeat constructor|].
      assert (Hne : executing st1 <> []).
      { intros E. rewrite E in Hsize. discriminate. }
      pose proof (race_length k st1 st2 Ef Hne Es) as Hr.
      pose proof (background_length more st2) as Hb.
      specialize (IH sched' (background more st2) ltac:(lia)).
      destruct (pool_observed _ _ items sched' _) as [sizes outcome].
      constructor; [exact Hhead | exact IH].
    + specialize (IH sched st1 ltac:(lia)).
      destruct (pool_observed _ _ items sched st1) as [sizes outcome].
      constructor; [exact Hhead | exact IH].
Qed.

(** X17: the pool bounds the units in flight: each time a unit has been
    started, [executing] holds at most [concurrency] promises (one when
    the limit is below 1), under every schedule; the run observed is that
    of [asyncPool]. *)
Theorem asyncPool_bounded (sched : Schedule) (items : list T) :
  let observed :=
    pool_observed concurrency fn items sched {| results := []; executing := [] |} in
  snd observed = asyncPool concurrency fn sched items /\
  Forall (fun size => (1 <= size)%nat /\ (Z.of_nat size <= Z.max 1 concurrency)%Z)
    (fst observed).
Proof.
  split; [apply pool_observed_outcome|].
  apply pool_observed_bound. simpl. lia.
Qed.

End ObservedFacts.

(* ===================================================================== *)
(** ** scanSite and checkUrls                                            *)
(* ===================================================================== *)

Section ScanFacts.
Context `{P : Platform}.
Import LinkScanner JSSetFacts JSMapFacts CrawlStateFacts ListFacts.

Variable browser : Browser.
Variable baseOrigin : string.
Variable excludeRegexes : list RegExp.
Variable timeout : Z.
Variable maxPages : Z.




Lemma crawl_invariant (Inv : CrawlState -> Prop) n st final :
  (forall st ev st', crawl_step browser baseOrigin excludeRegexes timeout maxPages st = Some (ev, st') -> Inv st -> Inv st') ->
  ScanSite.crawl browser baseOrigin excludeRegexes timeout maxPages n st = Some final -> Inv st -> Inv final.
Proof.
  intros Hstep. revert st. induction n as [|n IH]; intros st; simpl; [discriminate|].
  destruct (crawl_step browser baseOrigin excludeRegexes timeout maxPages st) as [[ev st']|] eqn:E.
  - intros H Hi. apply (IH st' H). eapply Hstep; eassumption.
  - intros [= <-] Hi. exact Hi.
Qed.

Lemma recordLink_entry url vis al tv link k v :
  NoDup (JSMap.keys al) ->
  In (k, v) (fst (recordLink url vis (al, tv) link)) ->
  (k <> link /\ In (k, v) al) \/
  (k = link /\ exists old, v = JSSet.add old url /\
                           (old = [] \/ In (link, old) al)).
Proof.
  intros Hnd. unfold recordLink. cbn [fst].
  destruct (JSMap.has al link) eqn:Eh.
  - intros H. apply set_entry in H; [|exact Hnd].
    destruct H as [[-> ->]|H]; [|now left].
    right. split; [reflexivity|].
    destruct (JSMap.get al link) as [old|] eqn:Eg.
    + exists old. split; [reflexivity|]. right. now apply get_In.
    + exists []. auto.
  - rewrite get_set_same. intros H.
    apply set_entry in H; [|rewrite keys_set; now apply add_NoDup].
    destruct H as [[-> ->]|[Hne H]].
    + right. split; [reflexivity|]. exists []. auto.
    + apply set_entry in H; [|exact Hnd].
      destruct H as [[? _]|H]; [contradiction | now left].
Qed.

Lemma recordLink_keys_NoDup url vis acc link :
  NoDup (JSMap.keys (fst acc)) ->
  NoDup (JSMap.keys (fst (recordLink url vis acc link))).
Proof.
  destruct acc as [al tv]. unfold recordLink. cbn [fst]. intros Hnd.
  rewrite keys_set. apply add_NoDup.
  destruct (JSMap.has al link); [exact Hnd|].
  rewrite keys_set. now apply add_NoDup.
Qed.

Lemma recordLinks_loaded url vis page links acc :
  browser url timeout = Some page ->
  (forall l, In l links -> In l (extractLinks page baseOrigin)) ->
  NoDup (JSMap.keys (fst acc)) ->
  sources_loaded browser baseOrigin timeout (fst acc) ->
  sources_loaded browser baseOrigin timeout
    (fst (fold_left (recordLink url vis) links acc)).
Proof.
  intros Hb. revert acc. induction links as [|l links IH]; intros acc Hl Hnd Hs;
    simpl; [exact Hs|].
  apply IH.
  - intros l' Hl'. apply Hl. now right.
  - now apply recordLink_keys_NoDup.
  - destruct acc as [al tv]. intros k v s Hin Hsv.
    apply recordLink_entry in Hin; [|exact Hnd].
    destruct Hin as [[_ Hin]|(-> & old & -> & Hold)].
    + exact (Hs k v s Hin Hsv).
    + apply add_In in Hsv. destruct Hsv as [Hsv| ->].
      * destruct Hold as [->|Hold]; [destruct Hsv|].
        exact (Hs l old s Hold Hsv).
      * exists page. split; [exact Hb|]. apply Hl. now left.
Qed.

Lemma crawl_step_loaded st ev st' :
  crawl_step browser baseOrigin excludeRegexes timeout maxPages st = Some (ev, st') ->
  NoDup (JSMap.keys (allLinks st)) ->
  sources_loaded browser baseOrigin timeout (allLinks st) ->
  sources_loaded browser baseOrigin timeout (allLinks st').
Proof.
  unfold crawl_step. intros H Hnd Hs.
  destruct (_ && _); [|discriminate].
  destruct (toVisit st) as [|url rest]; [discriminate|].
  destruct (JSSet.has (visited st) url).
  { now injection H as <- <-. }
  destruct (existsb _ excludeRegexes).
  { now injection H as <- <-. }
  destruct (browser url timeout) as [page|] eqn:Eb.
  - pose proof (recordLinks_loaded url (JSSet.add (visited st) url) page
                  (extractLinks page baseOrigin) (allLinks st, rest) Eb
                  (fun l H => H) Hnd Hs) as K.
    destruct (fold_left _ _ _) as [allLinks' toVisit'].
    now injection H as <- <-.
  - now injection H as <- <-.
Qed.

Lemma crawl_final rootUrl n final :
  ScanSite.crawl browser baseOrigin excludeRegexes timeout maxPages n (crawl_init rootUrl) = Some final ->
  crawl_ok (normalizeUrl rootUrl) maxPages final /\
  sources_loaded browser baseOrigin timeout (allLinks final).
Proof.
  intros H.
  apply (crawl_invariant
           (fun st => crawl_ok (normalizeUrl rootUrl) maxPages st /\
                      sources_loaded browser baseOrigin timeout (allLinks st))
           n (crawl_init rootUrl) final); [|exact H|].
  - intros st ev st' E [Hok Hs]. split.
    + eapply crawl_step_ok; eassumption.
    + eapply crawl_step_loaded; [exact E | apply (ok_keys _ _ _ Hok) | exact Hs].
  - split; [apply crawl_init_ok|]. intros ? ? ? [].
Qed.

End ScanFacts.

Section PoolOfChecks.
Context {T R : Type}.
Import LinkScanner ListFacts.

(** A pool whose units catch their failures fulfils, with one result per
    item. *)
Lemma asyncPool_total (concurrency : Z) (g : T -> R) (sched : Schedule)
  (items : list T) :
  exists rs,
    asyncPool concurrency (fun x => Fulfilled (g x)) sched items = Fulfilled rs /\
    Permutation rs (map g items).
Proof.
  pose proof (asyncPool_settlements concurrency (fun x => Fulfilled (g x))
                sched items) as H.
  destruct (asyncPool _ _ sched items) as [rs|e].
  - exists rs. split; [reflexivity|].
    apply (Permutation_map_inj Fulfilled); [now intros x y [= ->]|].
    now rewrite map_map.
  - destruct H as (item & _ & E). discriminate.
Qed.

End PoolOfChecks.

Section ScanSiteFacts.
Context `{P : Platform}.
Import LinkScanner LinkFixer JSSetFacts JSMapFacts ListFacts.

Variable browser : Browser.
Variable fetch : Network.
Variable sched : Schedule.



Lemma href_linkResult timeout follow entry :
  href (linkResult fetch timeout follow entry) = fst entry.
Proof. now destruct entry. Qed.

(** What a scan that returns was made of. *)
Lemma scanSite_scanned fuel rootUrl options r :
  ScanSite.scanSite browser fetch sched fuel rootUrl options
    = Some (ScanSite.Scanned r) ->
  let opts := ScanSite.withDefaults options in
  exists parsed final results,
    URL_new rootUrl = Some parsed /\
    crawl_ok (normalizeUrl rootUrl) (ScanSite.req_maxPages opts) final /\
    sources_loaded browser (URL_origin parsed) (ScanSite.req_timeout opts)
      (allLinks final) /\
    Permutation results
      (map (linkResult fetch (ScanSite.req_timeout opts)
              (ScanSite.req_followRedirects opts))
         (allLinks final)) /\
    r = ScanSite.summary rootUrl (visited final) results.
Proof.
  intros H opts. unfold ScanSite.scanSite in H. fold opts in H.
  destruct (URL_new rootUrl) as [parsed|]; [|discriminate].
  destruct (ScanSite.compilePatterns _) as [regexes|p]; [|discriminate].
  destruct (ScanSite.crawl _ _ _ _ _ _ _) as [final|] eqn:Ec; [|discriminate].
  destruct (crawl_final _ _ _ _ _ _ _ _ Ec) as [Hok Hs].
  unfold ScanSite.checkLinks in H.
  destruct (asyncPool_total (ScanSite.req_concurrency opts)
              (linkResult fetch (ScanSite.req_timeout opts)
                 (ScanSite.req_followRedirects opts))
              sched (JSMap.entries (allLinks final))) as (rs & E & Hp).
  rewrite E in H. injection H as <-.
  exists parsed, final, rs. auto.
Qed.

Lemma results_hrefs timeout follow links results :
  NoDup (JSMap.keys links) ->
  Permutation results (map (linkResult fetch timeout follow) links) ->
  NoDup (map href results).
Proof.
  intros Hnd Hp. eapply Permutation_NoDup.
  - symmetry. apply Permutation_map, Hp.
  - rewrite map_map. erewrite map_ext; [exact Hnd|].
    intros e. apply href_linkResult.
Qed.


(** X19: the counts of a scan: at most [maxPages] pages are crawled, no
    link is reported twice in a list, and the broken links, the server
    errors and the connection errors have no link in common. *)
Theorem scanSite_counts (fuel : nat) (rootUrl : string)
  (options : ScanSite.ScanOptions) (r : ScanSite.ScanResult) :
  ScanSite.scanSite browser fetch sched fuel rootUrl options
    = Some (ScanSite.Scanned r) ->
  (Z.of_nat (ScanSite.pagesCrawled r)
   <= Z.max 0 (ScanSite.req_maxPages (ScanSite.withDefaults options)))%Z /\
  NoDup (map href (ScanSite.brokenLinks r ++ ScanSite.serverErrors r
                     ++ ScanSite.connectionErrors r)) /\
  NoDup (map href (ScanSite.redirectLinks r)) /\
  (List.length (ScanSite.brokenLinks r) + List.length (ScanSite.serverErrors r)
   + List.length (ScanSite.connectionErrors r) <= ScanSite.totalLinks r)%nat /\
  (List.length (ScanSite.redirectLinks r) <= ScanSite.totalLinks r)%nat.
Proof.
  intros H. destruct (scanSite_scanned _ _ _ _ H)
    as (parsed & final & results & _ & Hok & _ & Hp & ->).
  pose proof (results_hrefs _ _ _ _ (ok_keys _ _ _ Hok) Hp) as Hnd.
  cbn [ScanSite.pagesCrawled ScanSite.brokenLinks ScanSite.serverErrors
       ScanSite.connectionErrors ScanSite.redirectLinks ScanSite.totalLinks
       ScanSite.summary].
  assert (Hbs : forall x, ScanSite.isBroken x = true -> ScanSite.isServerError x = false).
  { intros x. unfold ScanSite.isBroken, ScanSite.isServerError.
    destruct (statusCode x); [|auto]. intros E. apply Z.eqb_eq in E. now subst. }
  assert (Hbc : forall x, ScanSite.isBroken x = true -> ScanSite.isConnectionError x = false).
  { intros x. unfold ScanSite.isBroken, ScanSite.isConnectionError.
    destruct (statusCode x); [auto | discriminate]. }
  assert (Hsc : forall x, ScanSite.isServerError x = true -> ScanSite.isConnectionError x = false).
  { intros x. unfold ScanSite.isServerError, ScanSite.isConnectionError.
    destruct (statusCode x); [auto | discriminate]. }
  split; [apply (ok_budget _ _ _ Hok)|]. split; [|split; [|split]].
  - rewrite !map_app. apply NoDup_app.
    + now apply NoDup_map_filter.
    + apply NoDup_app; [now apply NoDup_map_filter | now apply NoDup_map_filter |].
      now apply NoDup_map_filters.
    + intros y Hy Hin. apply in_app_iff in Hin. destruct Hin as [Hin|Hin].
      * exact (NoDup_map_filters href _ _ results Hnd Hbs y Hy Hin).
      * exact (NoDup_map_filters href _ _ results Hnd Hbc y Hy Hin).
  - now apply NoDup_map_filter.
  - assert (Hlen : forall l : list LinkCheckResult,
      (List.length (filter ScanSite.isBroken l)
       + List.length (filter ScanSite.isServerError l)
       + List.length (filter ScanSite.isConnectionError l) <= List.length l)%nat).
    { induction l as [|x l IH]; simpl; [lia|].
      specialize (Hbs x). specialize (Hbc x). specialize (Hsc x).
      destruct (ScanSite.isBroken x), (ScanSite.isServerError x),
        (ScanSite.isConnectionError x); simpl;
        try lia; try (specialize (Hbs eq_refl)); try (specialize (Hbc eq_refl));
        try (specialize (Hsc eq_refl)); try discriminate. }
    apply Hlen.
  - apply filter_length_le.
Qed.

Lemma pages_of_single broken l :
  NoDup (map href broken) -> In l broken ->
  pages_of broken (href l) = [sourcePage l].
Proof.
  unfold pages_of. induction broken as [|x broken IH]; simpl; [contradiction|].
  intros Hnd Hin. inversion Hnd as [|? ? Hx Hb]; subst.
  destruct (String.eqb_spec (href x) (href l)) as [E|E].
  - assert (x = l).
    { destruct Hin as [Hin|Hin]; [exact Hin|].
      exfalso. apply Hx. rewrite E. now apply in_map. }
    subst x. simpl. f_equal.
    destruct (filter _ broken) as [|y ys] eqn:Ef; [reflexivity|].
    exfalso. assert (Hy : In y (filter (fun l0 => String.eqb (href l0) (href l)) broken))
      by (rewrite Ef; now left).
    apply filter_In in Hy. destruct Hy as [Hy Ey]. apply String.eqb_eq in Ey.
    apply Hx. rewrite <- Ey. now apply in_map.
  - destruct Hin as [->|Hin]; [contradiction|]. now apply IH.
Qed.

Lemma result_of_entry timeout follow links results l :
  Permutation results (map (linkResult fetch timeout follow) links) ->
  In l results ->
  exists sources,
    In (href l, sources) links /\
    l = linkResult fetch timeout follow (href l, sources).
Proof.
  intros Hp Hin. eapply Permutation_in in Hin; [|exact Hp].
  apply in_map_iff in Hin. destruct Hin as ([link sources] & <- & Hin).
  exists sources. simpl. auto.
Qed.

(** X20: the source page reported for a link is a page that the crawl
    loaded and on which the link was found. *)
Theorem scanSite_source_pages (fuel : nat) (rootUrl : string)
  (options : ScanSite.ScanOptions) (r : ScanSite.ScanResult) :
  ScanSite.scanSite browser fetch sched fuel rootUrl options
    = Some (ScanSite.Scanned r) ->
  Forall (fun l =>
            exists parsed page,
              URL_new rootUrl = Some parsed /\
              browser (sourcePage l)
                (ScanSite.req_timeout (ScanSite.withDefaults options)) = Some page /\
              In (href l) (extractLinks page (URL_origin parsed)))
    (ScanSite.brokenLinks r ++ ScanSite.redirectLinks r
       ++ ScanSite.serverErrors r ++ ScanSite.connectionErrors r).
Proof.
  intros H. destruct (scanSite_scanned _ _ _ _ H)
    as (parsed & final & results & Eu & Hok & Hs & Hp & ->).
  cbn [ScanSite.brokenLinks ScanSite.serverErrors ScanSite.connectionErrors
       ScanSite.redirectLinks ScanSite.summary].
  assert (Hall : forall l, In l results ->
    exists parsed page,
      URL_new rootUrl = Some parsed /\
      browser (sourcePage l)
        (ScanSite.req_timeout (ScanSite.withDefaults options)) = Some page /\
      In (href l) (extractLinks page (URL_origin parsed))).
  { intros l Hl. destruct (result_of_entry _ _ _ _ _ Hp Hl) as (sources & Hin & El).
    destruct (ok_sources _ _ _ Hok _ _ Hin) as (Hne & _ & _).
    destruct sources as [|s sources]; [contradiction|].
    destruct (Hs _ _ s Hin (or_introl eq_refl)) as (page & Hb & Hx).
    exists parsed, page. rewrite El at 1. simpl. auto. }
  apply Forall_forall. intros l Hl.
  apply Hall. rewrite !in_app_iff in Hl.
  destruct Hl as [Hl|[Hl|[Hl|Hl]]]; apply filter_In in Hl; tauto.
Qed.

(** X21: a scan reports each link once, so every fix computed from the
    broken links of a scan names exactly one source page, that of the
    result of its href. *)
Theorem scanSite_fixes_one_source (fuel : nat) (rootUrl : string)
  (options : ScanSite.ScanOptions) (r : ScanSite.ScanResult)
  (good : list string) (redirects : list LinkCheckResult)
  (fixOptions : FixOptions) :
  ScanSite.scanSite browser fetch sched fuel rootUrl options
    = Some (ScanSite.Scanned r) ->
  Forall (fun f =>
            exists l, In l (ScanSite.brokenLinks r) /\
                      href l = originalHref f /\
                      sourcePages f = [sourcePage l])
    (computeFixes (ScanSite.brokenLinks r) good redirects fixOptions).
Proof.
  intros H. destruct (scanSite_scanned _ _ _ _ H)
    as (parsed & final & results & _ & Hok & _ & Hp & ->).
  pose proof (results_hrefs _ _ _ _ (ok_keys _ _ _ Hok) Hp) as Hnd.
  cbn [ScanSite.brokenLinks ScanSite.summary].
  set (broken := filter ScanSite.isBroken results).
  assert (Hndb : NoDup (map href broken)) by now apply NoDup_map_filter.
  apply Forall_forall. intros f Hf.
  destruct (computeFixes_In _ _ _ _ _ Hf) as (pages & Hin & _).
  apply brokenByUrl_entry_href in Hin.
  apply in_map_iff in Hin. destruct Hin as (l & El & Hl).
  exists l. split; [exact Hl|]. split; [exact El|].
  rewrite (computeFixes_pages _ _ _ _ _ Hf), <- El.
  now apply pages_of_single.
Qed.

(** X22: in the fixes computed from a scan, a redirect target is the end of
    the redirect chain of the broken link itself: a URL that answered the
    scan with 404. *)
Theorem scanSite_redirect_target_missing (fuel : nat) (rootUrl : string)
  (options : ScanSite.ScanOptions) (r : ScanSite.ScanResult)
  (good : list string) (fixOptions : FixOptions) :
  ScanSite.scanSite browser fetch sched fuel rootUrl options
    = Some (ScanSite.Scanned r) ->
  Forall (fun f =>
            method f = redirect_target ->
            exists attempt location,
              fetch attempt (suggestedHref f)
                (ScanSite.req_timeout (ScanSite.withDefaults options))
              = Response 404 location)
    (computeFixes (ScanSite.brokenLinks r) good (ScanSite.redirectLinks r)
       fixOptions).
Proof.
  intros H. destruct (scanSite_scanned _ _ _ _ H)
    as (parsed & final & results & _ & Hok & _ & Hp & ->).
  pose proof (results_hrefs _ _ _ _ (ok_keys _ _ _ Hok) Hp) as Hnd.
  cbn [ScanSite.brokenLinks ScanSite.redirectLinks ScanSite.summary].
  apply Forall_forall. intros f Hf Hm.
  destruct (computeFixes_In _ _ _ _ _ Hf) as (pages & Hin & Hfix).
  destruct (fixFor_inv _ _ _ _ _ _ Hfix)
    as (_ & _ & _ & [(_ & Hget & _)|(Hn & _)]); [|contradiction].
  apply brokenByUrl_entry_href in Hin.
  apply in_map_iff in Hin. destruct Hin as (b & Eb & Hb).
  apply filter_In in Hb. destruct Hb as [Hb Hbroken].
  destruct (redirectTargets_get _ _ _ Hget) as (_ & l & Hl & El & Efinal).
  apply filter_In in Hl. destruct Hl as [Hl _].
  assert (l = b) by (eapply NoDup_map_inj; [exact Hnd| | |congruence]; assumption).
  subst l.
  destruct (result_of_entry _ _ _ _ _ Hp Hb) as (sources & _ & Er).
  set (timeout := ScanSite.req_timeout (ScanSite.withDefaults options)) in *.
  set (follow := ScanSite.req_followRedirects (ScanSite.withDefaults options)) in *.
  pose proof (checkUrl_status_run fetch timeout (href b) follow) as Hrun.
  cbv zeta in Hrun.
  assert (Es : check_statusCode (checkUrl fetch (href b) timeout follow) = Some 404%Z).
  { unfold ScanSite.isBroken in Hbroken. rewrite Er in Hbroken. simpl in Hbroken.
    destruct (check_statusCode _) as [s|]; [|discriminate].
    apply Z.eqb_eq in Hbroken. now subst. }
  assert (Ef : check_finalUrl (checkUrl fetch (href b) timeout follow)
               = Some (suggestedHref f)).
  { rewrite Er in Efinal. exact Efinal. }
  rewrite Es, Ef in Hrun. destruct Hrun as (_ & _ & loc & Hloc). eauto.
Qed.

(** X23: [checkUrls] never rejects: it fulfils with one result per URL,
    each without source page, and in the order of the URLs when the
    concurrency limit is 1 or less. *)
Theorem checkUrls_total (urls : list string) (options : ScanSite.ScanOptions) :
  let timeout :=
    ScanSite.orDefault (ScanSite.timeout options)
      (ScanSite.req_timeout ScanSite.DEFAULT_OPTIONS) in
  let follow :=
    ScanSite.orDefault (ScanSite.followRedirects options)
      (ScanSite.req_followRedirects ScanSite.DEFAULT_OPTIONS) in
  let limit :=
    ScanSite.orDefault (ScanSite.concurrency options)
      (ScanSite.req_concurrency ScanSite.DEFAULT_OPTIONS) in
  exists results,
    ScanSite.checkUrls fetch sched urls options = Fulfilled results /\
    Permutation results (map (ScanSite.urlResult fetch timeout follow) urls) /\
    map href results = map resolvedUrl results /\
    Forall (fun l => sourcePage l = "") results /\
    ((limit <= 1)%Z ->
     results = map (ScanSite.urlResult fetch timeout follow) urls).
Proof.
  intros timeout follow limit. unfold ScanSite.checkUrls.
  fold timeout follow limit.
  destruct (asyncPool_total limit (ScanSite.urlResult fetch timeout follow)
              sched urls) as (rs & E & Hp).
  exists rs. split; [exact E|]. split; [exact Hp|].
  assert (Hall : Forall (fun l => href l = resolvedUrl l /\ sourcePage l = "") rs).
  { apply Forall_forall. intros l Hl. eapply Permutation_in in Hl; [|exact Hp].
    apply in_map_iff in Hl. destruct Hl as (u & <- & _). split; reflexivity. }
  split; [|split].
  - apply map_ext_in. intros l Hl. rewrite Forall_forall in Hall.
    now destruct (Hall l Hl).
  - eapply Forall_impl; [|exact Hall]. now intros l [_ ?].
  - intros Hc.
    pose proof (pool_loop_sequential limit
                  (fun url => Fulfilled (ScanSite.urlResult fetch timeout follow url))
                  (ScanSite.urlResult fetch timeout follow) urls sched [] Hc
                  (fun _ _ => eq_refl)) as Hseq.
    unfold asyncPool in E. simpl in Hseq. congruence.
Qed.

End ScanSiteFacts.

(* ===================================================================== *)
(** ** escapeRegex                                                       *)
(* ===================================================================== *)

Module EscapeFacts.
Import LinkFixer.

Lemma backslash_syntax : isRegexSyntax backslash = true.
Proof. reflexivity. Qed.

Lemma plain_not_backslash c :
  isRegexSyntax c = false -> Ascii.eqb c backslash = false.
Proof.
  intros H. destruct (Ascii.eqb_spec c backslash) as [->|]; [|reflexivity].
  rewrite backslash_syntax in H. discriminate.
Qed.

Lemma literal_escapeRegex (s : string) : literal_of (escapeRegex s) = Some s.
Proof.
  induction s as [|c s IH]; [reflexivity|].
  cbn [escapeRegex]. destruct (isRegexSyntax c) eqn:E.
  - cbn [literal_of]. rewrite Ascii.eqb_refl, E, IH. reflexivity.
  - cbn [literal_of]. rewrite (plain_not_backslash c E), E, IH. reflexivity.
Qed.

Lemma escapeRegex_length (s : string) :
  (String.length s <= String.length (escapeRegex s) <= 2 * String.length s)%nat.
Proof.
  induction s as [|c s IH]; simpl; [lia|].
  destruct (isRegexSyntax c); simpl; lia.
Qed.

Lemma escapeRegex_plain (s : string) :
  escapeRegex s = s <->
  forallb (fun c => negb (isRegexSyntax c)) (list_ascii_of_string s) = true.
Proof.
  induction s as [|c s IH]; simpl; [tauto|].
  destruct (isRegexSyntax c) eqn:E; simpl.
  - split; [|discriminate]. intros H.
    pose proof (escapeRegex_length s) as Hl.
    apply (f_equal String.length) in H. simpl in H. lia.
  - rewrite <- IH. split; [now intros [= ->] | now intros ->].
Qed.

End EscapeFacts.

Section EscapeRegex.
Import LinkFixer EscapeFacts.

(** X24: [escapeRegex] yields a pattern that matches its argument as a
    literal, and only it: the escaping can be undone, so two different
    strings never yield the same pattern; a string without syntax
    characters, and no other, is left as it is. *)
Theorem escapeRegex_faithful (s : string) :
  literal_of (escapeRegex s) = Some s /\
  (forall t, escapeRegex s = escapeRegex t -> s = t) /\
  (escapeRegex s = s <->
   forallb (fun c => negb (isRegexSyntax c)) (list_ascii_of_string s) = true) /\
  (String.length s <= String.length (escapeRegex s) <= 2 * String.length s)%nat.
Proof.
  split; [apply literal_escapeRegex|]. split; [|split].
  - intros t E. pose proof (literal_escapeRegex s) as Hs.
    rewrite E, literal_escapeRegex in Hs. congruence.
  - apply escapeRegex_plain.
  - apply escapeRegex_length.
Qed.

End EscapeRegex.

(* ===================================================================== *)
(** ** applyFixesToContent                                               *)
(* ===================================================================== *)

Module ApplyFacts.
Import LinkFixer EscapeFacts StringFacts LevFacts.

Lemma startsWith_app p q s :
  JS.startsWith (p ++ q) s = true -> JS.startsWith p s = true.
Proof.
  revert s. induction p as [|a p IH]; intros s; simpl; [reflexivity|].
  destruct s as [|b s]; [discriminate|].
  intros H. apply andb_true_iff in H as [H1 H2].
  rewrite H1. simpl. now apply IH.
Qed.

Lemma replaceAll_absent lit p q fn s :
  lit = (p ++ q)%string ->
  JS.contains p s = false ->
  replaceAll_from lit fn 0 s = s.
Proof.
  intros ->. induction s as [|c s IH]; [reflexivity|].
  intros H. cbn [JS.contains] in H. apply orb_false_iff in H as [H1 H2].
  cbn [replaceAll_from].
  destruct (JS.startsWith (p ++ q) (String c s)) eqn:E.
  - apply startsWith_app in E. congruence.
  - now rewrite IH.
Qed.

Lemma literal_of_plain c pattern :
  isRegexSyntax c = false ->
  literal_of (String c pattern) = option_map (String c) (literal_of pattern).
Proof.
  intros H. cbn [literal_of]. now rewrite (plain_not_backslash c H), H.
Qed.

Lemma literal_of_escaped (s tail : string) :
  literal_of (escapeRegex s ++ tail) = option_map (append s) (literal_of tail).
Proof.
  induction s as [|c s IH]; simpl.
  - now destruct (literal_of tail).
  - destruct (isRegexSyntax c) eqn:E.
    + change (String backslash (String c (escapeRegex s)) ++ tail)%string
        with (String backslash (String c (escapeRegex s ++ tail))).
      cbn [literal_of]. rewrite Ascii.eqb_refl, E, IH.
      now destruct (literal_of tail).
    + change (String c (escapeRegex s) ++ tail)%string
        with (String c (escapeRegex s ++ tail)).
      rewrite (literal_of_plain c _ E), IH. now destruct (literal_of tail).
Qed.

(** The four patterns are literals: an [href] attribute in double or
    single quotes. *)
Lemma literal_of_attribute (q x : string) :
  q = doubleQuote \/ q = singleQuote ->
  literal_of ("href=" ++ q ++ escapeRegex x ++ q)
  = Some ("href=" ++ q ++ x ++ q)%string.
Proof.
  intros [-> | ->].
  - change ("href=" ++ doubleQuote ++ escapeRegex x ++ doubleQuote)%string
      with ("href=" ++ String (ascii_of_nat 34) (escapeRegex x ++ doubleQuote))%string.
    cbn [append]. rewrite !literal_of_plain by reflexivity.
    rewrite literal_of_escaped. reflexivity.
  - change ("href=" ++ singleQuote ++ escapeRegex x ++ singleQuote)%string
      with ("href=" ++ String (ascii_of_nat 39) (escapeRegex x ++ singleQuote))%string.
    cbn [append]. rewrite !literal_of_plain by reflexivity.
    rewrite literal_of_escaped. reflexivity.
Qed.

Lemma dropPrefix_app p s t :
  dropPrefix p s = None -> (String.length p <= String.length s)%nat ->
  dropPrefix p (s ++ t) = None.
Proof.
  revert s. induction p as [|a p IH]; intros s; simpl; [discriminate|].
  destruct s as [|b s]; simpl; [lia|].
  destruct (Ascii.eqb a b); [|reflexivity].
  intros H Hl. apply IH; [exact H | lia].
Qed.

Lemma dropPrefix_self p t : dropPrefix p (p ++ t) = Some t.
Proof.
  induction p as [|a p IH]; simpl; [reflexivity|].
  now rewrite Ascii.eqb_refl.
Qed.

Lemma findFirst_app pre p post :
  findFirst p (pre ++ p) = Some (pre, EmptyString) ->
  findFirst p (pre ++ p ++ post) = Some (pre, post).
Proof.
  induction pre as [|c pre IH].
  - intros _. cbn [append].
    destruct p as [|a p]; [now destruct post|].
    cbn [append findFirst].
    pose proof (dropPrefix_self (String a p) post) as E. cbn [append] in E.
    now rewrite E.
  - change (String c pre ++ p)%string with (String c (pre ++ p)).
    change (String c pre ++ p ++ post)%string with (String c (pre ++ p ++ post)).
    destruct p as [|a p].
    + discriminate.
    + cbn [findFirst].
      destruct (dropPrefix (String a p) (String c (pre ++ String a p))) eqn:E;
        [discriminate|].
      intros H.
      assert (E' : dropPrefix (String a p) (String c (pre ++ String a p ++ post)) = None).
      { pose proof (dropPrefix_app (String a p) (String c (pre ++ String a p)) post E) as K.
        change (String c (pre ++ String a p) ++ post)%string
          with (String c ((pre ++ String a p) ++ post)) in K.
        rewrite append_assoc in K. apply K.
        simpl. rewrite string_length_app. simpl. lia. }
      rewrite E'.
      destruct (findFirst (String a p) (pre ++ String a p)) as [[b r]|] eqn:Ef;
        [|discriminate].
      injection H as -> ->. now rewrite (IH eq_refl).
Qed.

Lemma getSubstitution_plain matched before rest template :
  JS.hasChar "$" template = false ->
  getSubstitution matched before rest template = template.
Proof.
  induction template as [|c t IH]; [reflexivity|].
  cbn [JS.hasChar]. intros H. apply orb_false_iff in H as [H1 H2].
  cbn [getSubstitution]. rewrite H1. now rewrite IH.
Qed.

Lemma replaceFirst_attribute (pre q a b : string) :
  findFirst a (pre ++ a) = Some (pre, EmptyString) ->
  JS.hasChar "$" b = false ->
  replaceFirst (pre ++ a ++ q) a b = (pre ++ b ++ q)%string.
Proof.
  intros Hf Hb. unfold replaceFirst.
  rewrite (findFirst_app pre a q Hf).
  now rewrite getSubstitution_plain.
Qed.

Lemma contains_app_r p pre post : JS.contains p (pre ++ p ++ post) = true.
Proof.
  induction pre as [|c pre IH].
  - cbn [append]. destruct (p ++ post)%string eqn:E.
    + destruct p; [reflexivity | discriminate].
    + rewrite <- E. cbn [JS.contains].
      assert (H : JS.startsWith p (p ++ post) = true).
      { clear. induction p as [|a p IH]; simpl; [reflexivity|].
        now rewrite Ascii.eqb_refl. }
      rewrite E in H |- *. cbn [JS.contains]. now rewrite H.
  - change (String c pre ++ p ++ post)%string with (String c (pre ++ p ++ post)).
    cbn [JS.contains]. rewrite IH. apply orb_true_r.
Qed.

End ApplyFacts.

Section ApplyFixes.
Context `{P : Platform}.
Import LinkFixer ApplyFacts.

Lemma applyPattern_count f op sp acc pattern :
  let out := applyPattern f op sp acc pattern in
  (snd acc <= snd out <= S (snd acc))%nat /\
  (snd out = snd acc -> fst out = fst acc).
Proof.
  destruct acc as [modified n]. unfold applyPattern. cbn [fst snd].
  destruct (String.eqb_spec
              (replaceRegex pattern (rewriteMatch f op sp) modified) modified)
    as [E|E]; cbn [fst snd].
  - split; [lia | intros _; exact E].
  - split; [lia | intros H; lia].
Qed.

Lemma applyPatterns_count f op sp patterns acc :
  let out := fold_left (applyPattern f op sp) patterns acc in
  (snd acc <= snd out <= snd acc + List.length patterns)%nat /\
  (snd out = snd acc -> fst out = fst acc).
Proof.
  revert acc. induction patterns as [|p patterns IH]; intros acc; simpl.
  - split; [lia | reflexivity].
  - destruct (applyPattern_count f op sp acc p) as [H1 H2].
    destruct (IH (applyPattern f op sp acc p)) as [H3 H4].
    split; [lia|]. intros E.
    assert (E1 : snd (applyPattern f op sp acc p) = snd acc) by lia.
    rewrite H4 by lia. now apply H2.
Qed.

Lemma applyFix_count minConf acc f :
  let out := applyFix minConf acc f in
  (snd acc <= snd out <= snd acc + (if eligible minConf f then 4 else 0))%nat /\
  (snd out = snd acc -> fst out = fst acc).
Proof.
  unfold applyFix, eligible.
  destruct (JS.Qlt_bool (confidence f) minConf); simpl.
  - split; [lia | reflexivity].
  - apply (applyPatterns_count f (getPathname (originalHref f))
             (getPathname (suggestedHref f))
             (hrefPatterns f (getPathname (originalHref f))) acc).
Qed.

Lemma applyFixes_count minConf fixes acc :
  let out := fold_left (applyFix minConf) fixes acc in
  (snd acc <= snd out
   <= snd acc + 4 * List.length (filter (eligible minConf) fixes))%nat /\
  (snd out = snd acc -> fst out = fst acc).
Proof.
  revert acc. induction fixes as [|f fixes IH]; intros acc.
  - simpl. split; [lia | reflexivity].
  - cbn [fold_left filter].
    destruct (applyFix_count minConf acc f) as [H1 H2].
    destruct (IH (applyFix minConf acc f)) as [H3 H4].
    cbv zeta in *.
    destruct (eligible minConf f); cbn [List.length] in *.
    + split; [lia|]. intros E. rewrite H4 by lia. apply H2. lia.
    + split; [lia|]. intros E. rewrite H4 by lia. apply H2. lia.
Qed.

(** X26: the count says whether the content changed: when [appliedCount]
    is 0 the content is returned unchanged, and the count is at most four
    per fix at or above the threshold (one per pattern that changed the
    content), however many attributes were rewritten. *)
Theorem applyFixesToContent_count (content : string) (fixes : list LinkFix)
  (minConfidence : option Q) :
  let out := applyFixesToContent content fixes minConfidence in
  (snd out = 0%nat -> fst out = content) /\
  (snd out
   <= 4 * List.length
            (filter (eligible (thresholdOfApply minConfidence)) fixes))%nat.
Proof.
  unfold applyFixesToContent. fold (thresholdOfApply minConfidence).
  destruct (applyFixes_count (thresholdOfApply minConfidence) fixes
              (content, 0%nat)) as [H1 H2].
  cbv zeta in *. cbn [fst snd] in *. split; [exact H2 | lia].
Qed.

(** X27: a fix below the threshold is skipped: the result is that of the
    fixes at or above the threshold alone, and no fix at all leaves the
    content as it is, with count 0. *)
Theorem applyFixesToContent_threshold (content : string) (fixes : list LinkFix)
  (minConfidence : option Q) :
  applyFixesToContent content fixes minConfidence
  = applyFixesToContent content
      (filter (eligible (thresholdOfApply minConfidence)) fixes) minConfidence /\
  (Forall (fun f => confidence f < thresholdOfApply minConfidence) fixes ->
   applyFixesToContent content fixes minConfidence = (content, 0%nat)).
Proof.
  unfold applyFixesToContent. fold (thresholdOfApply minConfidence).
  set (c := thresholdOfApply minConfidence).
  assert (G : forall acc,
    fold_left (applyFix c) fixes acc
    = fold_left (applyFix c) (filter (eligible c) fixes) acc).
  { induction fixes as [|f fixes IH]; intros acc; [reflexivity|].
    cbn [fold_left filter]. destruct (eligible c f) eqn:E.
    - cbn [fold_left]. apply IH.
    - rewrite <- IH. f_equal. unfold applyFix. unfold eligible in E.
      apply negb_false_iff in E. now rewrite E. }
  split; [apply G|].
  intros Hall. rewrite G.
  assert (E : filter (eligible c) fixes = []).
  { clear G. induction fixes as [|f fixes IH]; [reflexivity|].
    inversion Hall as [|? ? Hf Hr]; subst. cbn [filter].
    unfold eligible at 1.
    apply NumFacts.Qlt_bool_iff in Hf. rewrite Hf. simpl. now apply IH. }
  now rewrite E.
Qed.

Lemma applyPattern_absent f op sp q x content n :
  q = doubleQuote \/ q = singleQuote ->
  JS.contains "href=" content = false ->
  applyPattern f op sp (content, n)
    ("href=" ++ q ++ escapeRegex x ++ q)%string = (content, n).
Proof.
  intros Hq Hc. unfold applyPattern, replaceRegex.
  rewrite (literal_of_attribute q x Hq).
  rewrite (replaceAll_absent _ "href=" (q ++ x ++ q) _ content eq_refl Hc).
  now rewrite String.eqb_refl.
Qed.

(** X28: a content without the text [href=] is returned as it is, with
    count 0, whatever the fixes. *)
Theorem applyFixesToContent_no_href (content : string) (fixes : list LinkFix)
  (minConfidence : option Q) :
  JS.contains "href=" content = false ->
  applyFixesToContent content fixes minConfidence = (content, 0%nat).
Proof.
  intros Hc. unfold applyFixesToContent.
  induction fixes as [|f fixes IH]; [reflexivity|].
  cbn [fold_left]. rewrite <- IH at 2. f_equal.
  unfold applyFix. destruct (JS.Qlt_bool _ _); [reflexivity|].
  unfold hrefPatterns. cbn [fold_left].
  rewrite !applyPattern_absent; auto.
Qed.

(** X29: what the callback makes of a match: an attribute that holds
    the original href gets the suggested href, and one that holds the
    original path (and not the original href) gets the suggested path,
    provided the text searched for occurs in the attribute at its value
    first and the replacement holds no [$]. *)
Theorem rewriteMatch_attribute (f : LinkFix) (originalPath suggestedPath q : string) :
  (findFirst (originalHref f) ("href=" ++ q ++ originalHref f)
     = Some (("href=" ++ q)%string, EmptyString) ->
   JS.hasChar "$" (suggestedHref f) = false ->
   rewriteMatch f originalPath suggestedPath ("href=" ++ q ++ originalHref f ++ q)
   = ("href=" ++ q ++ suggestedHref f ++ q)%string) /\
  (JS.contains (originalHref f) ("href=" ++ q ++ originalPath ++ q) = false ->
   findFirst originalPath ("href=" ++ q ++ originalPath)
     = Some (("href=" ++ q)%string, EmptyString) ->
   JS.hasChar "$" suggestedPath = false ->
   rewriteMatch f originalPath suggestedPath ("href=" ++ q ++ originalPath ++ q)
   = ("href=" ++ q ++ suggestedPath ++ q)%string).
Proof.
  set (pre := ("href=" ++ q)%string).
  assert (E1 : forall x, ("href=" ++ q ++ x)%string = (pre ++ x)%string)
    by (intros x; unfold pre; now rewrite StringFacts.append_assoc).
  rewrite !E1. unfold rewriteMatch. split.
  - intros Hf Hd.
    rewrite (contains_app_r (originalHref f) pre q).
    now apply replaceFirst_attribute.
  - intros Hc Hf Hd. rewrite Hc.
    now apply replaceFirst_attribute.
Qed.

End ApplyFixes.

(* ===================================================================== *)
(** ** The whole scan and the rewriting, on concrete inputs              *)
(* ===================================================================== *)


Lemma asyncPool_sequential_witness :
  LinkScanner.asyncPool 1 (fun s => LinkScanner.Fulfilled (String.length s))
    [(1%nat, [2%nat]); (3%nat, [])] ["a"; "bb"; "ccc"]
  = LinkScanner.Fulfilled (map String.length ["a"; "bb"; "ccc"]).
Proof.
  apply (asyncPool_sequential 1
           (fun s => LinkScanner.Fulfilled (String.length s)) String.length
           ["a"; "bb"; "ccc"] [(1%nat, [2%nat]); (3%nat, [])]).
  - lia.
  - intros item _. reflexivity.
Defined.

(** The scan of a site whose only link redirects to a missing page: the
    link is reported both as broken and as a redirect, with the root page
    as its source; the two URLs visited count as pages crawled, the second
    of which the browser failed to load. *)
Example scanSite_one_link :
  ScanSite.scanSite one_link_site moved_to_missing [] 5 "https://example.com/"
    ScanSite.noOptions
  = Some (ScanSite.Scanned
            (let result :=
               {| sourcePage := "https://example.com/";
                  href := "https://example.com/old";
                  resolvedUrl := "https://example.com/old";
                  statusCode := Some 404%Z;
                  isRedirect := true;
                  finalUrl := Some "https://example.com/gone";
                  redirectChain := ["https://example.com/old"];
                  error := None |} in
             {| ScanSite.baseUrl := "https://example.com/";
                ScanSite.totalLinks := 1;
                ScanSite.pagesCrawled := 2;
                ScanSite.brokenLinks := [result];
                ScanSite.redirectLinks := [result];
                ScanSite.serverErrors := [];
                ScanSite.connectionErrors := [] |})).
Proof. reflexivity. Qed.

(** The fix computed from that scan sends the broken link to the page
    that answered 404. *)
Example scanSite_suggests_missing_page :
  match ScanSite.scanSite one_link_site moved_to_missing [] 5
          "https://example.com/" ScanSite.noOptions with
  | Some (ScanSite.Scanned r) =>
      map (fun f => (originalHref f, suggestedHref f, method f, sourcePages f))
        (LinkFixer.computeFixes (ScanSite.brokenLinks r) []
           (ScanSite.redirectLinks r) LinkFixer.noOptions)
      = [("https://example.com/old", "https://example.com/gone",
          redirect_target, ["https://example.com/"])]
  | _ => False
  end.
Proof. reflexivity. Qed.

Lemma scanSite_counts_witness :
  exists r,
    ScanSite.scanSite one_link_site moved_to_missing [] 5 "https://example.com/"
      ScanSite.noOptions = Some (ScanSite.Scanned r) /\
    (Z.of_nat (ScanSite.pagesCrawled r) <= Z.max 0 100)%Z /\
    NoDup (map href (ScanSite.brokenLinks r ++ ScanSite.serverErrors r
                       ++ ScanSite.connectionErrors r)) /\
    NoDup (map href (ScanSite.redirectLinks r)) /\
    (List.length (ScanSite.brokenLinks r) + List.length (ScanSite.serverErrors r)
     + List.length (ScanSite.connectionErrors r) <= ScanSite.totalLinks r)%nat /\
    (List.length (ScanSite.redirectLinks r) <= ScanSite.totalLinks r)%nat.
Proof.
  eexists. split; [reflexivity|].
  apply (scanSite_counts one_link_site moved_to_missing [] 5
           "https://example.com/" ScanSite.noOptions).
  reflexivity.
Defined.

Lemma scanSite_source_pages_witness :
  exists r,
    ScanSite.scanSite one_link_site moved_to_missing [] 5 "https://example.com/"
      ScanSite.noOptions = Some (ScanSite.Scanned r) /\
    ScanSite.brokenLinks r <> [] /\
    Forall (fun l =>
              exists parsed page,
                URL_new "https://example.com/" = Some parsed /\
                one_link_site (sourcePage l) 15000%Z = Some page /\
                In (href l) (LinkScanner.extractLinks page (URL_origin parsed)))
      (ScanSite.brokenLinks r ++ ScanSite.redirectLinks r
         ++ ScanSite.serverErrors r ++ ScanSite.connectionErrors r).
Proof.
  eexists. split; [reflexivity|]. split; [discriminate|].
  apply (scanSite_source_pages one_link_site moved_to_missing [] 5
           "https://example.com/" ScanSite.noOptions).
  reflexivity.
Defined.

Lemma scanSite_fixes_one_source_witness :
  exists r,
    ScanSite.scanSite one_link_site moved_to_missing [] 5 "https://example.com/"
      ScanSite.noOptions = Some (ScanSite.Scanned r) /\
    LinkFixer.computeFixes (ScanSite.brokenLinks r) [] (ScanSite.redirectLinks r)
      LinkFixer.noOptions <> [] /\
    Forall (fun f =>
              exists l, In l (ScanSite.brokenLinks r) /\
                        href l = originalHref f /\
                        sourcePages f = [sourcePage l])
      (LinkFixer.computeFixes (ScanSite.brokenLinks r) []
         (ScanSite.redirectLinks r) LinkFixer.noOptions).
Proof.
  eexists. split; [reflexivity|]. split; [discriminate|].
  apply (scanSite_fixes_one_source one_link_site moved_to_missing [] 5
           "https://example.com/" ScanSite.noOptions).
  reflexivity.
Defined.

Lemma scanSite_redirect_target_missing_witness :
  exists r,
    ScanSite.scanSite one_link_site moved_to_missing [] 5 "https://example.com/"
      ScanSite.noOptions = Some (ScanSite.Scanned r) /\
    map method
      (LinkFixer.computeFixes (ScanSite.brokenLinks r) []
         (ScanSite.redirectLinks r) LinkFixer.noOptions) = [redirect_target] /\
    Forall (fun f =>
              method f = redirect_target ->
              exists attempt location,
                moved_to_missing attempt (suggestedHref f) 15000%Z
                = LinkScanner.Response 404 location)
      (LinkFixer.computeFixes (ScanSite.brokenLinks r) []
         (ScanSite.redirectLinks r) LinkFixer.noOptions).
Proof.
  eexists. split; [reflexivity|]. split; [reflexivity|].
  apply (scanSite_redirect_target_missing one_link_site moved_to_missing [] 5
           "https://example.com/" ScanSite.noOptions).
  reflexivity.
Defined.

(** The tests of [applyFixesToContent]. *)
Example test_apply_replaces_href :
  LinkFixer.applyFixesToContent
    (anchor "/old-page" ++ anchor "/other-page")%string
    [pageFix "https://example.com/old-page" "https://example.com/new-page" (9 # 10)]
    None
  = ((anchor "/new-page" ++ anchor "/other-page")%string, 1%nat).
Proof. reflexivity. Qed.

Example test_apply_single_quotes :
  LinkFixer.applyFixesToContent "<a href='/old-path'>Link</a>"
    [pageFix "https://example.com/old-path" "https://example.com/new-path" (9 # 10)]
    None
  = ("<a href='/new-path'>Link</a>", 1%nat).
Proof. reflexivity. Qed.

Example test_apply_skips_low_confidence :
  LinkFixer.applyFixesToContent (anchor "/old-page")
    [pageFix "https://example.com/old-page" "https://example.com/new-page" (5 # 10)]
    (Some (7 # 10))
  = (anchor "/old-page", 0%nat).
Proof. reflexivity. Qed.

Example test_apply_full_url :
  LinkFixer.applyFixesToContent (anchor "https://example.com/old-page")
    [pageFix "https://example.com/old-page" "https://example.com/new-page" (9 # 10)]
    None
  = (anchor "https://example.com/new-page", 1%nat).
Proof. reflexivity. Qed.

(** Where the callback does otherwise: the original href [h] occurs in
    the attribute before its value, and a suggestion with [$&] brings the
    original back. *)
Example applyFixesToContent_rewrites_attribute_name :
  LinkFixer.applyFixesToContent (anchor "h") [pageFix "h" "/new" (9 # 10)] None
  = (("<a /newref=" ++ LinkFixer.doubleQuote ++ "h" ++ LinkFixer.doubleQuote
      ++ ">Link</a>")%string, 1%nat) /\
  LinkFixer.applyFixesToContent (anchor "/old") [pageFix "/old" "/new$&" (9 # 10)]
    None
  = (anchor "/new/old", 1%nat).
Proof. split; reflexivity. Qed.

Lemma applyFixesToContent_no_href_witness :
  LinkFixer.applyFixesToContent "<p>no link here</p>"
    [pageFix "https://example.com/old-page" "https://example.com/new-page" (9 # 10)]
    None
  = ("<p>no link here</p>", 0%nat).
Proof.
  apply (applyFixesToContent_no_href "<p>no link here</p>"
           [pageFix "https://example.com/old-page" "https://example.com/new-page"
              (9 # 10)] None).
  reflexivity.
Defined.
